(** * Offline upload queue: a shallow embedding of
      [src/lib/retry.ts], [src/lib/db/indexedDB.ts] and
      [src/lib/sw/queue-manager.ts]

    The TypeScript sources are asynchronous programs over three pieces of
    shared state: the [pendingUploads] object store of IndexedDB, the
    fields of the [QueueManager] singleton, and the browser environment
    ([fetch], [navigator.onLine], [Math.random], timers).  They are
    embedded as terms of a small free monad [Prog]: every [await] of the
    source is a node of the term at which the event loop may run another
    task, every synchronous read or write of shared state is a node that
    is executed without interruption.

    Conventions.
    - JavaScript numbers are integers ([Z]) where the source counts, and
      IEEE 754 binary64 values ([spec_float], with the operations of
      [SpecFloat] at precision 53) where it computes delays.  [Math.pow]
      is left to the engine by ECMAScript; its value is an answer of the
      environment, like that of [Math.random].
    - [console.log] is omitted; [console.error] is kept as an event.
    - The queue manager runs on an open database: [getDB] resolves, and
      requests succeed (quota and transaction aborts are not modelled);
      [add] on an existing key is the one request that fails, as in
      IndexedDB.  What [getDB] and [connect] do when the database cannot
      be opened is the subject of the part on [indexedDB.ts].
    - [getAll] on a store or on an index lists records in ascending order
      of their keys; the keys of the queue are strings, compared code
      unit by code unit.
    - A progress callback records what it is given, as the object is at
      the time of the call.  It may throw, and it may call unsubscribe
      functions that [onProgress] returned, its own included; it does
      not register callbacks and does not call the asynchronous methods
      of the queue manager. *)

From Stdlib Require Import ZArith String List Lia Bool.
From Stdlib Require Import Floats.SpecFloat.
From stdpp Require Import gmap strings list fin_maps pretty sorting.

Open Scope Z_scope.

(* ===================================================================== *)
(** * Data model ([indexedDB.ts], [types/error.ts])                      *)
(* ===================================================================== *)

(** [File]: a name and its bytes. *)
Record File := mkFile { file_name : string; file_bytes : list Byte.byte }.

(** ['image' | 'video'] *)
Inductive MediaType := image | video.

(** ['pending' | 'uploading' | 'failed'] *)
Inductive UploadStatus := pending | uploading | failed.

Definition UploadStatus_eqb (a b : UploadStatus) : bool :=
  match a, b with
  | pending, pending | uploading, uploading | failed, failed => true
  | _, _ => false
  end.

(** [interface PendingUpload] *)
Record PendingUpload := mkPendingUpload {
  id : string;
  file : File;
  type : MediaType;
  status : UploadStatus;
  progress : Z;
  retryCount : Z;
  createdAt : Z;
  error : option string
}.

Definition with_status (s : UploadStatus) (u : PendingUpload) : PendingUpload :=
  mkPendingUpload (id u) (file u) (type u) s (progress u) (retryCount u)
                  (createdAt u) (error u).
Definition with_progress (p : Z) (u : PendingUpload) : PendingUpload :=
  mkPendingUpload (id u) (file u) (type u) (status u) p (retryCount u)
                  (createdAt u) (error u).
Definition with_retryCount (n : Z) (u : PendingUpload) : PendingUpload :=
  mkPendingUpload (id u) (file u) (type u) (status u) (progress u) n
                  (createdAt u) (error u).
Definition with_error (e : option string) (u : PendingUpload) : PendingUpload :=
  mkPendingUpload (id u) (file u) (type u) (status u) (progress u)
                  (retryCount u) (createdAt u) e.

(** A value that can be thrown: an [Error] object with its message, or any
    other value, kept as the string [String(value)] yields. *)
Inductive JsValue :=
| JsError (message : string)
| JsOther (repr : string).

(** [error instanceof Error ? error : new Error(String(error))] *)
Definition toError (err : JsValue) : JsValue :=
  match err with
  | JsError m => JsError m
  | JsOther s => JsError s
  end.

(** [error instanceof Error ? error.message : fallback] *)
Definition messageOr (fallback : string) (err : JsValue) : string :=
  match err with
  | JsError m => m
  | JsOther _ => fallback
  end.

(** The outcome of a promise: fulfilled with a value or rejected. *)
Inductive Result (A : Type) : Type :=
| Ok (a : A)
| Thrown (e : JsValue).
Arguments Ok {A} a.
Arguments Thrown {A} e.

(** A JavaScript number where the source computes with fractions: a
    binary64 value. *)
Definition number : Type := spec_float.

(** [x * y] and [x + y], rounded to nearest, ties to even. *)
Definition number_mul (x y : number) : number := SFmul 53 1024 x y.
Definition number_add (x y : number) : number := SFadd 53 1024 x y.

(** The number an integer literal or an integer-valued variable denotes. *)
Definition number_of_Z (z : Z) : number := binary_normalize 53 1024 z 0 false.

(** The literal [0.3]: the binary64 value nearest to 3/10. *)
Definition three_tenths : number := S754_finite false 5404319552844595 (-54).

(** [Infinity] and [NaN]. *)
Definition Infinity : number := S754_infinity false.
Definition NaN : number := S754_nan.

(** [x <= y], [x < y] and [x === y]; all are false when an operand is
    NaN. *)
Definition number_leb (x y : number) : bool := SFleb x y.
Definition number_ltb (x y : number) : bool := SFltb x y.
Definition number_eqb (x y : number) : bool := SFeqb x y.

(** The representation is that of a binary64 value: the mantissa has at
    most 53 bits, exactly 53 unless the value is subnormal, and the
    exponent is in range. *)
Definition binary64 (x : number) : bool := valid_binary 53 1024 x.

(** [Math.min(x, y)]: NaN when an operand is NaN, and -0 below +0. *)
Definition Math_min (x y : number) : number :=
  match SFcompare x y with
  | None => S754_nan
  | Some Lt => x
  | Some Gt => y
  | Some Eq => match x with S754_zero true => x | _ => y end
  end.

Arguments number_mul : simpl never.
Arguments number_add : simpl never.
Arguments number_of_Z : simpl never.
Arguments Math_min : simpl never.

(** The exceptions IndexedDB raises in these sources, by name. *)
Inductive DOMException := ConstraintError | DataError | NotFoundError.

(** [e.name] *)
Definition DOMException_name (e : DOMException) : string :=
  match e with
  | ConstraintError => "ConstraintError"
  | DataError => "DataError"
  | NotFoundError => "NotFoundError"
  end.

(** [String(e)], as a template literal computes it, for the exception
    [e] carrying the message [message] the browser gave it
    ([Error.prototype.toString]: the name alone when the message is
    empty). *)
Definition DOMException_toString (e : DOMException) (message : string) : string :=
  match message with
  | EmptyString => DOMException_name e
  | _ => DOMException_name e +:+ ": " +:+ message
  end.

(** The two properties of a fetch [Response] that the queue reads. *)
Module Response.
Record t := mk { ok : bool; status : Z }.
End Response.

(** [interface RetryConfig] *)
Record RetryConfig := mkRetryConfig {
  maxRetries : Z;
  initialDelay : number;
  maxDelay : number;
  backoffFactor : number
}.

(** [DEFAULT_RETRY_CONFIG] *)
Definition DEFAULT_RETRY_CONFIG : RetryConfig :=
  mkRetryConfig 3 (number_of_Z 1000) (number_of_Z 10000) (number_of_Z 2).

(** The snapshot returned by [getQueueStatus]. *)
Module QueueStatus.
Record t := mk { total : nat; pending : nat; uploading : nat; failed : nat }.
End QueueStatus.

(** A registered progress callback: an identity, and whether it throws. *)
Record Callback := mkCallback { cb_id : nat; cb_throws : bool }.

Definition Callback_eqb (a b : Callback) : bool :=
  Nat.eqb (cb_id a) (cb_id b) && Bool.eqb (cb_throws a) (cb_throws b).

(* ===================================================================== *)
(** * Effects and programs                                               *)
(* ===================================================================== *)

(** Program points of [processQueue] that have no counterpart in the
    store: entering the [try] block and reaching [finally]. *)
Inductive GhostOp := EnterDrain | LeaveDrain.

(** One constructor per primitive the sources use.  The first group are
    promises the caller awaits; the second group are synchronous. *)
Inductive Eff : Type -> Type :=
(* awaited *)
| GetDB : Eff unit
| DbAdd (data : PendingUpload) : Eff (Result string)
| DbGet (key : string) : Eff (option PendingUpload)
| DbUpdate (data : PendingUpload) : Eff string
| DbDelete (key : string) : Eff unit
| DbGetAll : Eff (list PendingUpload)
| DbGetByIndex (value : UploadStatus) : Eff (list PendingUpload)
| DbClear : Eff unit
| Fetch (f : File) (t : MediaType) : Eff (Result Response.t)
| Sleep (ms : number) : Eff unit
| Yield : Eff unit
(* synchronous *)
| MathRandom : Eff number
| MathPow (base exponent : number) : Eff number
| DateNow : Eff Z
| Uuidv4 : Eff string
| NavigatorOnLine : Eff bool
| GetIsProcessing : Eff bool
| SetIsProcessing (b : bool) : Eff unit
| GetProgressCallbacks : Eff (list Callback)
| SetProgressCallbacks (l : list Callback) : Eff unit
| GetOnlineListener : Eff bool
| SetOnlineListener (b : bool) : Eff unit
| CallCallback (cb : Callback) (upload : PendingUpload) : Eff (Result unit)
| ConsoleError (site : string) : Eff unit
| Ghost (g : GhostOp) : Eff unit.

(** [is_await e]: the caller is suspended until [e] settles. *)
Definition is_await {X : Type} (e : Eff X) : bool :=
  match e with
  | GetDB | DbAdd _ | DbGet _ | DbUpdate _ | DbDelete _ | DbGetAll
  | DbGetByIndex _ | DbClear | Fetch _ _ | Sleep _ | Yield => true
  | _ => false
  end.

(** Programs: return, perform an effect and continue, or call an async
    function without awaiting it ([Fork]). *)
Inductive Prog (A : Type) : Type :=
| Ret (a : A)
| Vis {X : Type} (e : Eff X) (k : X -> Prog A)
| Fork (child : Prog (Result unit)) (k : Prog A).
Arguments Ret {A} a.
Arguments Vis {A X} e k.
Arguments Fork {A} child k.

Fixpoint bindP {A B : Type} (p : Prog A) (f : A -> Prog B) : Prog B :=
  match p with
  | Ret a => f a
  | Vis e k => Vis e (fun x => bindP (k x) f)
  | Fork c k => Fork c (bindP k f)
  end.

(** An async function body: a program whose promise is fulfilled or
    rejected. *)
Definition M (A : Type) : Type := Prog (Result A).

Definition ret {A : Type} (a : A) : M A := Ret (Ok a).
Definition throw {A : Type} (e : JsValue) : M A := Ret (Thrown e).
Definition bind {A B : Type} (m : M A) (f : A -> M B) : M B :=
  bindP m (fun r => match r with Ok a => f a | Thrown e => Ret (Thrown e) end).
Arguments bind {A B} m f &.

Declare Scope prog_scope.
Delimit Scope prog_scope with prog.
Notation "x <- m ;; k" := (bind m (fun x => k))
  (at level 100, m at next level, right associativity) : prog_scope.
Notation "m ;; k" := (bind m (fun _ => k))
  (at level 100, right associativity) : prog_scope.
Open Scope prog_scope.

(** [try { body } catch (error) { handler }] *)
Definition try_catch {A : Type} (body : M A) (handler : JsValue -> M A) : M A :=
  bindP body (fun r => match r with Ok a => Ret (Ok a) | Thrown e => handler e end).
Arguments try_catch {A} body handler &.

(** [try { body } finally { fin }] *)
Definition try_finally {A : Type} (body : M A) (fin : M unit) : M A :=
  bindP body (fun r =>
  bindP fin (fun r' => match r' with Ok _ => Ret r | Thrown e => Ret (Thrown e) end)).
Arguments try_finally {A} body fin &.

(** An effect that cannot reject. *)
Definition perform {X : Type} (e : Eff X) : M X := Vis e (fun x => Ret (Ok x)).
(** An effect whose promise may reject. *)
Definition settle {X : Type} (e : Eff (Result X)) : M X := Vis e (fun r => Ret r).
(** [await f(...)] for an async function [f] of the sources: the caller
    resumes in a later turn of the event loop. *)
Definition await {A : Type} (p : M A) : M A :=
  bindP p (fun r => Vis Yield (fun _ => Ret r)).
(** [f(...)] for an async function [f], not awaited. *)
Definition fork (p : M unit) : M unit := Fork p (Ret (Ok tt)).

(** [for (const x of l) { body }] *)
Fixpoint for_of {A : Type} (l : list A) (body : A -> M unit) : M unit :=
  match l with
  | [] => ret tt
  | x :: l' => body x ;; for_of l' body
  end.

(* ===================================================================== *)
(** * [retry.ts]                                                         *)
(* ===================================================================== *)

(** [Partial<RetryConfig>] *)
Record PartialRetryConfig := mkPartialRetryConfig {
  opt_maxRetries : option Z;
  opt_initialDelay : option number;
  opt_maxDelay : option number;
  opt_backoffFactor : option number
}.

(** [{ ...DEFAULT_RETRY_CONFIG, ...config }] *)
Definition finalConfig (config : PartialRetryConfig) : RetryConfig :=
  mkRetryConfig
    (default (maxRetries DEFAULT_RETRY_CONFIG) (opt_maxRetries config))
    (default (initialDelay DEFAULT_RETRY_CONFIG) (opt_initialDelay config))
    (default (maxDelay DEFAULT_RETRY_CONFIG) (opt_maxDelay config))
    (default (backoffFactor DEFAULT_RETRY_CONFIG) (opt_backoffFactor config)).

(** The arithmetic of [calculateBackoffDelay] on the value [power] of
    [Math.pow(backoffFactor, attempt - 1)] and the value [rand] of
    [Math.random()]. *)
Definition backoff_delay (power rand initialDelay maxDelay : number) : number :=
  let delay := number_mul initialDelay power in
  let jitter := number_mul (number_mul rand three_tenths) delay in
  Math_min (number_add delay jitter) maxDelay.

Arguments backoff_delay : simpl never.

(** [calculateBackoffDelay] *)
Definition calculateBackoffDelay (attempt : Z)
    (initialDelay maxDelay backoffFactor : number) : M number :=
  power <- perform (MathPow backoffFactor (number_of_Z (attempt - 1))) ;;
  rand <- perform MathRandom ;;
  ret (backoff_delay power rand initialDelay maxDelay).

(** [sleep] *)
Definition sleep (ms : number) : M unit := perform (Sleep ms).

(** [throw lastError || new Error('Operation failed after retries')] *)
Definition throw_lastError {T : Type} (lastError : option JsValue) : M T :=
  throw (default (JsError "Operation failed after retries") lastError).

(** What the loop of [retryWithBackoff] yields when [fuel] iterations were
    not enough. *)
Definition OUT_OF_FUEL : JsValue := JsOther "retryWithBackoff: out of fuel".

(** The [while (attempt <= finalConfig.maxRetries)] loop of
    [retryWithBackoff], with its two mutable locals. *)
Fixpoint retry_while {T : Type} (fuel : nat) (operation : M T) (cfg : RetryConfig)
    (lastError : option JsValue) (attempt : Z) : M T :=
  if attempt <=? maxRetries cfg then
    match fuel with
    | O => throw OUT_OF_FUEL
    | S fuel' =>
        try_catch (await operation) (fun error =>
          let lastError := Some (toError error) in
          let attempt := attempt + 1 in
          if attempt >? maxRetries cfg then throw_lastError lastError
          else
            delay <- calculateBackoffDelay attempt (initialDelay cfg)
                       (maxDelay cfg) (backoffFactor cfg) ;;
            sleep delay ;;
            retry_while fuel' operation cfg lastError attempt)
    end
  else throw_lastError lastError.

(** [retryWithBackoff] *)
Definition retryWithBackoff {T : Type} (operation : M T) (config : PartialRetryConfig)
    : M T :=
  let cfg := finalConfig config in
  retry_while (Z.to_nat (maxRetries cfg + 1)) operation cfg None 0.

(* ===================================================================== *)
(** * [queue-manager.ts]                                                 *)
(* ===================================================================== *)

(** The loop [for (const callback of this.progressCallbacks)] of
    [notifyProgress], from position [index] of the array.  The iterator
    of an array reads the array anew at every step: a callback that is
    unsubscribed while the loop runs is seen by the loop.  [fuel] bounds
    the number of steps. *)
Fixpoint notify_from (fuel index : nat) (upload : PendingUpload) : M unit :=
  match fuel with
  | O => ret tt
  | S fuel' =>
      callbacks <- perform GetProgressCallbacks ;;
      match callbacks !! index with
      | None => ret tt
      | Some callback =>
          try_catch (settle (CallCallback callback upload))
            (fun _ => perform (ConsoleError "notifyProgress")) ;;
          notify_from fuel' (S index) upload
      end
  end.

(** [notifyProgress].  Callbacks can only leave the array during the
    loop, so its length at the start bounds the number of steps. *)
Definition notifyProgress (upload : PendingUpload) : M unit :=
  callbacks <- perform GetProgressCallbacks ;;
  notify_from (length callbacks) 0 upload.

(** [uploadFile] *)
Definition uploadFile (upload : PendingUpload) : M Response.t :=
  response <- settle (Fetch (file upload) (type upload)) ;;
  ret response.

(** The configuration literal passed by [processUpload]. *)
Definition UPLOAD_RETRY_CONFIG : PartialRetryConfig :=
  mkPartialRetryConfig (Some 3) (Some (number_of_Z 1000))
    (Some (number_of_Z 10000)) (Some (number_of_Z 2)).

(** Lines 169-179 of [processUpload]: the call of [retryWithBackoff] on
    the arrow function [async () => { return await this.uploadFile(upload) }]. *)
Definition transfer (upload : PendingUpload) : M Response.t :=
  retryWithBackoff (await (uploadFile upload)) UPLOAD_RETRY_CONFIG.

(** The [catch (error)] block of [processUpload], lines 193-209.  It
    sees the local [upload] as the [try] block left it. *)
Definition processUpload_catch (upload : PendingUpload) (error : JsValue)
    : M unit :=
  let upload := with_status failed upload in
  let upload := with_retryCount (retryCount upload + 1) upload in
  let upload := with_error (Some (messageOr "알 수 없는 오류" error)) upload in
  perform (DbUpdate upload) ;;
  notifyProgress upload ;;
  perform (ConsoleError "processUpload") ;;
  if retryCount upload >=? 5 then
    perform (DbDelete (id upload))
  else ret tt.

(** What the [try] block of [processUpload] does with the response,
    lines 181-192. *)
Definition processUpload_response (upload : PendingUpload)
    (response : Response.t) : M unit :=
  if Response.ok response then
    perform (DbDelete (id upload)) ;;
    let upload := with_status pending upload in
    let upload := with_progress 100 upload in
    notifyProgress upload
  else
    throw (JsError ("업로드 실패: " +:+ pretty (Response.status response))).

(** [processUpload].  The local [upload] is the object read from the
    store; its successive mutations are successive bindings.  When the
    [try] block throws, [upload] is still the 'uploading' object: the
    mutations of the success branch are followed only by [notifyProgress],
    which does not throw. *)
Definition processUpload (upload : PendingUpload) : M unit :=
  perform GetDB ;;
  let upload := with_status uploading upload in
  perform (DbUpdate upload) ;;
  notifyProgress upload ;;
  try_catch
    (response <- await (transfer upload) ;;
     processUpload_response upload response)
    (processUpload_catch upload).

(** The [try / catch / finally] statement of [processQueue], lines
    131-152, bracketed by the two program points. *)
Definition processQueue_try : M unit :=
  try_finally
    (try_catch
       (perform GetDB ;;
        pendingUploads <- perform (DbGetByIndex pending) ;;
        for_of pendingUploads (fun upload =>
          try_catch (await (processUpload upload))
            (fun _ => perform (ConsoleError "processQueue: upload"))))
       (fun _ => perform (ConsoleError "processQueue")))
    (perform (Ghost LeaveDrain) ;;
     perform (SetIsProcessing false)).

(** [processQueue] *)
Definition processQueue : M unit :=
  isProcessing <- perform GetIsProcessing ;;
  if isProcessing : bool then ret tt
  else
    onLine <- perform NavigatorOnLine ;;
    if negb onLine then ret tt
    else
      perform (SetIsProcessing true) ;;
      perform (Ghost EnterDrain) ;;
      processQueue_try.

(** [init]: registers the listener that calls [processQueue] on the
    browser's 'online' event. *)
Definition init : M unit :=
  onlineListener <- perform GetOnlineListener ;;
  if onlineListener : bool then ret tt
  else perform (SetOnlineListener true).

(** [cleanup] *)
Definition cleanup : M unit :=
  onlineListener <- perform GetOnlineListener ;;
  if onlineListener : bool then perform (SetOnlineListener false)
  else ret tt.

(** The listener installed by [init]. *)
Definition onlineListener_body : M unit := fork processQueue.

(** [onProgress]: [progressCallbacks.push(callback)]. *)
Definition onProgress (callback : Callback) : M unit :=
  callbacks <- perform GetProgressCallbacks ;;
  perform (SetProgressCallbacks (callbacks ++ [callback])).

(** [splice(indexOf(callback), 1)] when the callback is present. *)
Fixpoint remove_first (callback : Callback) (l : list Callback) : list Callback :=
  match l with
  | [] => []
  | c :: l' => if Callback_eqb c callback then l' else c :: remove_first callback l'
  end.

(** The array after the unsubscribe functions of [leaving] have been
    called, in that order. *)
Definition unsubscribed (leaving : list Callback) (l : list Callback)
    : list Callback :=
  fold_left (fun l callback => remove_first callback l) leaving l.

(** The function [onProgress] returns. *)
Definition unsubscribe (callback : Callback) : M unit :=
  callbacks <- perform GetProgressCallbacks ;;
  perform (SetProgressCallbacks (remove_first callback callbacks)).

(** [addToQueue] *)
Definition addToQueue (file : File) (type : MediaType) : M string :=
  perform GetDB ;;
  uuid <- perform Uuidv4 ;;
  now <- perform DateNow ;;
  let upload := mkPendingUpload uuid file type pending 0 0 now None in
  settle (DbAdd upload) ;;
  onLine <- perform NavigatorOnLine ;;
  (if onLine : bool then fork processQueue else ret tt) ;;
  ret (id upload).

(** [retryUpload] *)
Definition retryUpload (uploadId : string) : M unit :=
  perform GetDB ;;
  upload <- perform (DbGet uploadId) ;;
  match upload with
  | None => throw (JsError ("업로드를 찾을 수 없습니다: " +:+ uploadId))
  | Some upload =>
      let upload := with_status pending upload in
      let upload := with_error None upload in
      perform (DbUpdate upload) ;;
      fork processQueue
  end.

(** [cancelUpload] *)
Definition cancelUpload (uploadId : string) : M unit :=
  perform GetDB ;;
  perform (DbDelete uploadId).

(** [getPendingUploads] *)
Definition getPendingUploads : M (list PendingUpload) :=
  perform GetDB ;;
  perform DbGetAll.

(** [getFailedUploads] *)
Definition getFailedUploads : M (list PendingUpload) :=
  perform GetDB ;;
  perform (DbGetByIndex failed).

(** [retryAllFailed] *)
Definition retryAllFailed : M unit :=
  failedUploads <- await getFailedUploads ;;
  for_of failedUploads (fun upload =>
    let upload := with_status pending upload in
    let upload := with_error None upload in
    perform GetDB ;;
    perform (DbUpdate upload) ;;
    ret tt) ;;
  fork processQueue.

(** [clearQueue] *)
Definition clearQueue : M unit :=
  perform GetDB ;;
  perform DbClear.

(** [allUploads.filter((u) => u.status === s).length] *)
Definition count_status (s : UploadStatus) (l : list PendingUpload) : nat :=
  length (List.filter (fun u => UploadStatus_eqb (status u) s) l).

(** [getQueueStatus] *)
Definition getQueueStatus : M QueueStatus.t :=
  perform GetDB ;;
  allUploads <- perform DbGetAll ;;
  ret (QueueStatus.mk (length allUploads)
         (count_status pending allUploads)
         (count_status uploading allUploads)
         (count_status failed allUploads)).

(* ===================================================================== *)
(** * The world the programs run in                                      *)
(* ===================================================================== *)

(** What an observer of the system can see, newest event first. *)
Inductive Event :=
| EvAdd (data : PendingUpload)
| EvPut (data : PendingUpload)
| EvDelete (key : string)
| EvClear
| EvFetch (f : File) (t : MediaType)
| EvSleep (ms : number)
| EvNotify (cb : Callback) (upload : PendingUpload)
| EvConsoleError (site : string)
| EvSettled (r : Result unit).

(** The environment's answers, fixed in advance: the outcome of the n-th
    [fetch], the n-th value of [Math.random()], of [uuidv4()] and of
    [Date.now()]; the engine's [Math.pow]; the message the browser gives
    to each [DOMException]; and, for each progress callback and each
    object it is called with, the callbacks whose unsubscribe function it
    calls. *)
Record Oracle := mkOracle {
  network : nat -> Result Response.t;
  entropy : nat -> number;
  uuids : nat -> string;
  clock : nat -> Z;
  pow : number -> number -> number;
  messages : DOMException -> string;
  unsubscribing : Callback -> PendingUpload -> list Callback
}.

Record World := mkWorld {
  (* the [pendingUploads] object store, keyed by [id] *)
  store : gmap string PendingUpload;
  (* fields of the [QueueManager] instance *)
  isProcessing : bool;
  progressCallbacks : list Callback;
  onlineListener : bool;
  (* [navigator.onLine] *)
  onLine : bool;
  (* the environment and how much of it has been consumed *)
  oracle : Oracle;
  fetched : nat;
  drawn : nat;
  issued : nat;
  ticks : nat;
  (* observations *)
  trace : list Event;
  (* number of [processQueue] activations inside their [try] block *)
  draining : nat
}.

Definition set_store (s : gmap string PendingUpload) (w : World) : World :=
  mkWorld s (isProcessing w) (progressCallbacks w) (onlineListener w)
    (onLine w) (oracle w) (fetched w) (drawn w) (issued w) (ticks w)
    (trace w) (draining w).
Definition set_isProcessing (b : bool) (w : World) : World :=
  mkWorld (store w) b (progressCallbacks w) (onlineListener w)
    (onLine w) (oracle w) (fetched w) (drawn w) (issued w) (ticks w)
    (trace w) (draining w).
Definition set_progressCallbacks (l : list Callback) (w : World) : World :=
  mkWorld (store w) (isProcessing w) l (onlineListener w)
    (onLine w) (oracle w) (fetched w) (drawn w) (issued w) (ticks w)
    (trace w) (draining w).
Definition set_onlineListener (b : bool) (w : World) : World :=
  mkWorld (store w) (isProcessing w) (progressCallbacks w) b
    (onLine w) (oracle w) (fetched w) (drawn w) (issued w) (ticks w)
    (trace w) (draining w).
Definition set_onLine (b : bool) (w : World) : World :=
  mkWorld (store w) (isProcessing w) (progressCallbacks w) (onlineListener w)
    b (oracle w) (fetched w) (drawn w) (issued w) (ticks w)
    (trace w) (draining w).
Definition set_fetched (n : nat) (w : World) : World :=
  mkWorld (store w) (isProcessing w) (progressCallbacks w) (onlineListener w)
    (onLine w) (oracle w) n (drawn w) (issued w) (ticks w)
    (trace w) (draining w).
Definition set_drawn (n : nat) (w : World) : World :=
  mkWorld (store w) (isProcessing w) (progressCallbacks w) (onlineListener w)
    (onLine w) (oracle w) (fetched w) n (issued w) (ticks w)
    (trace w) (draining w).
Definition set_issued (n : nat) (w : World) : World :=
  mkWorld (store w) (isProcessing w) (progressCallbacks w) (onlineListener w)
    (onLine w) (oracle w) (fetched w) (drawn w) n (ticks w)
    (trace w) (draining w).
Definition set_ticks (n : nat) (w : World) : World :=
  mkWorld (store w) (isProcessing w) (progressCallbacks w) (onlineListener w)
    (onLine w) (oracle w) (fetched w) (drawn w) (issued w) n
    (trace w) (draining w).
Definition set_draining (n : nat) (w : World) : World :=
  mkWorld (store w) (isProcessing w) (progressCallbacks w) (onlineListener w)
    (onLine w) (oracle w) (fetched w) (drawn w) (issued w) (ticks w)
    (trace w) n.
Definition log (ev : Event) (w : World) : World :=
  mkWorld (store w) (isProcessing w) (progressCallbacks w) (onlineListener w)
    (onLine w) (oracle w) (fetched w) (drawn w) (issued w) (ticks w)
    (ev :: trace w) (draining w).

(** The order of the records of a store: that of their keys. *)
Definition key_le (a b : string * PendingUpload) : Prop :=
  String.leb a.1 b.1 = true.

#[global] Instance key_le_dec : RelDecision key_le.
Proof. intros a b. unfold key_le. apply _. Defined.

(** [store.getAll()]: the records in ascending order of their keys. *)
Definition records (s : gmap string PendingUpload) : list PendingUpload :=
  (merge_sort key_le (map_to_list s)).*2.

(** [index.getAll(value)] on the 'status' index: the records with that
    status, in ascending order of their keys. *)
Definition by_status (value : UploadStatus) (s : gmap string PendingUpload)
    : list PendingUpload :=
  List.filter (fun u => UploadStatus_eqb (status u) value) (records s).

(** The effect of one primitive on the world, and what it answers.  The
    object store has [keyPath: 'id']: [add] refuses an existing key, [put]
    inserts or replaces, [delete] of an absent key succeeds. *)
Definition handle {X : Type} (e : Eff X) (w : World) : X * World :=
  match e in Eff X return X * World with
  | GetDB => (tt, w)
  | DbAdd data =>
      match store w !! id data with
      | Some _ =>
          (Thrown (JsError ("데이터 추가 실패: "
                            +:+ DOMException_toString ConstraintError
                                  (messages (oracle w) ConstraintError))), w)
      | None => (Ok (id data),
                 log (EvAdd data) (set_store (<[id data := data]> (store w)) w))
      end
  | DbGet key => (store w !! key, w)
  | DbUpdate data =>
      (id data, log (EvPut data) (set_store (<[id data := data]> (store w)) w))
  | DbDelete key =>
      (tt, log (EvDelete key) (set_store (delete key (store w)) w))
  | DbGetAll => (records (store w), w)
  | DbGetByIndex value => (by_status value (store w), w)
  | DbClear => (tt, log EvClear (set_store ∅ w))
  | Fetch f t =>
      (network (oracle w) (fetched w),
       log (EvFetch f t) (set_fetched (S (fetched w)) w))
  | Sleep ms => (tt, log (EvSleep ms) w)
  | Yield => (tt, w)
  | MathRandom => (entropy (oracle w) (drawn w), set_drawn (S (drawn w)) w)
  | MathPow base exponent => (pow (oracle w) base exponent, w)
  | DateNow => (clock (oracle w) (ticks w), set_ticks (S (ticks w)) w)
  | Uuidv4 => (uuids (oracle w) (issued w), set_issued (S (issued w)) w)
  | NavigatorOnLine => (onLine w, w)
  | GetIsProcessing => (isProcessing w, w)
  | SetIsProcessing b => (tt, set_isProcessing b w)
  | GetProgressCallbacks => (progressCallbacks w, w)
  | SetProgressCallbacks l => (tt, set_progressCallbacks l w)
  | GetOnlineListener => (onlineListener w, w)
  | SetOnlineListener b => (tt, set_onlineListener b w)
  | CallCallback cb upload =>
      ((if cb_throws cb then Thrown (JsError "callback") else Ok tt),
       log (EvNotify cb upload)
         (set_progressCallbacks
            (unsubscribed (unsubscribing (oracle w) cb upload)
               (progressCallbacks w)) w))
  | ConsoleError site => (tt, log (EvConsoleError site) w)
  | Ghost EnterDrain => (tt, set_draining (S (draining w)) w)
  | Ghost LeaveDrain => (tt, set_draining (Nat.pred (draining w)) w)
  end.

(** A configuration: the world and the suspended tasks of the event loop. *)
Record Config := mkConfig {
  world : World;
  pool : list (Prog (Result unit))
}.

Definition on_world (f : World -> World) (c : Config) : Config :=
  mkConfig (f (world c)) (pool c).

(** A task that has run as far as it can: its promise settles, or it
    joins the suspended tasks. *)
Definition park (p : Prog (Result unit)) (c : Config) : Config :=
  match p with
  | Ret r => on_world (log (EvSettled r)) c
  | _ => mkConfig (world c) (pool c ++ [p])
  end.

(** Run [p] up to its next [await]: what JavaScript executes without
    interruption.  A forked call runs up to its own first [await]. *)
Fixpoint run_sync {A : Type} (p : Prog A) (c : Config) : Prog A * Config :=
  match p with
  | Ret a => (Ret a, c)
  | Vis e k =>
      if is_await e then (Vis e k, c)
      else let (x, w') := handle e (world c) in
           run_sync (k x) (mkConfig w' (pool c))
  | Fork child k =>
      let (child', c1) := run_sync child c in
      run_sync k (park child' c1)
  end.

(** Run [p] to completion with no other task scheduled in between: every
    awaited promise settles at once. *)
Fixpoint run {A : Type} (p : Prog A) (c : Config) : A * Config :=
  match p with
  | Ret a => (a, c)
  | Vis e k =>
      let (x, w') := handle e (world c) in
      run (k x) (mkConfig w' (pool c))
  | Fork child k =>
      let (child', c1) := run_sync child c in
      run k (park child' c1)
  end.

(** The public methods of [QueueManager]. *)
Inductive ApiCall :=
| CallInit
| CallCleanup
| CallOnProgress (callback : Callback)
| CallUnsubscribe (callback : Callback)
| CallAddToQueue (file : File) (type : MediaType)
| CallProcessQueue
| CallRetryUpload (uploadId : string)
| CallCancelUpload (uploadId : string)
| CallGetPendingUploads
| CallGetFailedUploads
| CallRetryAllFailed
| CallClearQueue
| CallGetQueueStatus.

Definition void {A : Type} (p : M A) : M unit := _ <- p ;; ret tt.

Definition api_body (call : ApiCall) : M unit :=
  match call with
  | CallInit => init
  | CallCleanup => cleanup
  | CallOnProgress cb => onProgress cb
  | CallUnsubscribe cb => unsubscribe cb
  | CallAddToQueue f t => void (addToQueue f t)
  | CallProcessQueue => processQueue
  | CallRetryUpload k => retryUpload k
  | CallCancelUpload k => cancelUpload k
  | CallGetPendingUploads => void getPendingUploads
  | CallGetFailedUploads => void getFailedUploads
  | CallRetryAllFailed => retryAllFailed
  | CallClearQueue => clearQueue
  | CallGetQueueStatus => void getQueueStatus
  end.

(** What can happen next: some code starts running a program, the event
    loop resumes the i-th suspended task, or connectivity changes. *)
Inductive Action :=
| Begin (p : M unit)
| Turn (i : nat)
| Online
| Offline.

Definition Invoke (call : ApiCall) : Action := Begin (api_body call).

Definition begin (p : M unit) (c : Config) : Config :=
  let (p', c') := run_sync p c in park p' c'.

(** The entry that stands for a task while it is running. *)
Definition running : Prog (Result unit) := Ret (Ok tt).

(** Resume task [i].  If it waits for a promise, the promise settles and
    the task becomes ready; if it is ready, it runs to its next [await],
    or to its end, and then leaves the pool. *)
Definition resume (i : nat) (p : Prog (Result unit)) (c : Config) : Config :=
  let (p', c') := run_sync p (mkConfig (world c) (<[i := running]> (pool c))) in
  match p' with
  | Ret r => mkConfig (log (EvSettled r) (world c')) (delete i (pool c'))
  | _ => mkConfig (world c') (<[i := p']> (pool c'))
  end.

Definition turn (i : nat) (c : Config) : option Config :=
  match pool c !! i with
  | None => None
  | Some p =>
      match p with
      | Vis e k =>
          if is_await e then
            let (x, w') := handle e (world c) in
            Some (mkConfig w' (<[i := k x]> (pool c)))
          else Some (resume i p c)
      | _ => Some (resume i p c)
      end
  end.

Definition step (a : Action) (c : Config) : option Config :=
  match a with
  | Begin p => Some (begin p c)
  | Turn i => turn i c
  | Online =>
      let c' := on_world (set_onLine true) c in
      if onlineListener (world c) then Some (begin onlineListener_body c')
      else Some c'
  | Offline => Some (on_world (set_onLine false) c)
  end.

Fixpoint exec (acts : list Action) (c : Config) : option Config :=
  match acts with
  | [] => Some c
  | a :: acts' =>
      match step a c with
      | Some c' => exec acts' c'
      | None => None
      end
  end.

(* ===================================================================== *)
(** * Vocabulary of the statements                                       *)
(* ===================================================================== *)

Definition set_trace (tr : list Event) (w : World) : World :=
  mkWorld (store w) (isProcessing w) (progressCallbacks w) (onlineListener w)
    (onLine w) (oracle w) (fetched w) (drawn w) (issued w) (ticks w)
    tr (draining w).

(** The trace after every callback of [cbs] has been called with
    [upload], in that order. *)
Fixpoint notify_trace (upload : PendingUpload) (cbs : list Callback)
    (tr : list Event) : list Event :=
  match cbs with
  | [] => tr
  | cb :: cbs' =>
      notify_trace upload cbs'
        (if cb_throws cb
         then EvConsoleError "notifyProgress" :: EvNotify cb upload :: tr
         else EvNotify cb upload :: tr)
  end.

(** The world after one step of the loop of [notifyProgress]: the call
    [callback(upload)], during which the callback may unsubscribe
    callbacks, and the [catch] block when it throws. *)
Definition called (callback : Callback) (upload : PendingUpload) (w : World)
    : World :=
  let w1 := log (EvNotify callback upload)
              (set_progressCallbacks
                 (unsubscribed (unsubscribing (oracle w) callback upload)
                    (progressCallbacks w)) w) in
  if cb_throws callback then log (EvConsoleError "notifyProgress") w1 else w1.

(** The world after the loop of [notifyProgress] has run from position
    [index], for at most [fuel] steps. *)
Fixpoint notified_from (fuel index : nat) (upload : PendingUpload) (w : World)
    : World :=
  match fuel with
  | O => w
  | S fuel' =>
      match progressCallbacks w !! index with
      | None => w
      | Some callback => notified_from fuel' (S index) upload (called callback upload w)
      end
  end.

(** The callbacks the loop of [notifyProgress] calls from position
    [index], in the order of the calls. *)
Fixpoint callees (fuel index : nat) (upload : PendingUpload) (w : World)
    : list Callback :=
  match fuel with
  | O => []
  | S fuel' =>
      match progressCallbacks w !! index with
      | None => []
      | Some callback =>
          callback :: callees fuel' (S index) upload (called callback upload w)
      end
  end.

(** What a call of a callback leaves alone: everything but the trace
    and the array of callbacks. *)
Definition same_but_subscribers (w w' : World) : Prop :=
  store w' = store w /\ isProcessing w' = isProcessing w /\
  onlineListener w' = onlineListener w /\ onLine w' = onLine w /\
  oracle w' = oracle w /\ fetched w' = fetched w /\ drawn w' = drawn w /\
  issued w' = issued w /\ ticks w' = ticks w /\ draining w' = draining w.

(** No registered callback unsubscribes anything when it is called with
    [upload]. *)
Definition passive (upload : PendingUpload) (w : World) : Prop :=
  forall callback, List.In callback (progressCallbacks w) ->
    unsubscribing (oracle w) callback upload = [].

(** The world after [db.update(data)]. *)
Definition put (data : PendingUpload) (w : World) : World :=
  log (EvPut data) (set_store (<[id data := data]> (store w)) w).

(** The world after [db.delete(key)]. *)
Definition del (key : string) (w : World) : World :=
  log (EvDelete key) (set_store (delete key (store w)) w).

(** The world after [notifyProgress(upload)]. *)
Definition notified (upload : PendingUpload) (w : World) : World :=
  notified_from (length (progressCallbacks w)) 0 upload w.

(** The notifications of a trace, oldest first. *)
Fixpoint notifications (tr : list Event) : list (Callback * PendingUpload) :=
  match tr with
  | [] => []
  | EvNotify cb u :: tr' => notifications tr' ++ [(cb, u)]
  | _ :: tr' => notifications tr'
  end.

(** The delays slept through in a trace, oldest first. *)
Fixpoint sleeps (tr : list Event) : list number :=
  match tr with
  | [] => []
  | EvSleep ms :: tr' => sleeps tr' ++ [ms]
  | _ :: tr' => sleeps tr'
  end.

(** The object as [processUpload] persists it after a failed attempt. *)
Definition as_failed (upload : PendingUpload) (err : JsValue) : PendingUpload :=
  with_error (Some (messageOr "알 수 없는 오류" err))
    (with_retryCount (retryCount upload + 1) (with_status failed upload)).

(** The object as [processUpload] reports it after a successful attempt. *)
Definition as_done (upload : PendingUpload) : PendingUpload :=
  with_progress 100 (with_status pending upload).

(** The error a failed attempt ends with, if the outcome [r] of
    [transfer] is a failure: a rejection, or a response that is not [ok]. *)
Definition attempt_error (r : Result Response.t) : option JsValue :=
  match r with
  | Thrown e => Some e
  | Ok response =>
      if Response.ok response then None
      else Some (JsError ("업로드 실패: " +:+ pretty (Response.status response)))
  end.

(** The records written with [put], oldest first. *)
Fixpoint puts (tr : list Event) : list PendingUpload :=
  match tr with
  | [] => []
  | EvPut u :: tr' => puts tr' ++ [u]
  | _ :: tr' => puts tr'
  end.

(** What [processUpload] runs once its attempt has settled with [r]. *)
Definition post_attempt (upload : PendingUpload) (r : Result Response.t) : M unit :=
  try_catch
    (match r with
     | Ok response => processUpload_response upload response
     | Thrown e => throw e
     end)
    (processUpload_catch upload).

(** The configuration after [processUpload] has run, without
    interruption, on each record of [l] in turn. *)
Definition drain_all (l : list PendingUpload) (c : Config) : Config :=
  fold_left (fun c upload => snd (run (processUpload upload) c)) l c.

(** Every record is stored under its own [id] ([keyPath: 'id']). *)
Definition keyed (s : gmap string PendingUpload) : Prop :=
  forall k u, s !! k = Some u -> id u = k.

(** The code between two invocations in [retryWithBackoff]. *)
Definition backoff_pause (cfg : RetryConfig) (attempt : Z) : M unit :=
  delay <- calculateBackoffDelay attempt (initialDelay cfg) (maxDelay cfg)
             (backoffFactor cfg) ;;
  sleep delay.

(** The configuration in which invocation number [j] (from 0) of
    [operation] starts, when the invocations before it have failed. *)
Fixpoint before_invocation {T : Type} (operation : M T) (cfg : RetryConfig)
    (j : nat) (c : Config) : Config :=
  match j with
  | O => c
  | S j' =>
      let c1 := snd (run (await operation) (before_invocation operation cfg j' c)) in
      snd (run (backoff_pause cfg (Z.of_nat j)) c1)
  end.

(** The outcome of invocation number [j], and the configuration it leaves. *)
Definition invocation {T : Type} (operation : M T) (cfg : RetryConfig)
    (j : nat) (c : Config) : Result T * Config :=
  run (await operation) (before_invocation operation cfg j c).

(* ===================================================================== *)
(** * Ownership of the [isProcessing] flag                               *)
(* ===================================================================== *)

(** Where a task stands with respect to the flag: it knows nothing; it
    has just read [false]; it has set the flag; it is inside the [try]
    block of [processQueue]; it has reached [finally]. *)
Inductive Phase := Idle | Seen | Locked | Holding | Leaving.

Definition stable (s : Phase) : Prop := s = Idle \/ s = Holding.

(** Effects that leave the flag and the drain counter alone. *)
Definition quiet {X : Type} (e : Eff X) : bool :=
  match e with
  | SetIsProcessing _ | Ghost _ => false
  | _ => true
  end.

(** [Typed s p s']: started in phase [s], the program [p] uses the flag
    as a lock and ends in phase [s']. *)
Inductive Typed {A : Type} : Phase -> Prog A -> Phase -> Prop :=
| Typed_ret s (a : A) :
    Typed s (Ret a) s
| Typed_forget (p : Prog A) s' :
    Typed Idle p s' -> Typed Seen p s'
| Typed_await {X : Type} (e : Eff X) (k : X -> Prog A) s s' :
    is_await e = true -> stable s ->
    (forall x, Typed s (k x) s') ->
    Typed s (Vis e k) s'
| Typed_read (k : bool -> Prog A) s' :
    Typed Idle (k true) s' -> Typed Seen (k false) s' ->
    Typed Idle (Vis GetIsProcessing k) s'
| Typed_quiet {X : Type} (e : Eff X) (k : X -> Prog A) s s' :
    is_await e = false -> quiet e = true ->
    (forall x, Typed s (k x) s') ->
    Typed s (Vis e k) s'
| Typed_lock (k : unit -> Prog A) s' :
    Typed Locked (k tt) s' ->
    Typed Seen (Vis (SetIsProcessing true) k) s'
| Typed_enter (k : unit -> Prog A) s' :
    Typed Holding (k tt) s' ->
    Typed Locked (Vis (Ghost EnterDrain) k) s'
| Typed_leave (k : unit -> Prog A) s' :
    Typed Leaving (k tt) s' ->
    Typed Holding (Vis (Ghost LeaveDrain) k) s'
| Typed_unlock (k : unit -> Prog A) s' :
    Typed Idle (k tt) s' ->
    Typed Leaving (Vis (SetIsProcessing false) k) s'
| Typed_fork (child : Prog (Result unit)) (k : Prog A) s' :
    @Typed (Result unit) Idle child Idle -> Typed Idle k s' ->
    Typed Idle (Fork child k) s'.

(** What a phase contributes to the number of drain passes under way. *)
Definition own (s : Phase) : nat :=
  match s with Holding => 1 | _ => 0 end.

Fixpoint holders (phases : list Phase) : nat :=
  match phases with
  | [] => 0
  | s :: phases' => own s + holders phases'
  end.

(** The invariant of the event loop while a task in phase [s] runs: every
    suspended task is typed, and the flag and the drain counter say how
    many of them hold the lock. *)
Definition Inv (s : Phase) (c : Config) : Prop :=
  exists phases : list Phase,
    Forall2 (fun s p => stable s /\ Typed s p Idle) phases (pool c) /\
    match s with
    | Idle =>
        holders phases = Nat.b2n (isProcessing (world c)) /\
        draining (world c) = holders phases
    | Seen =>
        isProcessing (world c) = false /\ holders phases = 0%nat /\
        draining (world c) = 0%nat
    | Locked | Leaving =>
        isProcessing (world c) = true /\ holders phases = 0%nat /\
        draining (world c) = 0%nat
    | Holding =>
        isProcessing (world c) = true /\ holders phases = 0%nat /\
        draining (world c) = 1%nat
    end.

(** A program at a point where the event loop may run another task. *)
Definition awaiting {A : Type} (p : Prog A) : Prop :=
  match p with
  | Vis e _ => is_await e = true
  | _ => False
  end.

(** A program that has run to its end. *)
Definition returned {A : Type} (p : Prog A) : Prop :=
  match p with
  | Ret _ => True
  | _ => False
  end.

(** A freshly constructed queue manager: nothing suspended, flag down. *)
Definition initial (c : Config) : Prop :=
  pool c = [] /\ isProcessing (world c) = false /\ draining (world c) = 0%nat.

(** Actions open to the callers of the queue manager and to the browser. *)
Definition public (a : Action) : Prop :=
  match a with
  | Begin p => exists call, p = api_body call
  | _ => True
  end.

(** What a run of [transfer] cannot change. *)
Definition same_queue (c c' : Config) : Prop :=
  store (world c') = store (world c) /\
  isProcessing (world c') = isProcessing (world c) /\
  progressCallbacks (world c') = progressCallbacks (world c) /\
  draining (world c') = draining (world c) /\
  notifications (trace (world c')) = notifications (trace (world c)) /\
  puts (trace (world c')) = puts (trace (world c)) /\
  pool c' = pool c.

(** The world after one [fetch] of [upload]. *)
Definition fetched_once (upload : PendingUpload) (w : World) : World :=
  log (EvFetch (file upload) (type upload)) (set_fetched (S (fetched w)) w).

(** The world after the pause before attempt number [attempt + 1]. *)
Definition paused (cfg : RetryConfig) (attempt : Z) (w : World) : World :=
  log (EvSleep (backoff_delay
                  (pow (oracle w) (backoffFactor cfg) (number_of_Z (attempt - 1)))
                  (entropy (oracle w) (drawn w))
                  (initialDelay cfg) (maxDelay cfg)))
      (set_drawn (S (drawn w)) w).

(** The delay slept through before retry number [i + 1] of [transfer]. *)
Definition upload_delay (w : World) (i : nat) : number :=
  backoff_delay (pow (oracle w) (number_of_Z 2) (number_of_Z (Z.of_nat i)))
    (entropy (oracle w) (drawn w + i)%nat)
    (number_of_Z 1000) (number_of_Z 10000).

(** The world once the [catch] block of [processUpload] has run. *)
Definition after_failure (upload : PendingUpload) (err : JsValue) (w : World)
    : World :=
  let w1 := log (EvConsoleError "processUpload")
              (notified (as_failed upload err) (put (as_failed upload err) w)) in
  if retryCount (as_failed upload err) >=? 5 then del (id upload) w1 else w1.

(** The world once the success branch of [processUpload] has run. *)
Definition after_success (upload : PendingUpload) (w : World) : World :=
  notified (as_done upload) (del (id upload) w).

(** The world once [processUpload] has marked the record 'uploading'. *)
Definition marked (upload : PendingUpload) (w : World) : World :=
  notified (with_status uploading upload) (put (with_status uploading upload) w).

(* ===================================================================== *)
(** * Concrete worlds                                                    *)
(* ===================================================================== *)

Module Example.
Definition photo : File := mkFile "photo.png" [].
Definition observer : Callback := mkCallback 1 false.

(** A record with id "a" in the given status and retry count. *)
Definition record (s : UploadStatus) (n : Z) : PendingUpload :=
  mkPendingUpload "a" photo image s 0 n 0 None.

(** Networks: unreachable; answering 500; answering 200. *)
Definition unreachable : nat -> Result Response.t :=
  fun _ => Thrown (JsError "Failed to fetch").
Definition http_500 : nat -> Result Response.t :=
  fun _ => Ok (Response.mk false 500).
Definition http_200 : nat -> Result Response.t :=
  fun _ => Ok (Response.mk true 200).

(** The integer a number is, when it is one. *)
Definition integral (x : number) : option Z :=
  match x with
  | S754_zero _ => Some 0
  | S754_finite s m e =>
      if 0 <=? e then Some (cond_Zopp s (Z.pos m * 2 ^ e))
      else if Z.pos m mod 2 ^ (- e) =? 0
           then Some (cond_Zopp s (Z.pos m / 2 ^ (- e)))
           else None
  | _ => None
  end.

(** A [Math.pow] for the examples: on a finite base and a natural
    exponent, the power rounded to nearest.  The examples ask for nothing
    else, where it answers NaN. *)
Definition power (base exponent : number) : number :=
  match integral exponent with
  | Some n =>
      if n <? 0 then S754_nan
      else
        match base with
        | S754_finite s m e =>
            binary_normalize 53 1024 (cond_Zopp s (Z.pos m) ^ n) (e * n) false
        | S754_zero _ => if n =? 0 then number_of_Z 1 else S754_zero false
        | _ => S754_nan
        end
  | None => S754_nan
  end.

(** The messages of a browser. *)
Definition browser_messages (e : DOMException) : string :=
  match e with
  | ConstraintError => "Key already exists in the object store."
  | DataError => "The data provided does not meet requirements."
  | NotFoundError => "One of the specified object stores was not found."
  end.

(** The number 1/2. *)
Definition half : number := S754_finite false 4503599627370496 (-53).

(** Callbacks that unsubscribe nothing, and a random source that always
    draws 0. *)
Definition oracle_of (net : nat -> Result Response.t) : Oracle :=
  mkOracle net (fun _ => S754_zero false) (fun _ => "u") (fun _ => 0)
    power browser_messages (fun _ _ => []).

(** The same with a random source that always draws 1/2. *)
Definition oracle_half (net : nat -> Result Response.t) : Oracle :=
  mkOracle net (fun _ => half) (fun _ => "u") (fun _ => 0)
    power browser_messages (fun _ _ => []).

(** A subscriber that unsubscribes itself the first time it hears of a
    completed upload, and the environment in which it does. *)
Definition once : Callback := mkCallback 2 false.
Definition oracle_once (net : nat -> Result Response.t) : Oracle :=
  mkOracle net (fun _ => S754_zero false) (fun _ => "u") (fun _ => 0)
    power browser_messages
    (fun callback upload =>
       if Callback_eqb callback once && (progress upload =? 100)
       then [once] else []).

(** Online, one subscriber, nothing running, an empty store, and the
    random source that draws 1/2. *)
Definition config_half : Config :=
  mkConfig (mkWorld ∅ false [observer] false true
              (oracle_half unreachable) 0 0 0 0 [] 0) [].

(** Online, nothing running, one stored record, and the subscribers
    [once] and [observer], registered in that order. *)
Definition config_once (net : nat -> Result Response.t) (u : PendingUpload)
    : Config :=
  mkConfig (mkWorld (<[id u := u]> ∅) false [once; observer] false true
              (oracle_once net) 0 0 0 0 [] 0) [].

(** Online, one subscriber, nothing running, and a store holding one
    record under "a" and one under "b". *)
Definition config_ab (net : nat -> Result Response.t) (a b : PendingUpload)
    : Config :=
  mkConfig (mkWorld (<["a" := a]> (<["b" := b]> ∅)) false [observer] false true
              (oracle_of net) 0 0 0 0 [] 0) [].

(** The same with one stored record. *)
Definition config_of (net : nat -> Result Response.t) (u : PendingUpload)
    : Config :=
  mkConfig (mkWorld (<[id u := u]> ∅) false [observer] false true
              (oracle_of net) 0 0 0 0 [] 0) [].

(** A drain pass is started and resumed [n] times. *)
Definition drain_for (n : nat) : list Action :=
  Invoke CallProcessQueue :: repeat (Turn 0%nat) n.

(** A drain pass runs until it waits for [fetch]; the record is
    cancelled, and the cancellation runs to its end; the drain pass is
    then resumed [n] times. *)
Definition cancel_in_flight (n : nat) : list Action :=
  drain_for 5
  ++ [Invoke (CallCancelUpload "a"); Turn 1%nat; Turn 1%nat; Turn 1%nat]
  ++ repeat (Turn 0%nat) n.

(** A drain pass is started and suspended; [processQueue] is then
    called again: directly, at the end of [retryUpload], at the end of
    [addToQueue], and by the 'online' event. *)
Definition overlapping : list Action :=
  [Invoke CallInit; Invoke CallProcessQueue; Turn 0%nat;
   Invoke CallProcessQueue;
   Invoke (CallRetryUpload "a"); Turn 1%nat; Turn 1%nat; Turn 1%nat; Turn 1%nat;
   Invoke (CallAddToQueue photo image); Turn 1%nat; Turn 1%nat; Turn 1%nat;
   Turn 1%nat;
   Online].

(** Where the actions lead, or the starting point if they cannot be taken. *)
Definition after (acts : list Action) (c : Config) : Config :=
  default c (exec acts c).

(** The record stored under "a", if the actions can be taken. *)
Definition stored_after (acts : list Action) (c : Config) : option PendingUpload :=
  c' ← exec acts c; store (world c') !! "a".

(** The notifications delivered while taking the actions. *)
Definition notified_after (acts : list Action) (c : Config)
    : option (list (Callback * PendingUpload)) :=
  c' ← exec acts c; Some (notifications (trace (world c'))).

(** The events of the trace, oldest first. *)
Definition events_after (acts : list Action) (c : Config) : option (list Event) :=
  c' ← exec acts c; Some (rev (trace (world c'))).
End Example.


(* ===================================================================== *)
(** * Further vocabulary: the other methods of [QueueManager]            *)
(* ===================================================================== *)

(** The world after [db.add(data)] on a key that is free. *)
Definition added (data : PendingUpload) (w : World) : World :=
  log (EvAdd data) (set_store (<[id data := data]> (store w)) w).

(** The record [addToQueue] builds in world [w]: the next [uuidv4()] and
    the next [Date.now()]. *)
Definition new_upload (file : File) (type : MediaType) (w : World) : PendingUpload :=
  mkPendingUpload (uuids (oracle w) (issued w)) file type pending 0 0
    (clock (oracle w) (ticks w)) None.

(** The record as [retryUpload] and [retryAllFailed] write it back. *)
Definition as_pending (upload : PendingUpload) : PendingUpload :=
  with_error None (with_status pending upload).



(** How many times [callback] is registered in [l]. *)
Definition registrations (callback : Callback) (l : list Callback) : nat :=
  length (List.filter (fun c => Callback_eqb c callback) l).

(** The callbacks of [l] other than [callback], in order. *)
Definition others (callback : Callback) (l : list Callback) : list Callback :=
  List.filter (fun c => negb (Callback_eqb c callback)) l.

(** The record as [retryAllFailed] leaves it: a failed record is queued
    again, any other record is not touched. *)
Definition revived (u : PendingUpload) : PendingUpload :=
  match status u with
  | failed => as_pending u
  | _ => u
  end.

(** The store after [db.update] of each record of [l], changed by [f]. *)
Definition update_all (f : PendingUpload -> PendingUpload) (l : list PendingUpload)
    (s : gmap string PendingUpload) : gmap string PendingUpload :=
  fold_left (fun s u => <[id (f u) := f u]> s) l s.

(** What one iteration of the drain loop leaves under the key of its
    record, given the outcome [r] of its attempt: nothing when the upload
    succeeded; after a failure the record as 'failed' with one more
    retry, or nothing when that failure was the fifth. *)
Definition drained (upload : PendingUpload) (r : Result Response.t)
    : option PendingUpload :=
  match attempt_error r with
  | None => None
  | Some err =>
      if retryCount upload + 1 >=? 5 then None
      else Some (as_failed (with_status uploading upload) err)
  end.

(** The outcome of the attempt of [upload] in a drain pass started in
    [c], when the pass has gone through the records [before]. *)
Definition attempt_in (before : list PendingUpload) (upload : PendingUpload)
    (c : Config) : Result Response.t :=
  fst (run (transfer (with_status uploading upload))
         (on_world (marked upload) (drain_all before c))).

(** The configuration in which [processQueue] enters its loop. *)
Definition entered (c : Config) : Config :=
  on_world (fun w => set_draining (S (draining w)) (set_isProcessing true w)) c.

(** Ascending order of ids. *)
Definition id_le (a b : PendingUpload) : Prop := String.leb (id a) (id b) = true.

(* ===================================================================== *)
(** * [retry.ts]: the other retry loops                                  *)
(* ===================================================================== *)

(** [interface RetryResult<T>]; an absent field is [None]. *)
Module RetryResult.
Record t (T : Type) := mk {
  success : bool;
  data : option T;
  error : option JsValue;
  attempts : Z
}.
Arguments mk {T} success data error attempts.
Arguments success {T} _.
Arguments data {T} _.
Arguments error {T} _.
Arguments attempts {T} _.
End RetryResult.

(** The loop of [retryWithResult]: the loop of [retryWithBackoff], with a
    result object where that one returns or throws. *)
Fixpoint result_while {T : Type} (fuel : nat) (operation : M T) (cfg : RetryConfig)
    (lastError : option JsValue) (attempt : Z) : M (RetryResult.t T) :=
  if attempt <=? maxRetries cfg then
    match fuel with
    | O => throw OUT_OF_FUEL
    | S fuel' =>
        try_catch
          (result <- await operation ;;
           ret (RetryResult.mk true (Some result) None (attempt + 1)))
          (fun error =>
             let lastError := Some (toError error) in
             let attempt := attempt + 1 in
             if attempt >? maxRetries cfg
             then ret (RetryResult.mk false None lastError attempt)
             else
               delay <- calculateBackoffDelay attempt (initialDelay cfg)
                          (maxDelay cfg) (backoffFactor cfg) ;;
               sleep delay ;;
               result_while fuel' operation cfg lastError attempt)
    end
  else ret (RetryResult.mk false None lastError attempt).

(** [retryWithResult] *)
Definition retryWithResult {T : Type} (operation : M T) (config : PartialRetryConfig)
    : M (RetryResult.t T) :=
  let cfg := finalConfig config in
  result_while (Z.to_nat (maxRetries cfg + 1)) operation cfg None 0.

(** [throw lastError || new Error('Operation failed after conditional retries')] *)
Definition throw_lastError_conditional {T : Type} (lastError : option JsValue) : M T :=
  throw (default (JsError "Operation failed after conditional retries") lastError).

(** The loop of [retryWithCondition].  [shouldRetry] is called in the
    [catch] block, before the retry budget is looked at; what it throws
    leaves the function. *)
Fixpoint condition_while {T : Type} (fuel : nat) (operation : M T)
    (shouldRetry : JsValue -> Z -> M bool) (cfg : RetryConfig)
    (lastError : option JsValue) (attempt : Z) : M T :=
  if attempt <=? maxRetries cfg then
    match fuel with
    | O => throw OUT_OF_FUEL
    | S fuel' =>
        try_catch (await operation) (fun error =>
          let lastError := Some (toError error) in
          let attempt := attempt + 1 in
          again <- shouldRetry (toError error) attempt ;;
          if negb again || (attempt >? maxRetries cfg)
          then throw_lastError_conditional lastError
          else
            delay <- calculateBackoffDelay attempt (initialDelay cfg)
                       (maxDelay cfg) (backoffFactor cfg) ;;
            sleep delay ;;
            condition_while fuel' operation shouldRetry cfg lastError attempt)
    end
  else throw_lastError_conditional lastError.

(** [retryWithCondition] *)
Definition retryWithCondition {T : Type} (operation : M T)
    (shouldRetry : JsValue -> Z -> M bool) (config : PartialRetryConfig) : M T :=
  let cfg := finalConfig config in
  condition_while (Z.to_nat (maxRetries cfg + 1)) operation shouldRetry cfg None 0.

(** [s.includes(searchString)] *)
Fixpoint includes (s searchString : string) : bool :=
  String.prefix searchString s ||
  match s with
  | EmptyString => false
  | String _ s' => includes s' searchString
  end.

(** [error.message] of an [Error] object. *)
Definition message (error : JsValue) : string :=
  match error with
  | JsError m => m
  | JsOther repr => repr
  end.

(** [config = {}], the default of the optional argument. *)
Definition EMPTY_CONFIG : PartialRetryConfig :=
  mkPartialRetryConfig None None None None.

Section NetworkRequests.
(** [error.name]: the model of thrown values keeps the message of an
    [Error] object only, so the name it has is given from outside. *)
Variable name : JsValue -> string.

(** The [shouldRetry] of [retryNetworkRequest]. *)
Definition is_network_error (error : JsValue) (attempt : Z) : bool :=
  includes (message error) "network" ||
  includes (message error) "fetch" ||
  includes (message error) "timeout" ||
  String.eqb (name error) "NetworkError" ||
  String.eqb (name error) "TimeoutError".

(** [retryNetworkRequest] *)
Definition retryNetworkRequest {T : Type} (operation : M T)
    (config : PartialRetryConfig) : M T :=
  retryWithCondition operation
    (fun error attempt => ret (is_network_error error attempt)) config.

(** [fetch(url, options)], the request that is wrapped. *)
Variable fetch : M Response.t.

(** The operation [fetchWithRetry] hands to [retryNetworkRequest]. *)
Definition fetch_checked : M Response.t :=
  response <- await fetch ;;
  if Response.status response >=? 500
  then throw (JsError ("Server error: " +:+ pretty (Response.status response)))
  else ret response.

(** [fetchWithRetry] *)
Definition fetchWithRetry (retryConfig : option PartialRetryConfig) : M Response.t :=
  retryNetworkRequest fetch_checked (default EMPTY_CONFIG retryConfig).
End NetworkRequests.

(** What a retry loop makes of the outcome of its last invocation. *)
Definition final_of {T : Type} (r : Result T) : Result T :=
  match r with
  | Ok v => Ok v
  | Thrown e => Thrown (toError e)
  end.

(** The result object [retryWithResult] makes of the outcome of invocation
    number [k] (from 0), its last. *)
Definition result_of {T : Type} (k : nat) (r : Result T) : RetryResult.t T :=
  match r with
  | Ok v => RetryResult.mk true (Some v) None (Z.of_nat k + 1)
  | Thrown e => RetryResult.mk false None (Some (toError e)) (Z.of_nat k + 1)
  end.

(** Invocation number [k] is one after which the loop of
    [retryWithCondition] stops, when [shouldRetry] is the predicate
    [accepts] and [maxRetries] is [n]: it succeeds, it fails with an error
    that [shouldRetry] refuses, or it is number [n]. *)
Definition stops_at {T : Type} (operation : M T) (cfg : RetryConfig) (c : Config)
    (accepts : JsValue -> Z -> bool) (n k : nat) : Prop :=
  match fst (invocation operation cfg k c) with
  | Ok _ => True
  | Thrown e => accepts (toError e) (Z.of_nat k + 1) = false \/ k = n
  end.

(** Invocation number [j] fails with an error that [shouldRetry] accepts. *)
Definition goes_on {T : Type} (operation : M T) (cfg : RetryConfig) (c : Config)
    (accepts : JsValue -> Z -> bool) (j : nat) : Prop :=
  exists e, fst (invocation operation cfg j c) = Thrown e /\
            accepts (toError e) (Z.of_nat j + 1) = true.

(** The character [a] occurs in [s]. *)
Fixpoint occurs (a : Ascii.ascii) (s : string) : bool :=
  match s with
  | EmptyString => false
  | String b s' => Ascii.eqb a b || occurs a s'
  end.

(** [s] is made of decimal digits and minus signs. *)
Fixpoint numeric (s : string) : bool :=
  match s with
  | EmptyString => true
  | String b s' => occurs b "0123456789-" && numeric s'
  end.

(* ===================================================================== *)
(** * [indexedDB.ts]: the wrapper itself                                 *)
(* ===================================================================== *)

(** The queue manager above sees the database through the effects
    [DbAdd], [DbGet], ...; this part embeds the class those effects stand
    for.  Every method of the class issues one request; a method is
    embedded as the function from the state before the call to the way its
    promise settles and the state after it.

    Conventions.
    - A [DOMException] that is thrown or rejected with as it is, is kept
      as the [Error] value named after it.  Where the code builds a
      string from it, the string is [String(e)]: the name and the message
      of the exception, the message being the browser's.
    - [getAll] lists the records in ascending order of their keys:
      numbers before strings, numbers by value, strings code unit by
      code unit.
    - The request [indexedDB.open] succeeds or fails according to the
      state of the browser.  Requests on an open database fail for the
      reasons IndexedDB gives for them ([ConstraintError], [DataError],
      [NotFoundError]); quota, aborted transactions and version changes
      from other tabs are not modelled, and neither is [deleteDB]. *)

(** What IndexedDB accepts as a key, as far as this database uses it. *)
Inductive IDBKey := KeyString (s : string) | KeyNumber (n : Z).

#[global] Instance IDBKey_eq_dec : EqDecision IDBKey.
Proof. solve_decision. Defined.

#[global] Instance IDBKey_countable : Countable IDBKey :=
  inj_countable'
    (fun k => match k with KeyString s => inl s | KeyNumber n => inr n end)
    (fun x => match x with inl s => KeyString s | inr n => KeyNumber n end)
    (fun k => match k with KeyString _ | KeyNumber _ => eq_refl end).

#[global] Instance KeyString_inj : Inj (=) (=) KeyString.
Proof. intros a b H. now injection H. Qed.

(** The order of keys. *)
Definition IDBKey_leb (a b : IDBKey) : bool :=
  match a, b with
  | KeyNumber x, KeyNumber y => x <=? y
  | KeyNumber _, KeyString _ => true
  | KeyString _, KeyNumber _ => false
  | KeyString x, KeyString y => String.leb x y
  end.

Definition entry_le {V : Type} (a b : IDBKey * V) : Prop :=
  IDBKey_leb a.1 b.1 = true.

#[global] Instance entry_le_dec {V : Type} : RelDecision (@entry_le V).
Proof. intros a b. unfold entry_le. apply _. Defined.

(** The values of a map of records, in ascending order of their keys. *)
Definition listing {V : Type} (r : gmap IDBKey V) : list V :=
  (merge_sort entry_le (map_to_list r)).*2.

(** The exception as a thrown value. *)
Definition thrown_dom (e : DOMException) : JsValue :=
  JsError (DOMException_name e).

(** An object store: its key path, its indexes (name and key path) and
    its records. *)
Record ObjectStore (V : Type) := mkObjectStore {
  keyPath : string;
  indexNames : list (string * string);
  objects : gmap IDBKey V
}.
Arguments mkObjectStore {V} keyPath indexNames objects.
Arguments keyPath {V} _.
Arguments indexNames {V} _.
Arguments objects {V} _.

(** The state the module works on.  Of the browser: whether it has
    IndexedDB; whether the request [indexedDB.open] fails, and then
    [String(request.error)]; the message it gives to each
    [DOMException].  Of the module: the database 'ProposalMemoryDB', once
    it has been created; the [db] field of every [IndexedDBWrapper]
    constructed so far ([true]: a connection, [false]: [null]); the
    module variable [defaultInstance]. *)
Record Env (V : Type) := mkEnv {
  supported : bool;
  openError : option string;
  exceptionMessage : DOMException -> string;
  database : option (gmap string (ObjectStore V));
  wrappers : list bool;
  defaultInstance : option nat
}.
Arguments mkEnv {V} supported openError exceptionMessage database wrappers
  defaultInstance.
Arguments supported {V} _.
Arguments openError {V} _.
Arguments exceptionMessage {V} _.
Arguments database {V} _.
Arguments wrappers {V} _.
Arguments defaultInstance {V} _.

Definition set_database {V : Type} (d : option (gmap string (ObjectStore V)))
    (env : Env V) : Env V :=
  mkEnv (supported env) (openError env) (exceptionMessage env) d (wrappers env)
    (defaultInstance env).

(** [this.db = ...] *)
Definition set_db {V : Type} (this : nat) (db : bool) (env : Env V) : Env V :=
  mkEnv (supported env) (openError env) (exceptionMessage env) (database env)
    (<[this := db]> (wrappers env)) (defaultInstance env).

(** The records of the store [storeName] become [r]. *)
Definition set_objects {V : Type} (storeName : string) (r : gmap IDBKey V)
    (env : Env V) : Env V :=
  set_database
    (alter (fun s => mkObjectStore (keyPath s) (indexNames s) r) storeName
       <$> database env) env.

(** [const STORES] and the stores [onupgradeneeded] creates: name, key
    path, indexes. *)
Module STORES.
Definition CACHED_MEDIA : string := "cachedMedia".
Definition PENDING_UPLOADS : string := "pendingUploads".
Definition DRAFTS : string := "drafts".
Definition SETTINGS : string := "settings".
End STORES.

Definition SCHEMA : list (string * (string * list (string * string))) :=
  [ (STORES.CACHED_MEDIA,
     ("id", [("type", "type"); ("uploadedAt", "uploadedAt"); ("cachedAt", "cachedAt")]));
    (STORES.PENDING_UPLOADS,
     ("id", [("status", "status"); ("createdAt", "createdAt")]));
    (STORES.DRAFTS,
     ("id", [("updatedAt", "updatedAt"); ("createdAt", "createdAt")]));
    (STORES.SETTINGS, ("key", [])) ].

(** [request.onupgradeneeded]: each store is created unless it exists. *)
Definition onupgradeneeded {V : Type} (d : gmap string (ObjectStore V))
    : gmap string (ObjectStore V) :=
  fold_left
    (fun d '(storeName, (keyPath, indexes)) =>
       match d !! storeName with
       | Some _ => d
       | None => <[storeName := mkObjectStore keyPath indexes ∅]> d
       end)
    SCHEMA d.

(** [initDB]: the database is opened at version 1, and upgraded when it
    did not exist; when the request fails, [request.onerror] rejects. *)
Definition initDB {V : Type} (env : Env V) : Result unit * Env V :=
  if supported env then
    match openError env with
    | Some error => (Thrown (JsError ("IndexedDB 초기화 실패: " +:+ error)), env)
    | None =>
        (Ok tt,
         set_database (Some (match database env with
                             | Some d => d
                             | None => onupgradeneeded ∅
                             end)) env)
    end
  else (Thrown (JsError "IndexedDB를 지원하지 않는 브라우저입니다."), env).

(** [class IndexedDBWrapper]; [this] is the object the method is called
    on. *)
Module IndexedDBWrapper.

(** [new IndexedDBWrapper()] *)
Definition new {V : Type} (env : Env V) : nat * Env V :=
  (length (wrappers env),
   mkEnv (supported env) (openError env) (exceptionMessage env) (database env)
     (wrappers env ++ [false]) (defaultInstance env)).

(** [this.db], as a truth value. *)
Definition db {V : Type} (this : nat) (env : Env V) : bool :=
  default false (wrappers env !! this).

Definition connect {V : Type} (this : nat) (env : Env V) : Result unit * Env V :=
  if db this env then (Ok tt, env)
  else
    match initDB env with
    | (Ok _, env1) => (Ok tt, set_db this true env1)
    | (Thrown e, env1) => (Thrown e, env1)
    end.

Definition NOT_CONNECTED : JsValue :=
  JsError "데이터베이스가 연결되지 않았습니다. connect()를 먼저 호출하세요.".

Definition ensureConnected {V : Type} (this : nat) (env : Env V) : Result unit :=
  if negb (db this env) then Thrown NOT_CONNECTED else Ok tt.

(** [getTransaction] and [getStore]: a transaction on a store the
    database does not have throws. *)
Definition getStore {V : Type} (this : nat) (storeName : string) (env : Env V)
    : Result (ObjectStore V) :=
  match ensureConnected this env with
  | Thrown e => Thrown e
  | Ok _ =>
      match database env ≫= (fun d => d !! storeName) with
      | Some store => Ok store
      | None => Thrown (thrown_dom NotFoundError)
      end
  end.

(** In the methods below [field p v] is the key found at key path [p] of
    the value [v], if there is a valid one. *)
Definition add {V : Type} (field : string -> V -> option IDBKey)
    (this : nat) (storeName : string) (data : V) (env : Env V)
    : Result IDBKey * Env V :=
  match getStore this storeName env with
  | Thrown error => (Thrown error, env)
  | Ok store =>
      match field (keyPath store) data with
      | None => (Thrown (thrown_dom DataError), env)
      | Some key =>
          match objects store !! key with
          | Some _ =>
              (Thrown (JsError ("데이터 추가 실패: "
                                +:+ DOMException_toString ConstraintError
                                      (exceptionMessage env ConstraintError))),
               env)
          | None => (Ok key, set_objects storeName (<[key := data]> (objects store)) env)
          end
      end
  end.

Definition get {V : Type} (this : nat) (storeName : string) (key : string)
    (env : Env V) : Result (option V) * Env V :=
  match getStore this storeName env with
  | Thrown error => (Thrown error, env)
  | Ok store => (Ok (objects store !! KeyString key), env)
  end.

Definition update {V : Type} (field : string -> V -> option IDBKey)
    (this : nat) (storeName : string) (data : V) (env : Env V)
    : Result IDBKey * Env V :=
  match getStore this storeName env with
  | Thrown error => (Thrown error, env)
  | Ok store =>
      match field (keyPath store) data with
      | None => (Thrown (thrown_dom DataError), env)
      | Some key => (Ok key, set_objects storeName (<[key := data]> (objects store)) env)
      end
  end.

Definition delete {V : Type} (this : nat) (storeName : string) (key : string)
    (env : Env V) : Result unit * Env V :=
  match getStore this storeName env with
  | Thrown error => (Thrown error, env)
  | Ok store =>
      (Ok tt, set_objects storeName (base.delete (KeyString key) (objects store)) env)
  end.

Definition getAll {V : Type} (this : nat) (storeName : string) (env : Env V)
    : Result (list V) * Env V :=
  match getStore this storeName env with
  | Thrown error => (Thrown error, env)
  | Ok store => (Ok (listing (objects store)), env)
  end.

Definition getByIndex {V : Type} (field : string -> V -> option IDBKey)
    (this : nat) (storeName indexName : string) (value : IDBKey) (env : Env V)
    : Result (list V) * Env V :=
  match getStore this storeName env with
  | Thrown error => (Thrown error, env)
  | Ok store =>
      match List.find (fun i => String.eqb (fst i) indexName) (indexNames store) with
      | None => (Thrown (thrown_dom NotFoundError), env)
      | Some (_, path) =>
          (Ok (List.filter (fun v => bool_decide (field path v = Some value))
                 (listing (objects store))), env)
      end
  end.

Definition clear {V : Type} (this : nat) (storeName : string) (env : Env V)
    : Result unit * Env V :=
  match getStore this storeName env with
  | Thrown error => (Thrown error, env)
  | Ok store => (Ok tt, set_objects storeName ∅ env)
  end.

Definition count {V : Type} (this : nat) (storeName : string) (env : Env V)
    : Result nat * Env V :=
  match getStore this storeName env with
  | Thrown error => (Thrown error, env)
  | Ok store => (Ok (size (objects store)), env)
  end.

Definition close {V : Type} (this : nat) (env : Env V) : Env V :=
  if db this env then set_db this false env else env.

End IndexedDBWrapper.

(** [getDB] up to its [await]: it returns at once when [defaultInstance]
    is set ([None]); otherwise it constructs the instance, stores it in
    [defaultInstance] and waits for its [connect()] ([Some this]). *)
Definition getDB_begin {V : Type} (env : Env V) : option nat * Env V :=
  match defaultInstance env with
  | Some _ => (None, env)
  | None =>
      let (this, env1) := IndexedDBWrapper.new env in
      (Some this,
       mkEnv (supported env1) (openError env1) (exceptionMessage env1)
         (database env1) (wrappers env1) (Some this))
  end.

(** [getDB] from the moment the [initDB()] its [connect()] waits for has
    settled: [this.db] is assigned and the value of [defaultInstance] is
    returned. *)
Definition getDB_resume {V : Type} (this : nat) (env : Env V)
    : Result (option nat) * Env V :=
  match initDB env with
  | (Ok _, env1) =>
      let env2 := set_db this true env1 in (Ok (defaultInstance env2), env2)
  | (Thrown e, env1) => (Thrown e, env1)
  end.

(** [getDB], run without interruption. *)
Definition getDB {V : Type} (env : Env V) : Result (option nat) * Env V :=
  match getDB_begin env with
  | (None, env1) => (Ok (defaultInstance env1), env1)
  | (Some this, env1) => getDB_resume this env1
  end.

(** The value of the union type ['pending' | 'uploading' | 'failed']. *)
Definition status_name (s : UploadStatus) : string :=
  match s with
  | pending => "pending"
  | uploading => "uploading"
  | failed => "failed"
  end.

(** A [PendingUpload] as a stored value: its key path 'id' and the key
    paths of its two indexes. *)
Definition upload_field (path : string) (upload : PendingUpload) : option IDBKey :=
  if String.eqb path "id" then Some (KeyString (id upload))
  else if String.eqb path "status" then Some (KeyString (status_name (status upload)))
  else if String.eqb path "createdAt" then Some (KeyNumber (createdAt upload))
  else None.

(** The records of the store [storeName], when the database has it. *)
Definition store_objects {V : Type} (storeName : string) (env : Env V)
    : option (gmap IDBKey V) :=
  d ← database env; store ← d !! storeName; Some (objects store).

(** The wrapper [this] holds a connection and the database has the store
    [storeName], which is [store]. *)
Definition open_on {V : Type} (this : nat) (storeName : string)
    (store : ObjectStore V) (env : Env V) : Prop :=
  IndexedDBWrapper.db this env = true /\
  exists d, database env = Some d /\ d !! storeName = Some store.

(** The store 'pendingUploads' as [initDB] creates it, holding the
    records [s]. *)
Definition pendingUploads_store (s : gmap string PendingUpload)
    : ObjectStore PendingUpload :=
  mkObjectStore "id" [("status", "status"); ("createdAt", "createdAt")]
    (kmap KeyString s).

(** The world of the queue manager and the state of the database module
    show the same store 'pendingUploads', the latter through the
    connected wrapper [this]. *)
Definition same_store (w : World) (this : nat) (env : Env PendingUpload) : Prop :=
  open_on this STORES.PENDING_UPLOADS (pendingUploads_store (store w)) env /\
  exceptionMessage env ConstraintError = messages (oracle w) ConstraintError.

(** The key a request resolves with, as the queue manager reads it. *)
Definition as_key (r : Result string) : Result IDBKey :=
  match r with
  | Ok key => Ok (KeyString key)
  | Thrown e => Thrown e
  end.

(* ===================================================================== *)
(** * [media-validator.ts] and the offline path of [useMediaUpload.ts]   *)
(* ===================================================================== *)

(** The members of [enum ErrorCode] the validator uses. *)
Module ErrorCode.
Definition VAL_001 : string := "VAL_001".
Definition VAL_002 : string := "VAL_002".
Definition VAL_003 : string := "VAL_003".
End ErrorCode.

(** [interface FileValidationResult] *)
Module FileValidationResult.
Record t := mk {
  valid : bool;
  error : option string;
  errorCode : option string
}.
End FileValidationResult.

(** [interface UploadResult] *)
Module UploadResult.
Record t := mk {
  success : bool;
  mediaId : option string;
  error : option string;
  queueId : option string
}.
End UploadResult.

Definition SUPPORTED_IMAGE_TYPES : list string :=
  ["image/jpeg"; "image/jpg"; "image/png"; "image/webp"].

Definition SUPPORTED_VIDEO_TYPES : list string :=
  ["video/mp4"; "video/webm"].

Definition MAX_IMAGE_SIZE : Z := 10 * 1024 * 1024.
Definition MAX_VIDEO_SIZE : Z := 100 * 1024 * 1024.

(** [array.includes(s)] on an array of strings. *)
Definition array_includes (array : list string) (s : string) : bool :=
  existsb (String.eqb s) array.

(** [array.join(separator)] *)
Fixpoint join (separator : string) (array : list string) : string :=
  match array with
  | [] => ""
  | [s] => s
  | s :: array' => s +:+ separator +:+ join separator array'
  end.

(** [file.size]: the length of the file in bytes. *)
Definition file_size (file : File) : Z := Z.of_nat (length (file_bytes file)).

(** [(bytes / (1024 * 1024)).toFixed(2)].  The quotient by a power of two
    is exact; [toFixed(2)] writes the multiple of 0.01 nearest to it, the
    larger one of two equally near, with two decimals. *)
Definition toFixed2_MB (bytes : Z) : string :=
  let hundredths := (bytes * 200 + 1024 * 1024) / (2 * 1024 * 1024) in
  pretty (hundredths / 100) +:+ "." +:+
  (if hundredths mod 100 <? 10 then "0" else "") +:+ pretty (hundredths mod 100).

Section MediaFiles.
(** [file.type], the MIME type of a file, is not part of the model of
    [File] and is given from outside. *)
Variable mime : File -> string.

(** [validateFileType] *)
Definition validateFileType (file : File) (mediaType : MediaType)
    : FileValidationResult.t :=
  let supportedTypes :=
    match mediaType with
    | image => SUPPORTED_IMAGE_TYPES
    | video => SUPPORTED_VIDEO_TYPES
    end in
  if negb (array_includes supportedTypes (mime file)) then
    FileValidationResult.mk false
      (Some ("지원하지 않는 "
             +:+ (match mediaType with image => "이미지" | video => "비디오" end)
             +:+ " 형식입니다. 지원 형식: " +:+ join ", " supportedTypes))
      (Some ErrorCode.VAL_002)
  else FileValidationResult.mk true None None.

(** [validateFileSize] *)
Definition validateFileSize (file : File) (mediaType : MediaType)
    : FileValidationResult.t :=
  let maxSize :=
    match mediaType with
    | image => MAX_IMAGE_SIZE
    | video => MAX_VIDEO_SIZE
    end in
  let maxSizeMB := maxSize / (1024 * 1024) in
  if file_size file >? maxSize then
    FileValidationResult.mk false
      (Some ("파일 크기가 너무 큽니다. 최대 크기: " +:+ pretty maxSizeMB
             +:+ "MB (현재: " +:+ toFixed2_MB (file_size file) +:+ "MB)"))
      (Some ErrorCode.VAL_001)
  else FileValidationResult.mk true None None.

(** [detectMediaType] *)
Definition detectMediaType (file : File) : option MediaType :=
  if array_includes SUPPORTED_IMAGE_TYPES (mime file) then Some image
  else if array_includes SUPPORTED_VIDEO_TYPES (mime file) then Some video
  else None.

(** [validateFile]; an absent [file] is [null] or [undefined]. *)
Definition validateFile (file : option File) (mediaType : option MediaType)
    : FileValidationResult.t :=
  match file with
  | None =>
      FileValidationResult.mk false (Some "파일이 선택되지 않았습니다.")
        (Some ErrorCode.VAL_003)
  | Some file =>
      let detectedType :=
        match mediaType with
        | Some t => Some t
        | None => detectMediaType file
        end in
      match detectedType with
      | None =>
          FileValidationResult.mk false (Some "지원하지 않는 파일 형식입니다.")
            (Some ErrorCode.VAL_002)
      | Some detectedType =>
          let typeValidation := validateFileType file detectedType in
          if negb (FileValidationResult.valid typeValidation) then typeValidation
          else
            let sizeValidation := validateFileSize file detectedType in
            if negb (FileValidationResult.valid sizeValidation) then sizeValidation
            else FileValidationResult.mk true None None
      end
  end.

(** [validateFiles] *)
Definition validateFiles (files : list File) : list FileValidationResult.t :=
  List.map (fun file => validateFile (Some file) None) files.

(** [uploadOffline] of [useMediaUpload.ts] *)
Definition uploadOffline (file : File) : M UploadResult.t :=
  let type := if String.prefix "image/" (mime file) then image else video in
  queueId <- await (addToQueue file type) ;;
  ret (UploadResult.mk true None None (Some queueId)).
End MediaFiles.

(** The MIME types supported for a media type, and its size limit. *)
Definition supported_types (mediaType : MediaType) : list string :=
  match mediaType with
  | image => SUPPORTED_IMAGE_TYPES
  | video => SUPPORTED_VIDEO_TYPES
  end.

Definition max_size (mediaType : MediaType) : Z :=
  match mediaType with
  | image => MAX_IMAGE_SIZE
  | video => MAX_VIDEO_SIZE
  end.

(* ===================================================================== *)
(** * Running programs: equations                                        *)
(* ===================================================================== *)

Lemma config_eta (c : Config) : mkConfig (world c) (pool c) = c.
Proof. destruct c; reflexivity. Qed.

Lemma run_bindP {A B : Type} (p : Prog A) (f : A -> Prog B) (c : Config) :
  run (bindP p f) c = let (a, c') := run p c in run (f a) c'.
Proof.
  revert B f c. induction p as [A a | A X e k IH | A child _ k IH]; intros B f c.
  - reflexivity.
  - simpl. destruct (handle e (world c)) as [x w']. apply IH.
  - simpl. destruct (run_sync child c) as [child' c1]. apply IH.
Qed.

Lemma run_bind {A B : Type} (m : M A) (f : A -> M B) (c : Config) :
  run (bind m f) c =
  match run m c with
  | (Ok a, c') => run (f a) c'
  | (Thrown e, c') => (Thrown e, c')
  end.
Proof.
  unfold bind. rewrite run_bindP. destruct (run m c) as [[a | e] c']; reflexivity.
Qed.

Lemma run_try_catch {A : Type} (body : M A) (handler : JsValue -> M A) (c : Config) :
  run (try_catch body handler) c =
  match run body c with
  | (Ok a, c') => (Ok a, c')
  | (Thrown e, c') => run (handler e) c'
  end.
Proof.
  unfold try_catch. rewrite run_bindP. destruct (run body c) as [[a | e] c']; reflexivity.
Qed.

Lemma run_await {A : Type} (p : M A) (c : Config) : run (await p) c = run p c.
Proof.
  unfold await. rewrite run_bindP. destruct (run p c) as [r c']. simpl.
  now rewrite config_eta.
Qed.

Lemma run_perform {X : Type} (e : Eff X) (c : Config) :
  run (perform e) c = (Ok (fst (handle e (world c))),
                       mkConfig (snd (handle e (world c))) (pool c)).
Proof. unfold perform. simpl. destruct (handle e (world c)); reflexivity. Qed.

Lemma run_settle {X : Type} (e : Eff (Result X)) (c : Config) :
  run (settle e) c = (fst (handle e (world c)),
                      mkConfig (snd (handle e (world c))) (pool c)).
Proof. unfold settle. simpl. destruct (handle e (world c)); reflexivity. Qed.

(* ===================================================================== *)
(** * The loop of [notifyProgress]                                       *)
(* ===================================================================== *)

Lemma run_notify_from (fuel : nat) (upload : PendingUpload) :
  forall (index : nat) (w : World) (tasks : list (Prog (Result unit))),
  run (notify_from fuel index upload) (mkConfig w tasks)
  = (Ok tt, mkConfig (notified_from fuel index upload w) tasks).
Proof.
  induction fuel as [| fuel IH]; intros index w tasks; [reflexivity |].
  cbn [notify_from notified_from]. rewrite run_bind, run_perform.
  cbn [handle fst snd world pool].
  destruct (progressCallbacks w !! index) as [callback |] eqn:Hat.
  - rewrite run_bind, run_try_catch, run_settle. cbn [handle fst snd world pool].
    unfold called. destruct (cb_throws callback).
    + rewrite run_perform. cbn [handle fst snd world pool]. apply IH.
    + apply IH.
  - destruct w; reflexivity.
Qed.

Lemma run_notifyProgress (upload : PendingUpload) (c : Config) :
  run (notifyProgress upload) c = (Ok tt, on_world (notified upload) c).
Proof.
  unfold notifyProgress. rewrite run_bind, run_perform.
  cbn [handle fst snd]. destruct c as [w tasks]. cbn [world pool].
  rewrite run_notify_from. reflexivity.
Qed.

Lemma called_frame (callback : Callback) (upload : PendingUpload) (w : World) :
  same_but_subscribers w (called callback upload w).
Proof. unfold called. destruct (cb_throws callback); repeat split. Qed.

Lemma notified_from_frame (fuel : nat) (upload : PendingUpload) :
  forall (index : nat) (w : World),
  same_but_subscribers w (notified_from fuel index upload w).
Proof.
  induction fuel as [| fuel IH]; intros index w; [repeat split |].
  cbn [notified_from]. destruct (progressCallbacks w !! index) as [callback |];
    [| repeat split].
  specialize (IH (S index) (called callback upload w)).
  pose proof (called_frame callback upload w) as Hc.
  unfold same_but_subscribers in *.
  destruct IH as (-> & -> & -> & -> & -> & -> & -> & -> & -> & ->). exact Hc.
Qed.

Lemma notified_frame (upload : PendingUpload) (w : World) :
  same_but_subscribers w (notified upload w).
Proof. apply notified_from_frame. Qed.

Lemma store_notified (upload : PendingUpload) (w : World) :
  store (notified upload w) = store w.
Proof. apply notified_frame. Qed.

Lemma isProcessing_notified (upload : PendingUpload) (w : World) :
  isProcessing (notified upload w) = isProcessing w.
Proof. apply notified_frame. Qed.

Lemma oracle_notified (upload : PendingUpload) (w : World) :
  oracle (notified upload w) = oracle w.
Proof. apply notified_frame. Qed.

Lemma fetched_notified (upload : PendingUpload) (w : World) :
  fetched (notified upload w) = fetched w.
Proof. apply notified_frame. Qed.

Lemma drawn_notified (upload : PendingUpload) (w : World) :
  drawn (notified upload w) = drawn w.
Proof. apply notified_frame. Qed.

Lemma issued_notified (upload : PendingUpload) (w : World) :
  issued (notified upload w) = issued w.
Proof. apply notified_frame. Qed.

Lemma ticks_notified (upload : PendingUpload) (w : World) :
  ticks (notified upload w) = ticks w.
Proof. apply notified_frame. Qed.

Lemma draining_notified (upload : PendingUpload) (w : World) :
  draining (notified upload w) = draining w.
Proof. apply notified_frame. Qed.

Lemma onLine_notified (upload : PendingUpload) (w : World) :
  onLine (notified upload w) = onLine w.
Proof. apply notified_frame. Qed.

Lemma onlineListener_notified (upload : PendingUpload) (w : World) :
  onlineListener (notified upload w) = onlineListener w.
Proof. apply notified_frame. Qed.

(** The trace of the loop is that of the calls it makes. *)
Lemma trace_notified_from (fuel : nat) (upload : PendingUpload) :
  forall (index : nat) (w : World),
  trace (notified_from fuel index upload w)
  = notify_trace upload (callees fuel index upload w) (trace w).
Proof.
  induction fuel as [| fuel IH]; intros index w; [reflexivity |].
  cbn [notified_from callees].
  destruct (progressCallbacks w !! index) as [callback |]; [| reflexivity].
  rewrite IH. cbn [notify_trace]. unfold called.
  destruct (cb_throws callback); reflexivity.
Qed.





(* ===================================================================== *)
(** * The queue status snapshot                                          *)
(* ===================================================================== *)

Lemma count_status_partition (l : list PendingUpload) :
  length l = (count_status pending l + count_status uploading l
              + count_status failed l)%nat.
Proof.
  unfold count_status. induction l as [| u l IH]; [reflexivity |].
  cbn [List.filter length]. destruct (status u); cbn [UploadStatus_eqb length]; lia.
Qed.

(** C10.  For every store, [getQueueStatus] returns a snapshot, its
    [total] is the number of stored records, and
    [total = pending + uploading + failed]: a stored record's status is
    one of the three values of [UploadStatus]. *)
Theorem getQueueStatus_total_is_sum (c : Config) :
  exists qs : QueueStatus.t,
    fst (run getQueueStatus c) = Ok qs /\
    QueueStatus.total qs = length (records (store (world c))) /\
    QueueStatus.total qs =
      (QueueStatus.pending qs + QueueStatus.uploading qs + QueueStatus.failed qs)%nat.
Proof.
  eexists. split; [reflexivity |]. cbn.
  split; [reflexivity | apply count_status_partition].
Qed.

(* ===================================================================== *)
(** * Binary64 arithmetic: the mantissa and the exponent of a result     *)
(* ===================================================================== *)

Lemma digits2_pos_bounds (m : positive) :
  2 ^ (Z.pos (digits2_pos m) - 1) <= Z.pos m < 2 ^ Z.pos (digits2_pos m).
Proof.
  induction m as [p IH | p IH |]; cbn [digits2_pos].
  - rewrite Pos2Z.inj_succ.
    replace (Z.succ (Z.pos (digits2_pos p)) - 1) with (Z.succ (Z.pos (digits2_pos p) - 1)) by lia.
    rewrite !Z.pow_succ_r by lia. lia.
  - rewrite Pos2Z.inj_succ.
    replace (Z.succ (Z.pos (digits2_pos p)) - 1) with (Z.succ (Z.pos (digits2_pos p) - 1)) by lia.
    rewrite !Z.pow_succ_r by lia. lia.
  - cbn. lia.
Qed.

Lemma digits2_pos_unique (m : positive) (k : Z) :
  2 ^ (k - 1) <= Z.pos m < 2 ^ k -> Z.pos (digits2_pos m) = k.
Proof.
  intros [Hlo Hhi]. pose proof (digits2_pos_bounds m) as [Hlo' Hhi'].
  assert (Hk : 0 < k).
  { destruct (Z.ltb_spec 0 k) as [H | H]; [exact H |].
    destruct (Z.eq_dec k 0) as [-> | Hne]; [cbn in Hhi; lia |].
    rewrite Z.pow_neg_r in Hhi by lia. lia. }
  destruct (Z.lt_trichotomy (Z.pos (digits2_pos m)) k) as [Hlt | [Heq | Hgt]];
    [| exact Heq |].
  - assert (2 ^ Z.pos (digits2_pos m) <= 2 ^ (k - 1)) by (apply Z.pow_le_mono_r; lia).
    lia.
  - assert (2 ^ k <= 2 ^ (Z.pos (digits2_pos m) - 1)) by (apply Z.pow_le_mono_r; lia).
    lia.
Qed.

Lemma digits2_pos_le (m n : positive) :
  Z.pos m <= Z.pos n -> Z.pos (digits2_pos m) <= Z.pos (digits2_pos n).
Proof.
  intros Hle. pose proof (digits2_pos_bounds m) as [Hlo _].
  pose proof (digits2_pos_bounds n) as [_ Hhi].
  destruct (Z.leb_spec (Z.pos (digits2_pos m)) (Z.pos (digits2_pos n))) as [H | H];
    [exact H |].
  assert (2 ^ Z.pos (digits2_pos n) <= 2 ^ (Z.pos (digits2_pos m) - 1))
    by (apply Z.pow_le_mono_r; lia).
  lia.
Qed.

(** The digits of a quotient by a power of two. *)
Lemma digits2_pos_div (m : positive) (p : Z) :
  0 <= p < Z.pos (digits2_pos m) ->
  exists q : positive,
    Z.pos m / 2 ^ p = Z.pos q /\
    Z.pos (digits2_pos q) = Z.pos (digits2_pos m) - p.
Proof.
  intros Hp. pose proof (digits2_pos_bounds m) as [Hlo Hhi].
  assert (Hpow : 0 < 2 ^ p) by (apply Z.pow_pos_nonneg; lia).
  assert (Hsplit1 : 2 ^ (Z.pos (digits2_pos m) - 1)
                    = 2 ^ (Z.pos (digits2_pos m) - p - 1) * 2 ^ p).
  { rewrite <- Z.pow_add_r by lia. f_equal. lia. }
  assert (Hsplit2 : 2 ^ Z.pos (digits2_pos m)
                    = 2 ^ (Z.pos (digits2_pos m) - p) * 2 ^ p).
  { rewrite <- Z.pow_add_r by lia. f_equal. lia. }
  assert (Hq1 : 2 ^ (Z.pos (digits2_pos m) - p - 1) <= Z.pos m / 2 ^ p).
  { apply Z.div_le_lower_bound; [exact Hpow |]. lia. }
  assert (Hq2 : Z.pos m / 2 ^ p < 2 ^ (Z.pos (digits2_pos m) - p)).
  { apply Z.div_lt_upper_bound; [exact Hpow |]. lia. }
  assert (Hpos : 0 < 2 ^ (Z.pos (digits2_pos m) - p - 1))
    by (apply Z.pow_pos_nonneg; lia).
  destruct (Z.pos m / 2 ^ p) as [| q | q] eqn:Hq; [lia | | lia].
  exists q. split; [reflexivity |]. apply digits2_pos_unique. lia.
Qed.

(** The digits of a product. *)
Lemma digits2_pos_mul (m n : positive) :
  Z.pos (digits2_pos m) + Z.pos (digits2_pos n) - 1
  <= Z.pos (digits2_pos (m * n))
  <= Z.pos (digits2_pos m) + Z.pos (digits2_pos n).
Proof.
  pose proof (digits2_pos_bounds m) as [Hm1 Hm2].
  pose proof (digits2_pos_bounds n) as [Hn1 Hn2].
  pose proof (digits2_pos_bounds (m * n)) as [Hp1 Hp2].
  rewrite Pos2Z.inj_mul in Hp1, Hp2.
  set (dm := Z.pos (digits2_pos m)) in *. set (dn := Z.pos (digits2_pos n)) in *.
  set (dp := Z.pos (digits2_pos (m * n))) in *.
  assert (Hdm : 0 < dm) by (unfold dm; lia).
  assert (Hdn : 0 < dn) by (unfold dn; lia).
  assert (Hdp : 0 < dp) by (unfold dp; lia).
  assert (Hlow : 2 ^ (dm + dn - 2) <= Z.pos m * Z.pos n).
  { replace (dm + dn - 2) with ((dm - 1) + (dn - 1)) by lia.
    rewrite Z.pow_add_r by lia. apply Z.mul_le_mono_nonneg; lia. }
  assert (Hhigh : Z.pos m * Z.pos n < 2 ^ (dm + dn)).
  { rewrite Z.pow_add_r by lia. apply Z.mul_lt_mono_nonneg; lia. }
  split.
  - destruct (Z.leb_spec (dm + dn - 1) dp) as [H | H]; [exact H |].
    assert (2 ^ dp <= 2 ^ (dm + dn - 2)) by (apply Z.pow_le_mono_r; lia). lia.
  - destruct (Z.leb_spec dp (dm + dn)) as [H | H]; [exact H |].
    assert (2 ^ (dm + dn) <= 2 ^ (dp - 1)) by (apply Z.pow_le_mono_r; lia). lia.
Qed.

(** Shifting right: the mantissa is halved, rounding down. *)
Lemma shr_1_m (mrs : shr_record) :
  0 <= shr_m mrs -> shr_m (shr_1 mrs) = shr_m mrs / 2.
Proof.
  destruct mrs as [m r s]. cbn [shr_m shr_1]. intros Hm.
  destruct m as [| [p | p |] | p]; cbn [shr_m]; try lia.
  - reflexivity.
  - change (Z.pos p~1) with (2 * Z.pos p + 1). apply Z.div_unique with (r := 1); lia.
  - change (Z.pos p~0) with (2 * Z.pos p). apply Z.div_unique with (r := 0); lia.
  - reflexivity.
Qed.

Lemma iter_shr_1_m (p : positive) :
  forall mrs : shr_record,
  0 <= shr_m mrs ->
  shr_m (SpecFloat.iter_pos shr_1 p mrs) = shr_m mrs / 2 ^ Z.pos p.
Proof.
  induction p as [p IH | p IH |]; intros mrs Hm; cbn [SpecFloat.iter_pos].
  - assert (H1 : 0 <= shr_m (shr_1 mrs)).
    { rewrite shr_1_m by exact Hm. apply Z.div_pos; lia. }
    assert (H2 : 0 <= shr_m (SpecFloat.iter_pos shr_1 p (shr_1 mrs))).
    { rewrite IH by exact H1. apply Z.div_pos; [exact H1 |].
      apply Z.pow_pos_nonneg; lia. }
    rewrite IH by exact H2. rewrite IH by exact H1. rewrite shr_1_m by exact Hm.
    rewrite !Z.div_div by (try apply Z.pow_pos_nonneg; lia).
    f_equal. change (Z.pos p~1) with (2 * Z.pos p + 1).
    replace (2 * Z.pos p + 1) with (1 + Z.pos p + Z.pos p) by lia.
    rewrite (Z.pow_add_r 2 (1 + Z.pos p) (Z.pos p)) by lia.
    rewrite (Z.pow_add_r 2 1 (Z.pos p)) by lia. lia.
  - assert (H2 : 0 <= shr_m (SpecFloat.iter_pos shr_1 p mrs)).
    { rewrite IH by exact Hm. apply Z.div_pos; [exact Hm |].
      apply Z.pow_pos_nonneg; lia. }
    rewrite IH by exact H2. rewrite IH by exact Hm.
    rewrite !Z.div_div by (try apply Z.pow_pos_nonneg; lia).
    f_equal. change (Z.pos p~0) with (2 * Z.pos p).
    replace (2 * Z.pos p) with (Z.pos p + Z.pos p) by lia.
    rewrite (Z.pow_add_r 2 (Z.pos p) (Z.pos p)) by lia. lia.
  - rewrite shr_1_m by exact Hm. reflexivity.
Qed.

Lemma round_nearest_even_bounds (m : Z) (l : location) :
  m <= round_nearest_even m l <= m + 1.
Proof.
  unfold round_nearest_even. destruct l as [| [| |]]; try lia.
  destruct (Z.even m); lia.
Qed.

Lemma shr_form (mrs : shr_record) (e n : Z) :
  0 <= shr_m mrs ->
  snd (shr mrs e n) = Z.max e (e + n) /\
  shr_m (fst (shr mrs e n)) = shr_m mrs / 2 ^ (Z.max e (e + n) - e).
Proof.
  intros Hm. unfold shr. destruct n as [| p | p]; cbn [fst snd].
  - replace (Z.max e (e + 0)) with e by lia. rewrite Z.sub_diag, Z.div_1_r.
    split; reflexivity.
  - replace (Z.max e (e + Z.pos p)) with (e + Z.pos p) by lia.
    replace (e + Z.pos p - e) with (Z.pos p) by lia.
    split; [reflexivity | now apply iter_shr_1_m].
  - replace (Z.max e (e + Z.neg p)) with e by lia. rewrite Z.sub_diag, Z.div_1_r.
    split; reflexivity.
Qed.

(** The result of rounding a positive mantissa [M] at exponent [ex]: the
    mantissa is cut at the exponent [e1] of its magnitude, rounded to
    [n1], which is the quotient or one more, and cut again when the
    rounding carried. *)
Lemma binary_round_aux_form (M : positive) (ex : Z) :
  let e1 := Z.max ex (fexp 53 1024 (Z.pos (digits2_pos M) + ex)) in
  let q := Z.pos M / 2 ^ (e1 - ex) in
  exists n1 : Z,
    q <= n1 <= q + 1 /\
    let e2 := Z.max e1 (fexp 53 1024 (Zdigits2 n1 + e1)) in
    binary_round_aux 53 1024 false (Z.pos M) ex loc_Exact =
      match n1 / 2 ^ (e2 - e1) with
      | Z0 => S754_zero false
      | Z.pos m =>
          if e2 <=? 1024 - 53 then S754_finite false m e2 else S754_infinity false
      | Z.neg _ => S754_nan
      end.
Proof.
  intros e1 q. unfold binary_round_aux, shr_fexp. cbn [Zdigits2 shr_record_of_loc].
  destruct (shr_form (Build_shr_record (Z.pos M) false false) ex
              (fexp 53 1024 (Z.pos (digits2_pos M) + ex) - ex)) as [He Hm];
    [cbn; lia |].
  destruct (shr _ ex _) as [mrs' e'] eqn:Hshr. cbn [fst snd shr_m] in He, Hm.
  replace (ex + (fexp 53 1024 (Z.pos (digits2_pos M) + ex) - ex))
    with (fexp 53 1024 (Z.pos (digits2_pos M) + ex)) in He, Hm by lia.
  fold e1 in He, Hm. subst e'. fold q in Hm.
  set (n1 := round_nearest_even (shr_m mrs') (loc_of_shr_record mrs')).
  assert (Hq : 0 <= q).
  { unfold q. apply Z.div_pos; [lia |]. apply Z.pow_pos_nonneg; lia. }
  assert (Hn1 : q <= n1 <= q + 1).
  { unfold n1. rewrite <- Hm. apply round_nearest_even_bounds. }
  exists n1. split; [exact Hn1 |]. cbv zeta.
  destruct (shr_form (Build_shr_record n1 false false) e1
              (fexp 53 1024 (Zdigits2 n1 + e1) - e1)) as [He2 Hm2];
    [cbn; lia |].
  destruct (shr _ e1 _) as [mrs'' e''] eqn:Hshr2. cbn [fst snd shr_m] in He2, Hm2.
  replace (e1 + (fexp 53 1024 (Zdigits2 n1 + e1) - e1))
    with (fexp 53 1024 (Zdigits2 n1 + e1)) in He2, Hm2 by lia.
  subst e''. rewrite Hm2. reflexivity.
Qed.

Lemma fexp_ge (e : Z) : -1074 <= fexp 53 1024 e.
Proof. unfold fexp, emin. lia. Qed.

Lemma fexp_mono (e e' : Z) : e <= e' -> fexp 53 1024 e <= fexp 53 1024 e'.
Proof. unfold fexp, emin. lia. Qed.

Lemma fexp_eq (e : Z) : fexp 53 1024 e = Z.max (e - 53) (-1074).
Proof. reflexivity. Qed.

(** A positive mantissa cut at the exponent of its magnitude stays
    positive, and keeps its magnitude. *)
Lemma cut_positive (pn : positive) (e1 : Z) :
  -1074 <= e1 ->
  let e2 := Z.max e1 (fexp 53 1024 (Z.pos (digits2_pos pn) + e1)) in
  exists m : positive,
    Z.pos pn / 2 ^ (e2 - e1) = Z.pos m /\
    (e2 = e1 -> m = pn) /\
    Z.pos (digits2_pos m) + e2 = Z.pos (digits2_pos pn) + e1.
Proof.
  intros He1 e2. pose proof (fexp_eq (Z.pos (digits2_pos pn) + e1)) as Hf.
  destruct (Z.leb_spec (Z.max (Z.pos (digits2_pos pn) + e1 - 53) (-1074)) e1)
    as [Hle | Hgt].
  - assert (He2 : e2 = e1) by (unfold e2; lia).
    exists pn. rewrite He2, Z.sub_diag, Z.div_1_r. repeat split.
  - assert (He2 : e2 = Z.pos (digits2_pos pn) + e1 - 53) by (unfold e2; lia).
    destruct (digits2_pos_div pn (e2 - e1)) as (m & Hm & Hd); [lia |].
    exists m. split; [exact Hm |]. split; [lia |]. lia.
Qed.

(** The cases of the result of rounding a positive mantissa. *)
Lemma binary_round_aux_cases (M : positive) (ex : Z) :
  let e1 := Z.max ex (fexp 53 1024 (Z.pos (digits2_pos M) + ex)) in
  let q := Z.pos M / 2 ^ (e1 - ex) in
  let r := binary_round_aux 53 1024 false (Z.pos M) ex loc_Exact in
  exists n1 : Z,
    q <= n1 <= q + 1 /\
    ((n1 = 0 /\ r = S754_zero false) \/
     exists (pn m : positive) (e2 : Z),
       n1 = Z.pos pn /\
       e2 = Z.max e1 (fexp 53 1024 (Z.pos (digits2_pos pn) + e1)) /\
       (e2 = e1 -> m = pn) /\
       Z.pos (digits2_pos m) + e2 = Z.pos (digits2_pos pn) + e1 /\
       Z.pos pn / 2 ^ (e2 - e1) = Z.pos m /\
       r = if e2 <=? 1024 - 53 then S754_finite false m e2
           else S754_infinity false).
Proof.
  intros e1 q r. destruct (binary_round_aux_form M ex) as (n1 & Hn1 & Hr).
  fold e1 q in Hn1, Hr. cbv zeta in Hr. fold r in Hr.
  exists n1. split; [exact Hn1 |].
  assert (Hq : 0 <= q).
  { unfold q. apply Z.div_pos; [lia |]. apply Z.pow_pos_nonneg; lia. }
  assert (He1 : -1074 <= e1).
  { unfold e1. pose proof (fexp_ge (Z.pos (digits2_pos M) + ex)). lia. }
  destruct n1 as [| pn | pn]; [| | lia].
  - left. split; [reflexivity |]. rewrite Hr. cbn [Zdigits2].
    now rewrite Z.div_0_l by (apply Z.pow_nonzero; [lia | unfold fexp, emin; lia]).
  - right. cbn [Zdigits2] in Hr.
    destruct (cut_positive pn e1 He1) as (m & Hm & Hsame & Hd).
    cbv zeta in Hm, Hsame, Hd.
    exists pn, m, (Z.max e1 (fexp 53 1024 (Z.pos (digits2_pos pn) + e1))).
    split; [reflexivity |]. split; [reflexivity |].
    split; [exact Hsame |]. split; [exact Hd |]. split; [exact Hm |].
    rewrite Hr, Hm. reflexivity.
Qed.

(** Rounding a positive mantissa gives a number that is not negative and
    not NaN. *)
Lemma binary_round_aux_sign (M : positive) (ex : Z) :
  match binary_round_aux 53 1024 false (Z.pos M) ex loc_Exact with
  | S754_zero false | S754_finite false _ _ | S754_infinity false => True
  | _ => False
  end.
Proof.
  destruct (binary_round_aux_cases M ex) as (n1 & _ & [[_ Hr] | H]).
  - cbv zeta in Hr. now rewrite Hr.
  - destruct H as (pn & m & e2 & _ & _ & _ & _ & _ & Hr). cbv zeta in Hr.
    rewrite Hr. now destruct (e2 <=? 1024 - 53).
Qed.

(** When the mantissa has the digits its exponent asks for, the result
    of rounding is a binary64 value. *)
Lemma binary_round_aux_valid (M : positive) (ex : Z) :
  ex <= fexp 53 1024 (Z.pos (digits2_pos M) + ex) ->
  valid_binary 53 1024
    (binary_round_aux 53 1024 false (Z.pos M) ex loc_Exact) = true.
Proof.
  intros Hex. destruct (binary_round_aux_cases M ex) as (n1 & Hn1 & [[_ Hr] | H]).
  - cbv zeta in Hr. now rewrite Hr.
  - destruct H as (pn & m & e2 & -> & He2 & _ & Hd & _ & Hr). cbv zeta in Hr, Hn1.
    rewrite Hr. destruct (Z.leb_spec e2 (1024 - 53)) as [Hle | Hgt]; [| reflexivity].
    cbn [valid_binary]. unfold bounded, canonical_mantissa.
    apply andb_true_intro. split; [| apply Z.leb_le; lia].
    apply Z.eqb_eq. rewrite Hd.
    set (e1 := Z.max ex (fexp 53 1024 (Z.pos (digits2_pos M) + ex))) in *.
    set (f2 := fexp 53 1024 (Z.pos (digits2_pos pn) + e1)) in *.
    assert (He1 : e1 = fexp 53 1024 (Z.pos (digits2_pos M) + ex)) by (unfold e1; lia).
    enough (e1 <= f2) by lia.
    rewrite fexp_eq in He1.
    destruct (Z.leb_spec (Z.pos (digits2_pos M) + ex - 53) (-1074)) as [Hsub | Hnorm].
    + pose proof (fexp_ge (Z.pos (digits2_pos pn) + e1)). fold f2 in H. lia.
    + assert (Hshift : e1 - ex = Z.pos (digits2_pos M) - 53) by lia.
      destruct (digits2_pos_div M (e1 - ex)) as (pq & Hq & Hdq); [lia |].
      rewrite Hq in Hn1.
      assert (Hdn : Z.pos (digits2_pos pq) <= Z.pos (digits2_pos pn))
        by (apply digits2_pos_le; lia).
      unfold f2. rewrite fexp_eq. lia.
Qed.

Lemma Zdigits2_le_pow (n k : Z) :
  0 <= k -> 0 <= n <= 2 ^ k -> Zdigits2 n <= k + 1.
Proof.
  intros Hk [Hn0 Hn]. destruct n as [| p | p]; cbn [Zdigits2]; [lia | | lia].
  pose proof (digits2_pos_bounds p) as [Hlo _].
  destruct (Z.leb_spec (Z.pos (digits2_pos p)) (k + 1)) as [H | H]; [exact H |].
  assert (2 ^ (k + 1) <= 2 ^ (Z.pos (digits2_pos p) - 1))
    by (apply Z.pow_le_mono_r; lia).
  rewrite Z.pow_add_r in H0 by lia. change (2 ^ 1) with 2 in H0.
  assert (0 < 2 ^ k) by (apply Z.pow_pos_nonneg; lia). lia.
Qed.

(** A mantissa whose magnitude is below 2^1023 does not overflow. *)
Lemma binary_round_aux_no_overflow (M : positive) (ex : Z) :
  ex <= fexp 53 1024 (Z.pos (digits2_pos M) + ex) ->
  Z.pos (digits2_pos M) + ex <= 1023 ->
  binary_round_aux 53 1024 false (Z.pos M) ex loc_Exact <> S754_infinity false.
Proof.
  intros Hex Hmag. rewrite fexp_eq in Hex. destruct (binary_round_aux_cases M ex) as (n1 & Hn1 & [[_ Hr] | H]).
  - cbv zeta in Hr. rewrite Hr. discriminate.
  - destruct H as (pn & m & e2 & -> & He2 & _ & _ & _ & Hr). cbv zeta in Hr, Hn1.
    rewrite Hr. destruct (Z.leb_spec e2 (1024 - 53)) as [Hle | Hgt]; [discriminate |].
    exfalso.
    set (e1 := Z.max ex (fexp 53 1024 (Z.pos (digits2_pos M) + ex))) in *.
    assert (He1 : e1 <= 970).
    { unfold e1. rewrite fexp_eq. pose proof (Pos2Z.is_pos (digits2_pos M)). lia. }
    assert (Hdn : Z.pos (digits2_pos pn) + e1 <= 1024).
    { destruct (Z.ltb_spec (e1 - ex) (Z.pos (digits2_pos M))) as [Hlt | Hge].
      - destruct (digits2_pos_div M (e1 - ex)) as (pq & Hq & Hdq); [unfold e1; lia |].
        rewrite Hq in Hn1. pose proof (digits2_pos_bounds pq) as [_ Hhi].
        pose proof (Zdigits2_le_pow (Z.pos pn) (Z.pos (digits2_pos pq))) as Hb.
        cbn [Zdigits2] in Hb. lia.
      - assert (Hq0 : Z.pos M / 2 ^ (e1 - ex) = 0).
        { apply Z.div_small. pose proof (digits2_pos_bounds M) as [_ Hhi].
          assert (2 ^ Z.pos (digits2_pos M) <= 2 ^ (e1 - ex))
            by (apply Z.pow_le_mono_r; lia). lia. }
        rewrite Hq0 in Hn1. assert (pn = 1%positive) by lia. subst pn. cbn [digits2_pos]. lia. }
    rewrite fexp_eq in He2. lia.
Qed.

Lemma canonical_mantissa_inv (m : positive) (e : Z) :
  canonical_mantissa 53 1024 m e = true ->
  -1074 <= e /\ Z.pos (digits2_pos m) <= 53 /\
  (Z.pos (digits2_pos m) = 53 \/ e = -1074).
Proof.
  unfold canonical_mantissa. rewrite Z.eqb_eq, fexp_eq. lia.
Qed.

(** The product of the mantissas of two binary64 values has the digits
    the sum of their exponents asks for. *)
Lemma mul_enough_digits (m1 m2 : positive) (e1 e2 : Z) :
  canonical_mantissa 53 1024 m1 e1 = true ->
  canonical_mantissa 53 1024 m2 e2 = true ->
  e1 + e2 <= fexp 53 1024 (Z.pos (digits2_pos (m1 * m2)) + (e1 + e2)).
Proof.
  intros H1 H2. apply canonical_mantissa_inv in H1, H2.
  pose proof (digits2_pos_mul m1 m2) as Hd.
  pose proof (Pos2Z.is_pos (digits2_pos m1)).
  pose proof (Pos2Z.is_pos (digits2_pos m2)).
  rewrite fexp_eq. lia.
Qed.

Lemma pos_iter_xO (m d : positive) :
  Z.pos (Pos.iter xO m d) = Z.pos m * 2 ^ Z.pos d.
Proof.
  induction d as [| d IH] using Pos.peano_ind.
  - cbn [Pos.iter]. change (2 ^ 1) with 2. lia.
  - rewrite Pos.iter_succ. change (Z.pos (Pos.iter xO m d)~0)
      with (2 * Z.pos (Pos.iter xO m d)).
    rewrite IH, Pos2Z.inj_succ, Z.pow_succ_r by lia. lia.
Qed.

Lemma shl_align_fst (mx : positive) (ex ez : Z) :
  ez <= ex -> Z.pos (fst (shl_align mx ex ez)) = Z.pos mx * 2 ^ (ex - ez).
Proof.
  intros Hle. unfold shl_align. destruct (ez - ex) as [| d | d] eqn:Hd; cbn [fst].
  - replace (ex - ez) with 0 by lia. change (2 ^ 0) with 1. lia.
  - lia.
  - rewrite pos_iter_xO. f_equal. f_equal. lia.
Qed.

Lemma shl_align_same (mx : positive) (ex ez : Z) :
  ex <= ez -> shl_align mx ex ez = (mx, ex).
Proof.
  intros Hle. unfold shl_align. destruct (ez - ex) as [| d | d] eqn:Hd;
    [reflexivity | reflexivity | lia].
Qed.

(** Adding a positive number to a binary64 value does not make it
    smaller. *)
Lemma SFadd_ge_left (ma : positive) (ea : Z) (mb : positive) (eb : Z) :
  canonical_mantissa 53 1024 ma ea = true ->
  match SFadd 53 1024 (S754_finite false ma ea) (S754_finite false mb eb) with
  | S754_infinity false => True
  | S754_finite false m e => ea < e \/ (e = ea /\ Z.pos ma <= Z.pos m)
  | _ => False
  end.
Proof.
  intros Hca. pose proof (canonical_mantissa_inv ma ea Hca) as (Hea & Hda & _).
  unfold canonical_mantissa in Hca. apply Z.eqb_eq in Hca.
  unfold SFadd. cbn [cond_Zopp]. set (ez := Z.min ea eb).
  pose proof (shl_align_fst ma ea ez ltac:(lia)) as Hma.
  pose proof (shl_align_fst mb eb ez ltac:(lia)) as Hmb.
  set (ma' := fst (shl_align ma ea ez)) in *.
  set (mb' := fst (shl_align mb eb ez)) in *.
  change (Z.pos ma' + Z.pos mb') with (Z.pos (ma' + mb')).
  cbn [binary_normalize]. unfold binary_round.
  set (M := (ma' + mb')%positive).
  assert (HM : Z.pos ma * 2 ^ (ea - ez) < Z.pos M) by (unfold M; lia).
  (* the magnitude of the sum is at least that of the left operand *)
  assert (Hpow : 0 < 2 ^ (ea - ez)) by (apply Z.pow_pos_nonneg; lia).
  assert (HdM : Z.pos (digits2_pos ma) + (ea - ez) <= Z.pos (digits2_pos M)).
  { pose proof (digits2_pos_bounds ma) as [Hlo _].
    pose proof (digits2_pos_bounds M) as [_ Hhi].
    destruct (Z.leb_spec (Z.pos (digits2_pos ma) + (ea - ez)) (Z.pos (digits2_pos M)))
      as [H | H]; [exact H |].
    assert (2 ^ Z.pos (digits2_pos M) <= 2 ^ (Z.pos (digits2_pos ma) - 1 + (ea - ez)))
      by (apply Z.pow_le_mono_r; lia).
    rewrite Z.pow_add_r in H0 by lia.
    assert (2 ^ (Z.pos (digits2_pos ma) - 1) * 2 ^ (ea - ez)
            <= Z.pos ma * 2 ^ (ea - ez)) by (apply Z.mul_le_mono_nonneg_r; lia).
    lia. }
  set (E := fexp 53 1024 (Z.pos (digits2_pos M) + ez)).
  assert (HE : ea <= E).
  { unfold E. rewrite <- Hca. apply fexp_mono. lia. }
  rewrite shl_align_same by lia.
  destruct (binary_round_aux_cases M ez) as (n1 & Hn1 & Hcases).
  cbv zeta in Hn1, Hcases. fold E in Hn1, Hcases.
  replace (Z.max ez E) with E in Hn1, Hcases by lia.
  (* the quotient is positive, and at least the left mantissa when the
     exponent is that of the left operand *)
  assert (Hq : 0 < Z.pos M / 2 ^ (E - ez) /\
               (E = ea -> Z.pos ma <= Z.pos M / 2 ^ (E - ez))).
  { split.
    - destruct (Z.eq_dec E ea) as [Heq | Hne].
      + rewrite Heq. apply Z.lt_le_trans with (Z.pos ma); [lia |].
        apply Z.div_le_lower_bound; lia.
      + assert (HEn : E = Z.pos (digits2_pos M) + ez - 53)
          by (unfold E in *; rewrite fexp_eq in *; lia).
        destruct (digits2_pos_div M (E - ez)) as (pq & Hpq & _); [lia |].
        rewrite Hpq. lia.
    - intros Heq. rewrite Heq. apply Z.div_le_lower_bound; lia. }
  destruct Hq as [Hq0 Hqa].
  destruct Hcases as [[Hz _] | (pn & m & e2 & Hpn & He2 & Hsame & Hd & _ & Hr)];
    [lia |].
  rewrite Hr. subst n1.
  assert (He2E : E <= e2) by lia.
  destruct (e2 <=? 1024 - 53); [| exact I].
  destruct (Z.eq_dec e2 ea) as [Heq | Hne]; [| left; lia].
  right. split; [exact Heq |].
  assert (HEa : E = ea) by lia.
  rewrite (Hsame ltac:(lia)). specialize (Hqa HEa). lia.
Qed.

(* ===================================================================== *)
(** * The order of binary64 values                                       *)
(* ===================================================================== *)

Lemma SFcompare_finite (m1 : positive) (e1 : Z) (m2 : positive) (e2 : Z) :
  SFcompare (S754_finite false m1 e1) (S754_finite false m2 e2)
  = Some (match e1 ?= e2 with
          | Lt => Lt
          | Gt => Gt
          | Eq => (m1 ?= m2)%positive
          end).
Proof. reflexivity. Qed.

Lemma SFleb_finite (m1 : positive) (e1 : Z) (m2 : positive) (e2 : Z) :
  SFleb (S754_finite false m1 e1) (S754_finite false m2 e2) = true <->
  e1 < e2 \/ (e1 = e2 /\ Z.pos m1 <= Z.pos m2).
Proof.
  unfold SFleb. rewrite SFcompare_finite.
  destruct (Z.compare_spec e1 e2) as [Heq | Hlt | Hgt].
  - destruct (Pos.compare_spec m1 m2) as [Hm | Hm | Hm]; split; intros H;
      try reflexivity; try discriminate; try lia.
  - split; [intros _; lia | reflexivity].
  - split; [discriminate | lia].
Qed.

Lemma SFltb_finite (m1 : positive) (e1 : Z) (m2 : positive) (e2 : Z) :
  SFltb (S754_finite false m1 e1) (S754_finite false m2 e2) = true <->
  e1 < e2 \/ (e1 = e2 /\ Z.pos m1 < Z.pos m2).
Proof.
  unfold SFltb. rewrite SFcompare_finite.
  destruct (Z.compare_spec e1 e2) as [Heq | Hlt | Hgt].
  - destruct (Pos.compare_spec m1 m2) as [Hm | Hm | Hm]; split; intros H;
      try reflexivity; try discriminate; try lia.
  - split; [intros _; lia | reflexivity].
  - split; [discriminate | lia].
Qed.

(** A number above zero is a positive finite number or [Infinity]. *)
Lemma number_positive (x : number) :
  number_ltb (number_of_Z 0) x = true ->
  x = Infinity \/ exists m e, x = S754_finite false m e.
Proof.
  destruct x as [s | [|] | | [|] m e]; cbn; try discriminate.
  - now left.
  - right. now exists m, e.
Qed.

(** A number that is at least zero is a zero, a positive finite number
    or [Infinity]. *)
Lemma number_nonnegative (x : number) :
  number_leb (number_of_Z 0) x = true ->
  (exists s, x = S754_zero s) \/ x = Infinity \/
  exists m e, x = S754_finite false m e.
Proof.
  destruct x as [s | [|] | | [|] m e]; cbn; try discriminate.
  - left. now exists s.
  - right. now left.
  - right. right. now exists m, e.
Qed.

Lemma Math_min_finite (m : positive) (e : Z) (my : positive) (ey : Z) :
  Math_min (S754_finite false m e) (S754_finite false my ey)
  = if SFleb (S754_finite false my ey) (S754_finite false m e)
    then S754_finite false my ey else S754_finite false m e.
Proof.
  unfold Math_min, SFleb. rewrite !SFcompare_finite.
  destruct (Z.compare_spec e ey), (Z.compare_spec ey e); try lia;
    destruct (Pos.compare_spec m my), (Pos.compare_spec my m); try lia;
    reflexivity.
Qed.

Lemma SFleb_finite_total (m : positive) (e : Z) (my : positive) (ey : Z) :
  SFleb (S754_finite false my ey) (S754_finite false m e) = false ->
  SFleb (S754_finite false m e) (S754_finite false my ey) = true.
Proof.
  unfold SFleb. rewrite !SFcompare_finite.
  destruct (Z.compare_spec e ey), (Z.compare_spec ey e); try lia;
    destruct (Pos.compare_spec m my), (Pos.compare_spec my m); try lia;
    (reflexivity || discriminate).
Qed.

(** [Math.min] of a positive number and a positive number. *)
Lemma Math_min_positive (x : number) (m : positive) (e : Z) (y : number) :
  x = Infinity \/ x = S754_finite false m e ->
  y = Infinity \/ (exists my ey, y = S754_finite false my ey) ->
  (Math_min x y = x \/ Math_min x y = y) /\
  number_leb (Math_min x y) y = true /\
  (number_leb y x = true -> Math_min x y = y).
Proof.
  intros Hx Hy. unfold number_leb.
  destruct Hx as [-> | ->], Hy as [-> | (my & ey & ->)].
  - cbn. repeat split; auto.
  - change (Math_min Infinity (S754_finite false my ey))
      with (S754_finite false my ey).
    split; [auto |]. split; [| auto].
    apply SFleb_finite. right. split; [reflexivity | lia].
  - cbn. repeat split; auto. discriminate.
  - rewrite Math_min_finite.
    destruct (SFleb (S754_finite false my ey) (S754_finite false m e)) eqn:Hle.
    + split; [auto |]. split; [| auto].
      apply SFleb_finite. right. split; [reflexivity | lia].
    + split; [auto |]. split; [| discriminate].
      now apply SFleb_finite_total.
Qed.

(* ===================================================================== *)
(** * The backoff delay                                                  *)
(* ===================================================================== *)

Lemma binary64_finite (m : positive) (e : Z) :
  binary64 (S754_finite false m e) = true ->
  canonical_mantissa 53 1024 m e = true /\ e <= 971.
Proof.
  unfold binary64. cbn [valid_binary]. unfold bounded.
  intros H. apply andb_prop in H as [Hc He]. apply Z.leb_le in He.
  split; [exact Hc | lia].
Qed.

(** The product of two positive binary64 values is a binary64 value: a
    zero when it underflows, [Infinity] when it overflows. *)
Lemma number_mul_positive (m1 : positive) (e1 : Z) (m2 : positive) (e2 : Z) :
  binary64 (S754_finite false m1 e1) = true ->
  binary64 (S754_finite false m2 e2) = true ->
  let r := number_mul (S754_finite false m1 e1) (S754_finite false m2 e2) in
  binary64 r = true /\
  (r = S754_zero false \/ r = Infinity \/ exists m e, r = S754_finite false m e).
Proof.
  intros H1 H2 r. apply binary64_finite in H1 as [H1 _], H2 as [H2 _].
  subst r. unfold number_mul, SFmul. cbn [xorb].
  split.
  - apply binary_round_aux_valid. now apply mul_enough_digits.
  - pose proof (binary_round_aux_sign (m1 * m2) (e1 + e2)) as Hs.
    destruct (binary_round_aux 53 1024 false (Z.pos (m1 * m2)) (e1 + e2) loc_Exact)
      as [[|] | [|] | | [|] m e]; try contradiction.
    + now left.
    + right. now left.
    + right. right. now exists m, e.
Qed.

(** [Math.random() * 0.3] is a zero or a positive finite number. *)
Lemma jitter_factor (rand : number) :
  binary64 rand = true ->
  number_leb (number_of_Z 0) rand = true ->
  number_ltb rand (number_of_Z 1) = true ->
  let x := number_mul rand three_tenths in
  (exists s, x = S754_zero s) \/ exists m e, x = S754_finite false m e.
Proof.
  intros Hvalid H0 H1 x. subst x.
  destruct (number_nonnegative rand H0) as [[s ->] | [-> | (m & e & ->)]].
  - left. exists (xorb s false). reflexivity.
  - discriminate H1.
  - assert (H03 : binary64 three_tenths = true) by reflexivity.
    destruct (number_mul_positive m e _ _ Hvalid H03) as [_ [Hz | [Hinf | Hfin]]].
    + left. exists false. exact Hz.
    + exfalso. revert Hinf. unfold number_mul, SFmul, three_tenths, Infinity.
      cbn [xorb]. apply binary64_finite in Hvalid as [Hc He].
      pose proof (canonical_mantissa_inv m e Hc) as (_ & Hd & _).
      apply binary_round_aux_no_overflow.
      * apply mul_enough_digits; [exact Hc | reflexivity].
      * pose proof (digits2_pos_mul m 5404319552844595) as [_ Hup].
        change (Z.pos (digits2_pos 5404319552844595)) with 53 in Hup. lia.
    + right. exact Hfin.
Qed.

(** [Math.random() * 0.3] is at most 0.3. *)
Lemma jitter_factor_le (rand : number) :
  binary64 rand = true ->
  number_leb (number_of_Z 0) rand = true ->
  number_ltb rand (number_of_Z 1) = true ->
  number_leb (number_mul rand three_tenths) three_tenths = true.
Proof.
  intros Hvalid H0 H1.
  destruct (number_nonnegative rand H0) as [[s ->] | [-> | (mr & er & ->)]].
  - now destruct s.
  - discriminate H1.
  - apply binary64_finite in Hvalid as [Hc _].
    pose proof (canonical_mantissa_inv mr er Hc) as (Her & Hdr & Hnorm).
    change (number_of_Z 1) with (S754_finite false 4503599627370496 (-52)) in H1.
    apply SFltb_finite in H1.
    pose proof (digits2_pos_bounds mr) as [Hlo Hhi].
    (* the draw is below 1: its exponent is at most -53 *)
    assert (Her53 : er <= -53).
    { destruct H1 as [H1 | [H1 Hm]]; [lia |]. exfalso.
      destruct Hnorm as [Hd | He]; [| lia]. rewrite Hd in Hlo.
      change (2 ^ (53 - 1)) with 4503599627370496 in Hlo. lia. }
    assert (Hone : Z.pos mr < 2 ^ (- er)).
    { apply Z.lt_le_trans with (2 ^ Z.pos (digits2_pos mr)); [exact Hhi |].
      apply Z.pow_le_mono_r; lia. }
    unfold number_mul, SFmul, three_tenths. cbn [xorb].
    set (mc := 5404319552844595%positive).
    pose proof (mul_enough_digits mr mc er (-54) Hc eq_refl) as Henough.
    pose proof (digits2_pos_mul mr mc) as [_ HdM].
    change (Z.pos (digits2_pos mc)) with 53 in HdM.
    destruct (binary_round_aux_cases (mr * mc) (er + -54))
      as (n1 & Hn1 & [[_ Hr] | H]); cbv zeta in *.
    + rewrite Hr. reflexivity.
    + destruct H as (pn & m & e2 & -> & He2 & Hsame & Hd & Hdiv & Hr). rewrite Hr.
      set (M := (mr * mc)%positive) in *. set (ex := er + -54) in *.
      set (e1 := Z.max ex (fexp 53 1024 (Z.pos (digits2_pos M) + ex))) in *.
      assert (He1 : e1 = fexp 53 1024 (Z.pos (digits2_pos M) + ex)) by (unfold e1; lia).
      rewrite fexp_eq in He1, He2.
      assert (Hmag : Z.pos (digits2_pos M) + ex <= -1).
      { assert (Z.pos (digits2_pos mr) <= - er); [| unfold ex; lia].
        destruct (Z.leb_spec (Z.pos (digits2_pos mr)) (- er)) as [H | H]; [exact H |].
        assert (2 ^ (- er) <= 2 ^ (Z.pos (digits2_pos mr) - 1))
          by (apply Z.pow_le_mono_r; lia). lia. }
      assert (Hpow : 0 < 2 ^ (e1 - ex)) by (apply Z.pow_pos_nonneg; lia).
      destruct (Z.eq_dec (Z.pos (digits2_pos M) + ex) (-1)) as [Htop | Hlow].
      * (* the binade of 0.3: the quotient is below the mantissa of 0.3 *)
        assert (He1' : e1 = -54) by lia.
        assert (Hshift : e1 - ex = - er) by (unfold ex; lia).
        assert (Hq : Z.pos M / 2 ^ (e1 - ex) <= Z.pos mc - 1).
        { rewrite Hshift. apply Z.lt_succ_r. apply Z.div_lt_upper_bound; [lia |].
          unfold M. rewrite Pos2Z.inj_mul.
          replace (Z.succ (Z.pos mc - 1)) with (Z.pos mc) by lia.
          assert (Z.pos mr * Z.pos mc < 2 ^ (- er) * Z.pos mc)
            by (apply Z.mul_lt_mono_pos_r; lia). lia. }
        assert (Hpn : Z.pos pn <= Z.pos mc) by lia.
        assert (Hdn : Z.pos (digits2_pos pn) <= 53).
        { pose proof (digits2_pos_le pn mc Hpn) as H.
          change (Z.pos (digits2_pos mc)) with 53 in H. exact H. }
        assert (He2' : e2 = e1) by lia.
        rewrite (Hsame He2'), He2', He1'. cbn [Z.leb Z.compare].
        apply SFleb_finite. right. split; [reflexivity | exact Hpn].
      * (* a binade below that of 0.3 *)
        assert (He1' : e1 <= -55) by lia.
        assert (Hdn : Z.pos (digits2_pos pn) + e1 <= -1).
        { destruct (Z.ltb_spec (e1 - ex) (Z.pos (digits2_pos M))) as [Hlt | Hge].
          - destruct (digits2_pos_div M (e1 - ex)) as (pq & Hq & Hdq); [lia |].
            rewrite Hq in Hn1. pose proof (digits2_pos_bounds pq) as [_ Hqhi].
            pose proof (Zdigits2_le_pow (Z.pos pn) (Z.pos (digits2_pos pq))) as Hb.
            cbn [Zdigits2] in Hb. lia.
          - assert (Hq0 : Z.pos M / 2 ^ (e1 - ex) = 0).
            { apply Z.div_small. pose proof (digits2_pos_bounds M) as [_ HMhi].
              assert (2 ^ Z.pos (digits2_pos M) <= 2 ^ (e1 - ex))
                by (apply Z.pow_le_mono_r; lia). lia. }
            rewrite Hq0 in Hn1. assert (pn = 1%positive) by lia. subst pn.
            cbn [digits2_pos]. lia. }
        assert (He2' : e2 <= -54) by lia.
        destruct (Z.leb_spec e2 (1024 - 53)) as [_ | Hbig]; [| lia].
        apply SFleb_finite.
        destruct (Z.eq_dec e2 (-54)) as [Heq | Hne]; [| left; lia].
        right. split; [exact Heq |].
        (* the rounding carried: the mantissa is a power of 2 *)
        assert (Hdpn : Z.pos (digits2_pos pn) = -1 - e1) by lia.
        assert (HdM2 : Z.pos (digits2_pos M) + ex <= -2) by lia.
        assert (Hlt : e1 - ex < Z.pos (digits2_pos M)).
        { destruct (Z.ltb_spec (e1 - ex) (Z.pos (digits2_pos M))) as [H | H];
            [exact H |]. exfalso.
          assert (Hq0 : Z.pos M / 2 ^ (e1 - ex) = 0).
          { apply Z.div_small. pose proof (digits2_pos_bounds M) as [_ HMhi].
            assert (2 ^ Z.pos (digits2_pos M) <= 2 ^ (e1 - ex))
              by (apply Z.pow_le_mono_r; lia). lia. }
          rewrite Hq0 in Hn1. assert (pn = 1%positive) by lia. subst pn.
          cbn [digits2_pos] in Hdpn. lia. }
        destruct (digits2_pos_div M (e1 - ex)) as (pq & Hq & Hdq); [lia |].
        rewrite Hq in Hn1.
        pose proof (digits2_pos_bounds pq) as [_ Hqhi].
        pose proof (digits2_pos_bounds pn) as [Hnlo _].
        assert (Hpow2 : Z.pos pn = 2 ^ (Z.pos (digits2_pos pn) - 1)).
        { assert (2 ^ Z.pos (digits2_pos pq) <= 2 ^ (Z.pos (digits2_pos pn) - 1))
            by (apply Z.pow_le_mono_r; lia). lia. }
        assert (Hm : Z.pos m = 2 ^ 52).
        { rewrite <- Hdiv, Hpow2.
          replace (Z.pos (digits2_pos pn) - 1) with (52 + (e2 - e1)) by lia.
          rewrite Z.pow_add_r by lia. apply Z.div_mul.
          apply Z.pow_nonzero; lia. }
        rewrite Hm. unfold mc. change (2 ^ 52) with 4503599627370496. lia.
Qed.

(** The sum of a positive binary64 value and a number that is not
    negative is [Infinity] or a positive finite number, not below the
    value. *)
Lemma number_add_ge (mb : positive) (eb : Z) (j : number) :
  binary64 (S754_finite false mb eb) = true ->
  (exists s, j = S754_zero s) \/ j = Infinity \/
  (exists m e, j = S754_finite false m e) ->
  let s := number_add (S754_finite false mb eb) j in
  s = Infinity \/
  exists ms es, s = S754_finite false ms es /\
                SFleb (S754_finite false mb eb) s = true.
Proof.
  intros Hvalid Hj s. subst s. apply binary64_finite in Hvalid as [Hc _].
  destruct Hj as [[sj ->] | [-> | (m & e & ->)]].
  - right. exists mb, eb. split; [reflexivity |].
    apply SFleb_finite. right. split; [reflexivity | lia].
  - now left.
  - pose proof (SFadd_ge_left mb eb m e Hc) as H. unfold number_add.
    destruct (SFadd 53 1024 (S754_finite false mb eb) (S754_finite false m e))
      as [[|] | [|] | | [|] ms es]; try contradiction.
    + now left.
    + right. exists ms, es. split; [reflexivity |]. apply SFleb_finite. lia.
Qed.

(** The delay when the exponential base is a zero. *)
Lemma backoff_zero_base (s : bool) (x maxDelay : number) :
  (exists sx, x = S754_zero sx) \/ (exists m e, x = S754_finite false m e) ->
  number_ltb (number_of_Z 0) maxDelay = true ->
  let base := S754_zero s in
  let d := Math_min (number_add base (number_mul x base)) maxDelay in
  number_leb d maxDelay = true /\
  number_leb base d = true /\
  number_leb maxDelay base = false.
Proof.
  intros Hx Hmax base d. subst d base.
  destruct (number_positive maxDelay Hmax) as [-> | (mm & em & ->)];
    destruct Hx as [[sx ->] | (m & e & ->)];
    destruct s; try destruct sx; repeat split.
Qed.

(** The delay when the exponential base is [Infinity]. *)
Lemma backoff_infinite_base (x maxDelay : number) :
  (exists sx, x = S754_zero sx) \/ (exists m e, x = S754_finite false m e) ->
  number_ltb (number_of_Z 0) maxDelay = true ->
  Math_min (number_add Infinity (number_mul x Infinity)) maxDelay
  = if number_eqb x (number_of_Z 0) then NaN else maxDelay.
Proof.
  intros Hx Hmax.
  destruct (number_positive maxDelay Hmax) as [-> | (mm & em & ->)];
    destruct Hx as [[sx ->] | (m & e & ->)]; try destruct sx; reflexivity.
Qed.

(** The delay when the exponential base is a positive binary64 value. *)
Lemma backoff_finite_base (mb : positive) (eb : Z) (x maxDelay : number) :
  binary64 (S754_finite false mb eb) = true ->
  (exists sx, x = S754_zero sx) \/ (exists m e, x = S754_finite false m e) ->
  number_ltb (number_of_Z 0) maxDelay = true ->
  let base := S754_finite false mb eb in
  let d := Math_min (number_add base (number_mul x base)) maxDelay in
  number_leb d maxDelay = true /\
  (number_leb base maxDelay = true -> number_leb base d = true) /\
  (number_leb maxDelay base = true -> d = maxDelay).
Proof.
  intros Hvalid Hx Hmax base d.
  assert (Hj : (exists s, number_mul x base = S754_zero s) \/
               number_mul x base = Infinity \/
               (exists m e, number_mul x base = S754_finite false m e)).
  { destruct Hx as [[sx ->] | (m & e & ->)].
    - left. exists (xorb sx false). reflexivity.
    - unfold base, number_mul, SFmul. cbn [xorb].
      pose proof (binary_round_aux_sign (m * mb) (e + eb)) as Hs.
      destruct (binary_round_aux 53 1024 false (Z.pos (m * mb)) (e + eb) loc_Exact)
        as [[|] | [|] | | [|] mj ej]; try contradiction.
      + left. now exists false.
      + right. now left.
      + right. right. now exists mj, ej. }
  destruct (number_add_ge mb eb (number_mul x base) Hvalid Hj) as [Hs | Hs];
    cbv zeta in Hs; fold base in Hs.
  - (* the sum overflows *)
    subst d. rewrite Hs.
    destruct (Math_min_positive Infinity 1 0 maxDelay) as (_ & Hle & Hmin);
      [now left | exact (number_positive maxDelay Hmax) |].
    destruct (number_positive maxDelay Hmax) as [-> | (mm & em & ->)].
    + repeat split.
    + split; [exact Hle |]. split; [| intros _; reflexivity].
      intros Hbase. rewrite Hmin by reflexivity. exact Hbase.
  - destruct Hs as (ms & es & Hs & Hge). subst d. rewrite Hs in *.
    destruct (Math_min_positive (S754_finite false ms es) ms es maxDelay)
      as (Hcases & Hle & Hmin);
      [now right | exact (number_positive maxDelay Hmax) |].
    split; [exact Hle |]. split.
    + intros Hbase. destruct Hcases as [-> | ->]; [exact Hge | exact Hbase].
    + intros Hbase. apply Hmin.
      destruct (number_positive maxDelay Hmax) as [-> | (mm & em & ->)];
        [discriminate Hbase |].
      unfold number_leb, base in *. apply SFleb_finite in Hbase, Hge.
      apply SFleb_finite. lia.
Qed.

Lemma run_calculateBackoffDelay (attempt : Z)
    (initialDelay maxDelay backoffFactor : number) (c : Config) :
  run (calculateBackoffDelay attempt initialDelay maxDelay backoffFactor) c
  = (Ok (backoff_delay
           (pow (oracle (world c)) backoffFactor (number_of_Z (attempt - 1)))
           (entropy (oracle (world c)) (drawn (world c)))
           initialDelay maxDelay),
     on_world (set_drawn (S (drawn (world c)))) c).
Proof.
  unfold calculateBackoffDelay. rewrite !run_bind, !run_perform.
  cbn [handle fst snd world pool]. rewrite run_bind, run_perform.
  cbn [handle fst snd world pool]. destruct c; reflexivity.
Qed.

(** C4 (amended).  [calculateBackoffDelay] computes on binary64 values.
    Take a positive finite [initialDelay], a positive [maxDelay], a draw
    of [Math.random()] in [0, 1), and an engine whose [Math.pow] answers
    with a binary64 value that is not negative and not NaN, as it does
    for a positive factor.  The exponential base is the rounded product
    [initialDelay * Math.pow(backoffFactor, attempt - 1)]; it is a
    binary64 value, finite or [Infinity].  The jitter is the base times
    the factor [Math.random() * 0.3], which lies between 0 and 0.3, and
    the delay is [Math.min(base + jitter, maxDelay)].  While the base is
    finite, the
    delay is a number at most [maxDelay]; it is at least the base
    whenever the base does not exceed [maxDelay]: the jitter only adds;
    and it is [maxDelay] whenever the base is [maxDelay] or more: the
    clamp cuts.  Once the base is [Infinity] (the power or the product
    overflows), the delay is [maxDelay], unless [Math.random() * 0.3] is
    zero: then it is NaN. *)
Theorem calculateBackoffDelay_bounds (attempt : Z)
    (initialDelay maxDelay backoffFactor : number) (c : Config) :
  let w := world c in
  let power := pow (oracle w) backoffFactor (number_of_Z (attempt - 1)) in
  let rand := entropy (oracle w) (drawn w) in
  let base := number_mul initialDelay power in
  let factor := number_mul rand three_tenths in
  binary64 initialDelay = true -> binary64 power = true -> binary64 rand = true ->
  number_ltb (number_of_Z 0) initialDelay = true ->
  number_ltb initialDelay Infinity = true ->
  number_ltb (number_of_Z 0) maxDelay = true ->
  number_leb (number_of_Z 0) power = true ->
  number_leb (number_of_Z 0) rand = true ->
  number_ltb rand (number_of_Z 1) = true ->
  exists d : number,
    run (calculateBackoffDelay attempt initialDelay maxDelay backoffFactor) c
    = (Ok d, on_world (set_drawn (S (drawn w))) c) /\
    d = Math_min (number_add base (number_mul factor base)) maxDelay /\
    number_leb (number_of_Z 0) factor = true /\
    number_leb factor three_tenths = true /\
    binary64 base = true /\
    (number_ltb base Infinity = true \/ base = Infinity) /\
    (number_ltb base Infinity = true ->
       number_leb d maxDelay = true /\
       (number_leb base maxDelay = true -> number_leb base d = true) /\
       (number_leb maxDelay base = true -> d = maxDelay)) /\
    (base = Infinity ->
       d = if number_eqb factor (number_of_Z 0) then NaN else maxDelay).
Proof.
  intros w power rand base factor Hvi Hvp Hvr Hi0 Hifin Hmax Hp0 Hr0 Hr1.
  eexists. split; [apply run_calculateBackoffDelay |].
  fold w power rand. unfold backoff_delay. fold base factor.
  split; [reflexivity |].
  pose proof (jitter_factor_le rand Hvr Hr0 Hr1) as Hle. fold factor in Hle.
  pose proof (jitter_factor rand Hvr Hr0 Hr1) as Hx. cbv zeta in Hx.
  fold factor in Hx.
  split; [destruct Hx as [[s ->] | (m & e & ->)]; [now destruct s | reflexivity] |].
  split; [exact Hle |]. clear Hle.
  set (x := factor) in *.
  destruct (number_positive initialDelay Hi0) as [Hi | (mi & ei & Hi)];
    [rewrite Hi in Hifin; discriminate Hifin |].
  (* the exponential base: a zero, Infinity or a positive binary64 value *)
  assert (Hbase : binary64 base = true /\
                  ((exists s, base = S754_zero s) \/ base = Infinity \/
                   exists m e, base = S754_finite false m e)).
  { unfold base. rewrite Hi in *.
    destruct (number_nonnegative power Hp0) as [[s ->] | [-> | (mp & ep & Hp)]].
    - split; [reflexivity |]. left. exists (xorb false s). reflexivity.
    - split; [reflexivity |]. right. now left.
    - rewrite Hp in *.
      destruct (number_mul_positive mi ei mp ep Hvi Hvp) as [Hv [Hz | [Hinf | Hfin]]].
      + split; [exact Hv |]. left. now exists false.
      + split; [exact Hv |]. right. now left.
      + split; [exact Hv |]. right. now right. }
  destruct Hbase as [Hvb Hbase]. split; [exact Hvb |].
  destruct Hbase as [[s Hb] | [Hb | (mb & eb & Hb)]]; rewrite Hb in *.
  - split; [now left |]. split; [| destruct s; discriminate].
    intros _. destruct (backoff_zero_base s x maxDelay Hx Hmax) as (Hle & Hge & Hlt).
    split; [exact Hle |]. split; [intros _; exact Hge |].
    intros H. rewrite Hlt in H. discriminate H.
  - split; [now right |]. split; [discriminate |].
    intros _. now apply backoff_infinite_base.
  - split; [now left |]. split; [| discriminate].
    intros _. now apply backoff_finite_base.
Qed.

Lemma calculateBackoffDelay_bounds_witness :
  let initialDelay := number_of_Z 1000 in
  let maxDelay := number_of_Z 10000 in
  let backoffFactor := number_of_Z 2 in
  let c := Example.config_half in
  let w := world c in
  let power := pow (oracle w) backoffFactor (number_of_Z (2 - 1)) in
  let rand := entropy (oracle w) (drawn w) in
  let base := number_mul initialDelay power in
  let factor := number_mul rand three_tenths in
  binary64 initialDelay = true /\ binary64 power = true /\ binary64 rand = true /\
  number_ltb (number_of_Z 0) initialDelay = true /\
  number_ltb initialDelay Infinity = true /\
  number_ltb (number_of_Z 0) maxDelay = true /\
  number_leb (number_of_Z 0) power = true /\
  number_leb (number_of_Z 0) rand = true /\
  number_ltb rand (number_of_Z 1) = true /\
  base = number_of_Z 2000 /\
  exists d : number,
    fst (run (calculateBackoffDelay 2 initialDelay maxDelay backoffFactor) c) = Ok d /\
    number_leb factor three_tenths = true /\
    number_leb d maxDelay = true /\
    number_leb base d = true.
Proof.
  intros initialDelay maxDelay backoffFactor c w power rand base factor.
  assert (Hvi : binary64 initialDelay = true) by reflexivity.
  assert (Hvp : binary64 power = true) by (vm_compute; reflexivity).
  assert (Hvr : binary64 rand = true) by reflexivity.
  assert (Hi0 : number_ltb (number_of_Z 0) initialDelay = true) by reflexivity.
  assert (Hifin : number_ltb initialDelay Infinity = true) by reflexivity.
  assert (Hmax : number_ltb (number_of_Z 0) maxDelay = true) by reflexivity.
  assert (Hp0 : number_leb (number_of_Z 0) power = true) by (vm_compute; reflexivity).
  assert (Hr0 : number_leb (number_of_Z 0) rand = true) by reflexivity.
  assert (Hr1 : number_ltb rand (number_of_Z 1) = true) by reflexivity.
  assert (Hbase : base = number_of_Z 2000) by (vm_compute; reflexivity).
  assert (Hfinite : number_ltb base Infinity = true) by (vm_compute; reflexivity).
  assert (Hbelow : number_leb base maxDelay = true) by (vm_compute; reflexivity).
  repeat (split; [assumption |]).
  destruct (calculateBackoffDelay_bounds 2 initialDelay maxDelay backoffFactor c
              Hvi Hvp Hvr Hi0 Hifin Hmax Hp0 Hr0 Hr1)
    as (d & Hrun & _ & _ & Hfactor & _ & _ & Hfin & _).
  destruct (Hfin Hfinite) as (Hle & Hge & _).
  exists d. split; [now rewrite Hrun |]. split; [exact Hfactor |].
  split; [exact Hle | exact (Hge Hbelow)].
Defined.

(** With the default delays and an engine whose powers of 2 are exact,
    the fifth attempt has base 16000 and is clamped to 10000: the delay
    is below the base.  At attempt 1025 the power is [Infinity], and with
    a draw of 0 the delay is NaN: it is not at most [maxDelay]. *)
Lemma calculateBackoffDelay_below_base :
  let initialDelay := number_of_Z 1000 in
  let maxDelay := number_of_Z 10000 in
  let backoffFactor := number_of_Z 2 in
  let c := Example.config_of Example.unreachable (Example.record pending 0) in
  let delay attempt :=
    fst (run (calculateBackoffDelay attempt initialDelay maxDelay backoffFactor) c) in
  entropy (oracle (world c)) (drawn (world c)) = number_of_Z 0 /\
  number_mul initialDelay (pow (oracle (world c)) backoffFactor (number_of_Z (5 - 1)))
  = number_of_Z 16000 /\
  delay 5 = Ok (number_of_Z 10000) /\
  number_leb (number_of_Z 16000) (number_of_Z 10000) = false /\
  pow (oracle (world c)) backoffFactor (number_of_Z (1025 - 1)) = Infinity /\
  delay 1025 = Ok NaN /\
  number_leb NaN maxDelay = false.
Proof. vm_compute. repeat split. Qed.

(* ===================================================================== *)
(** * [retryWithBackoff]                                                 *)
(* ===================================================================== *)

Lemma run_backoff_pause (cfg : RetryConfig) (attempt : Z) (c : Config) :
  run (backoff_pause cfg attempt) c = (Ok tt, on_world (paused cfg attempt) c).
Proof.
  unfold backoff_pause. rewrite run_bind, run_calculateBackoffDelay.
  unfold sleep. rewrite run_perform. reflexivity.
Qed.

Section Retry.
Context {T : Type} (operation : M T) (cfg : RetryConfig) (c : Config).

Lemma run_pause_then {B : Type} (attempt : Z) (rest : M B) (c1 : Config) :
  run (delay <- calculateBackoffDelay attempt (initialDelay cfg)
                  (maxDelay cfg) (backoffFactor cfg) ;;
       sleep delay ;; rest) c1
  = run rest (snd (run (backoff_pause cfg attempt) c1)).
Proof.
  unfold backoff_pause. rewrite !run_bind, !run_calculateBackoffDelay.
  unfold sleep. rewrite !run_bind, !run_perform. reflexivity.
Qed.

Lemma retry_while_first_success (n : nat) :
  maxRetries cfg = Z.of_nat n ->
  forall (fuel a : nat) lastError (k : nat) (v : T),
    (a + fuel = n + 1)%nat -> (a <= k <= n)%nat ->
    (forall j, (a <= j < k)%nat ->
               exists e, fst (invocation operation cfg j c) = Thrown e) ->
    fst (invocation operation cfg k c) = Ok v ->
    run (retry_while fuel operation cfg lastError (Z.of_nat a))
        (before_invocation operation cfg a c)
    = (Ok v, snd (invocation operation cfg k c)).
Proof.
  intros Hn. induction fuel as [| fuel IH]; intros a lastError k v Hfuel Hak Hfail Hok.
  - lia.
  - cbn [retry_while]. rewrite Hn.
    destruct (Z.leb_spec (Z.of_nat a) (Z.of_nat n)) as [_ | Hlt]; [| lia].
    rewrite run_try_catch.
    change (run (await operation) (before_invocation operation cfg a c))
      with (invocation operation cfg a c).
    destruct (Nat.eq_dec k a) as [-> | Hne].
    + destruct (invocation operation cfg a c) as [r c1]. cbn [fst] in Hok.
      subst r. reflexivity.
    + destruct (Hfail a ltac:(lia)) as [e He].
      destruct (invocation operation cfg a c) as [r c1] eqn:Hinv.
      cbn [fst] in He. subst r. cbv zeta.
      destruct (Z.gtb_spec (Z.of_nat a + 1) (Z.of_nat n)) as [Hgt | _]; [lia |].
      rewrite run_pause_then.
      specialize (IH (S a) (Some (toError e)) k v ltac:(lia) ltac:(lia)).
      replace (Z.of_nat a + 1) with (Z.of_nat (S a)) by lia.
      cbn [before_invocation] in IH. 
      change (run (await operation) (before_invocation operation cfg a c))
        with (invocation operation cfg a c) in IH.
      rewrite Hinv in IH. cbn [snd] in IH.
      apply IH; [| exact Hok].
      intros j Hj. apply Hfail. lia.
Qed.

Lemma retry_while_all_fail (n : nat) :
  maxRetries cfg = Z.of_nat n ->
  forall (fuel a : nat) lastError (e : JsValue),
    (a + fuel = n + 1)%nat -> (a <= n)%nat ->
    (forall j, (a <= j < n)%nat ->
               exists e', fst (invocation operation cfg j c) = Thrown e') ->
    fst (invocation operation cfg n c) = Thrown e ->
    run (retry_while fuel operation cfg lastError (Z.of_nat a))
        (before_invocation operation cfg a c)
    = (Thrown (toError e), snd (invocation operation cfg n c)).
Proof.
  intros Hn. induction fuel as [| fuel IH]; intros a lastError e Hfuel Han Hfail Hlast.
  - lia.
  - cbn [retry_while]. rewrite Hn.
    destruct (Z.leb_spec (Z.of_nat a) (Z.of_nat n)) as [_ | Hlt]; [| lia].
    rewrite run_try_catch.
    change (run (await operation) (before_invocation operation cfg a c))
      with (invocation operation cfg a c).
    destruct (Nat.eq_dec a n) as [-> | Hne].
    + destruct (invocation operation cfg n c) as [r c1]. cbn [fst] in Hlast.
      subst r. cbv zeta.
      destruct (Z.gtb_spec (Z.of_nat n + 1) (Z.of_nat n)) as [_ | Hle]; [| lia].
      reflexivity.
    + destruct (Hfail a ltac:(lia)) as [e' He'].
      destruct (invocation operation cfg a c) as [r c1] eqn:Hinv.
      cbn [fst] in He'. subst r. cbv zeta.
      destruct (Z.gtb_spec (Z.of_nat a + 1) (Z.of_nat n)) as [Hgt | _]; [lia |].
      rewrite run_pause_then.
      specialize (IH (S a) (Some (toError e')) e ltac:(lia) ltac:(lia)).
      replace (Z.of_nat a + 1) with (Z.of_nat (S a)) by lia.
      cbn [before_invocation] in IH.
      change (run (await operation) (before_invocation operation cfg a c))
        with (invocation operation cfg a c) in IH.
      rewrite Hinv in IH. cbn [snd] in IH.
      apply IH; [| exact Hlast].
      intros j Hj. apply Hfail. lia.
Qed.

Lemma first_success_or_all_fail (n : nat) :
  (exists k v, (k <= n)%nat /\
     fst (invocation operation cfg k c) = Ok v /\
     forall j, (j < k)%nat -> exists e, fst (invocation operation cfg j c) = Thrown e) \/
  (forall j, (j <= n)%nat -> exists e, fst (invocation operation cfg j c) = Thrown e).
Proof.
  induction n as [| n IH].
  - destruct (fst (invocation operation cfg 0 c)) as [v | e] eqn:H0.
    + left. exists 0%nat, v. split; [lia |]. split; [exact H0 |]. intros j Hj. lia.
    + right. intros j Hj. replace j with 0%nat by lia. now exists e.
  - destruct IH as [(k & v & Hk & Hok & Hbefore) | Hall].
    + left. exists k, v. split; [lia |]. split; assumption.
    + destruct (fst (invocation operation cfg (S n) c)) as [v | e] eqn:Hlast.
      * left. exists (S n), v. split; [lia |]. split; [exact Hlast |].
        intros j Hj. apply Hall. lia.
      * right. intros j Hj. destruct (Nat.eq_dec j (S n)) as [-> | Hne].
        -- now exists e.
        -- apply Hall. lia.
Qed.
End Retry.

Lemma retry_while_fetch_count (f : File) (t : MediaType) (cfg : RetryConfig) :
  forall (fuel : nat) lastError attempt (c : Config),
    (fetched (world (snd (run (retry_while fuel (settle (Fetch f t)) cfg
                                 lastError attempt) c)))
     <= fetched (world c) + fuel)%nat.
Proof.
  induction fuel as [| fuel IH]; intros lastError attempt c.
  - cbn [retry_while]. destruct (attempt <=? maxRetries cfg); cbn; lia.
  - cbn [retry_while]. destruct (attempt <=? maxRetries cfg); [| cbn; lia].
    rewrite run_try_catch, run_await, run_settle. cbn [handle fst snd world pool].
    destruct (network (oracle (world c)) (fetched (world c))) as [v | e].
    + cbn. lia.
    + cbv zeta. destruct (attempt + 1 >? maxRetries cfg); [cbn; lia |].
      rewrite run_pause_then, run_backoff_pause. cbn [snd].
      etransitivity; [apply IH |]. cbn. lia.
Qed.

(** C9.  With [maxRetries = n >= 0], [retryWithBackoff] runs the
    operation at most [n + 1] times.  If invocation [k <= n] (counted
    from 0) is the first to succeed, its value is returned and the run
    ends in the configuration that invocation left: nothing is invoked or
    slept afterwards.  If all [n + 1] invocations fail, the run ends right
    after the last one and throws its error (made an [Error] if it was not
    one).  One of the two always is the case: every run ends with an
    invocation numbered [k <= n].  Counted on [fetch], an operation that is
    one network call is called at most [n + 1] times. *)
Theorem retryWithBackoff_invocations {T : Type} (operation : M T)
    (config : PartialRetryConfig) (c : Config) :
  0 <= maxRetries (finalConfig config) ->
  let cfg := finalConfig config in
  let n := Z.to_nat (maxRetries cfg) in
  (forall (k : nat) (v : T),
      (k <= n)%nat ->
      (forall j, (j < k)%nat -> exists e, fst (invocation operation cfg j c) = Thrown e) ->
      fst (invocation operation cfg k c) = Ok v ->
      run (retryWithBackoff operation config) c
      = (Ok v, snd (invocation operation cfg k c))) /\
  (forall e : JsValue,
      (forall j, (j < n)%nat -> exists e', fst (invocation operation cfg j c) = Thrown e') ->
      fst (invocation operation cfg n c) = Thrown e ->
      run (retryWithBackoff operation config) c
      = (Thrown (toError e), snd (invocation operation cfg n c))) /\
  (exists k : nat,
      (k <= n)%nat /\
      snd (run (retryWithBackoff operation config) c)
        = snd (invocation operation cfg k c) /\
      match fst (invocation operation cfg k c) with
      | Ok v => fst (run (retryWithBackoff operation config) c) = Ok v
      | Thrown e =>
          k = n /\
          fst (run (retryWithBackoff operation config) c) = Thrown (toError e)
      end) /\
  (forall (f : File) (t : MediaType),
      (fetched (world (snd (run (retryWithBackoff (settle (Fetch f t)) config) c)))
       <= fetched (world c) + (n + 1))%nat).
Proof.
  intros Hmax cfg n.
  assert (Hn : maxRetries cfg = Z.of_nat n) by (unfold n, cfg; lia).
  assert (Hfuel : Z.to_nat (maxRetries cfg + 1) = (n + 1)%nat) by (unfold n, cfg; lia).
  assert (Hfirst : forall (k : nat) (v : T),
      (k <= n)%nat ->
      (forall j, (j < k)%nat -> exists e, fst (invocation operation cfg j c) = Thrown e) ->
      fst (invocation operation cfg k c) = Ok v ->
      run (retryWithBackoff operation config) c
      = (Ok v, snd (invocation operation cfg k c))).
  { intros k v Hk Hfail Hok. unfold retryWithBackoff. fold cfg. rewrite Hfuel.
    apply (retry_while_first_success operation cfg c n Hn (n + 1) 0 None k v);
      [lia | lia | | exact Hok].
    intros j Hj. apply Hfail. lia. }
  assert (Hlast : forall e : JsValue,
      (forall j, (j < n)%nat -> exists e', fst (invocation operation cfg j c) = Thrown e') ->
      fst (invocation operation cfg n c) = Thrown e ->
      run (retryWithBackoff operation config) c
      = (Thrown (toError e), snd (invocation operation cfg n c))).
  { intros e Hfail Hthrown. unfold retryWithBackoff. fold cfg. rewrite Hfuel.
    apply (retry_while_all_fail operation cfg c n Hn (n + 1) 0 None e);
      [lia | lia | | exact Hthrown].
    intros j Hj. apply Hfail. lia. }
  split; [exact Hfirst |]. split; [exact Hlast |]. split.
  - destruct (first_success_or_all_fail operation cfg c n)
      as [(k & v & Hk & Hok & Hbefore) | Hall].
    + exists k. split; [exact Hk |].
      rewrite (Hfirst k v Hk Hbefore Hok), Hok. split; reflexivity.
    + exists n. split; [lia |]. destruct (Hall n (Nat.le_refl n)) as [e He].
      rewrite (Hlast e (fun j Hj => Hall j (Nat.lt_le_incl _ _ Hj)) He), He.
      repeat split.
  - intros f t. unfold retryWithBackoff. fold cfg. rewrite Hfuel.
    apply retry_while_fetch_count.
Qed.

(* ===================================================================== *)
(** * [transfer] and [processUpload], run without interruption           *)
(* ===================================================================== *)

Lemma same_queue_refl c : same_queue c c.
Proof. repeat split. Qed.

Lemma same_queue_trans c1 c2 c3 :
  same_queue c1 c2 -> same_queue c2 c3 -> same_queue c1 c3.
Proof.
  intros (H1 & H2 & H3 & H4 & H5 & H6 & H7) (K1 & K2 & K3 & K4 & K5 & K6 & K7).
  repeat split; congruence.
Qed.

Lemma retry_while_same_queue (upload : PendingUpload) (cfg : RetryConfig) :
  forall (fuel : nat) lastError attempt (c : Config),
    same_queue c (snd (run (retry_while fuel (await (uploadFile upload)) cfg
                              lastError attempt) c)).
Proof.
  induction fuel as [| fuel IH]; intros lastError attempt c.
  - cbn [retry_while]. destruct (attempt <=? maxRetries cfg); apply same_queue_refl.
  - cbn [retry_while]. destruct (attempt <=? maxRetries cfg); [| apply same_queue_refl].
    rewrite run_try_catch, !run_await. unfold uploadFile.
    rewrite run_bind, run_settle. cbn [handle fst snd world pool].
    destruct (network (oracle (world c)) (fetched (world c))) as [v | e].
    + repeat split.
    + cbv zeta. destruct (attempt + 1 >? maxRetries cfg); [repeat split |].
      rewrite run_pause_then, run_backoff_pause. cbn [snd].
      eapply same_queue_trans; [| apply IH]. repeat split.
Qed.

Lemma transfer_same_queue (upload : PendingUpload) (c : Config) :
  same_queue c (snd (run (transfer upload) c)).
Proof. apply retry_while_same_queue. Qed.

Lemma retry_while_oracle (upload : PendingUpload) (cfg : RetryConfig) :
  forall (fuel : nat) lastError attempt (c : Config),
    oracle (world (snd (run (retry_while fuel (await (uploadFile upload)) cfg
                              lastError attempt) c)))
    = oracle (world c).
Proof.
  induction fuel as [| fuel IH]; intros lastError attempt c.
  - cbn [retry_while]. destruct (attempt <=? maxRetries cfg); reflexivity.
  - cbn [retry_while]. destruct (attempt <=? maxRetries cfg); [| reflexivity].
    rewrite run_try_catch, !run_await. unfold uploadFile.
    rewrite run_bind, run_settle. cbn [handle fst snd world pool].
    destruct (network (oracle (world c)) (fetched (world c))) as [v | e].
    + reflexivity.
    + cbv zeta. destruct (attempt + 1 >? maxRetries cfg); [reflexivity |].
      rewrite run_pause_then, run_backoff_pause. cbn [snd].
      rewrite IH. reflexivity.
Qed.

Lemma transfer_oracle (upload : PendingUpload) (c : Config) :
  oracle (world (snd (run (transfer upload) c))) = oracle (world c).
Proof. apply retry_while_oracle. Qed.

Lemma transfer_first_response (upload : PendingUpload) (c : Config)
    (response : Response.t) :
  network (oracle (world c)) (fetched (world c)) = Ok response ->
  run (transfer upload) c =
  (Ok response,
   on_world (fun w => log (EvFetch (file upload) (type upload))
                        (set_fetched (S (fetched w)) w)) c).
Proof.
  intros Hnet. unfold transfer, retryWithBackoff.
  change (Z.to_nat (maxRetries (finalConfig UPLOAD_RETRY_CONFIG) + 1)) with 4%nat.
  cbn [retry_while]. 
  change (0 <=? maxRetries (finalConfig UPLOAD_RETRY_CONFIG)) with true. cbv iota.
  rewrite run_try_catch, !run_await. unfold uploadFile.
  rewrite run_bind, run_settle. cbn [handle fst snd world pool].
  rewrite Hnet. reflexivity.
Qed.


Lemma run_uploadFile (upload : PendingUpload) (c : Config) :
  run (await (await (uploadFile upload))) c =
  (network (oracle (world c)) (fetched (world c)),
   on_world (fetched_once upload) c).
Proof.
  rewrite !run_await. unfold uploadFile. rewrite run_bind, run_settle.
  cbn [handle fst snd]. destruct (network _ _); reflexivity.
Qed.

Lemma run_retry_while_ok {T : Type} fuel (operation : M T) cfg lastError attempt c v c1 :
  attempt <= maxRetries cfg ->
  run (await operation) c = (Ok v, c1) ->
  run (retry_while (S fuel) operation cfg lastError attempt) c = (Ok v, c1).
Proof.
  intros Hle Hrun. cbn [retry_while].
  destruct (Z.leb_spec attempt (maxRetries cfg)); [| lia].
  rewrite run_try_catch, Hrun. reflexivity.
Qed.

Lemma run_retry_while_last {T : Type} fuel (operation : M T) cfg lastError attempt c e c1 :
  attempt = maxRetries cfg ->
  run (await operation) c = (Thrown e, c1) ->
  run (retry_while (S fuel) operation cfg lastError attempt) c
  = (Thrown (toError e), c1).
Proof.
  intros Heq Hrun. cbn [retry_while].
  destruct (Z.leb_spec attempt (maxRetries cfg)); [| lia].
  rewrite run_try_catch, Hrun. cbv zeta.
  destruct (Z.gtb_spec (attempt + 1) (maxRetries cfg)); [reflexivity | lia].
Qed.

Lemma run_retry_while_again {T : Type} fuel (operation : M T) cfg lastError attempt c e c1 :
  attempt < maxRetries cfg ->
  run (await operation) c = (Thrown e, c1) ->
  run (retry_while (S fuel) operation cfg lastError attempt) c
  = run (retry_while fuel operation cfg (Some (toError e)) (attempt + 1))
        (on_world (paused cfg (attempt + 1)) c1).
Proof.
  intros Hlt Hrun. cbn [retry_while].
  destruct (Z.leb_spec attempt (maxRetries cfg)); [| lia].
  rewrite run_try_catch, Hrun. cbv zeta.
  destruct (Z.gtb_spec (attempt + 1) (maxRetries cfg)); [lia |].
  rewrite run_pause_then, run_backoff_pause. reflexivity.
Qed.

Lemma transfer_all_rejected (upload : PendingUpload) (c : Config)
    (e0 e1 e2 e3 : JsValue) :
  let w := world c in
  network (oracle w) (fetched w) = Thrown e0 ->
  network (oracle w) (fetched w + 1)%nat = Thrown e1 ->
  network (oracle w) (fetched w + 2)%nat = Thrown e2 ->
  network (oracle w) (fetched w + 3)%nat = Thrown e3 ->
  let c2 := snd (run (transfer upload) c) in
  fst (run (transfer upload) c) = Thrown (toError e3) /\
  fetched (world c2) = (fetched w + 4)%nat /\
  sleeps (trace (world c2)) =
    sleeps (trace w) ++ [upload_delay w 0; upload_delay w 1; upload_delay w 2].
Proof.
  intros w H0 H1 H2 H3.
  replace (fetched w + 1)%nat with (S (fetched w)) in H1 by lia.
  replace (fetched w + 2)%nat with (S (S (fetched w))) in H2 by lia.
  replace (fetched w + 3)%nat with (S (S (S (fetched w)))) in H3 by lia.
  unfold upload_delay.
  replace (drawn w + 0)%nat with (drawn w) by lia.
  replace (drawn w + 1)%nat with (S (drawn w)) by lia.
  replace (drawn w + 2)%nat with (S (S (drawn w))) by lia.
  subst w. cbv zeta.
  unfold transfer, retryWithBackoff.
  change (Z.to_nat (maxRetries (finalConfig UPLOAD_RETRY_CONFIG) + 1)) with 4%nat.
  change (finalConfig UPLOAD_RETRY_CONFIG) with
    (mkRetryConfig 3 (number_of_Z 1000) (number_of_Z 10000) (number_of_Z 2)).
  erewrite run_retry_while_again;
    [| cbn; lia | rewrite run_uploadFile; rewrite H0; reflexivity].
  erewrite run_retry_while_again;
    [| cbn; lia | rewrite run_uploadFile; cbn; rewrite H1; reflexivity].
  erewrite run_retry_while_again;
    [| cbn; lia | rewrite run_uploadFile; cbn; rewrite H2; reflexivity].
  erewrite run_retry_while_last;
    [| cbn; lia | rewrite run_uploadFile; cbn; rewrite H3; reflexivity].
  cbn. repeat split; [lia | rewrite <- !app_assoc; reflexivity].
Qed.

Lemma processUpload_catch_unfold (upload : PendingUpload) (err : JsValue) :
  processUpload_catch upload err =
  (perform (DbUpdate (as_failed upload err)) ;;
   notifyProgress (as_failed upload err) ;;
   perform (ConsoleError "processUpload") ;;
   if retryCount (as_failed upload err) >=? 5
   then perform (DbDelete (id upload))
   else ret tt).
Proof. reflexivity. Qed.

Lemma run_processUpload_catch (upload : PendingUpload) (err : JsValue) (c : Config) :
  run (processUpload_catch upload err) c
  = (Ok tt, on_world (after_failure upload err) c).
Proof.
  rewrite processUpload_catch_unfold. unfold after_failure.
  generalize (as_failed upload err). intros f.
  rewrite run_bind, run_perform. cbn [handle fst snd world pool].
  rewrite run_bind, run_notifyProgress.
  rewrite run_bind, run_perform. cbn [handle fst snd world pool on_world].
  destruct (retryCount f >=? 5).
  - rewrite run_perform. reflexivity.
  - reflexivity.
Qed.

Lemma run_processUpload (upload : PendingUpload) (c : Config) :
  run (processUpload upload) c =
  let upload1 := with_status uploading upload in
  let (r, c2) := run (transfer upload1) (on_world (marked upload) c) in
  (Ok tt,
   on_world (match attempt_error r with
             | None => after_success upload1
             | Some e => after_failure upload1 e
             end) c2).
Proof.
  unfold processUpload. cbv zeta.
  rewrite run_bind, run_perform. cbn [handle fst snd world pool].
  rewrite run_bind, run_perform. cbn [handle fst snd world pool].
  rewrite run_bind, run_notifyProgress. cbn [on_world world pool].
  rewrite run_try_catch, run_bind, run_await.
  match goal with |- context [run (transfer _) ?c1] =>
    change c1 with (on_world (marked upload) c) end.
  destruct (run (transfer (with_status uploading upload)) (on_world (marked upload) c))
    as [[response | e] c2].
  - cbn [attempt_error]. unfold processUpload_response.
    destruct (Response.ok response).
    + rewrite run_bind, run_perform. cbn [handle fst snd world pool].
      rewrite run_notifyProgress. reflexivity.
    + cbn [throw run]. apply run_processUpload_catch.
  - cbn [attempt_error]. apply run_processUpload_catch.
Qed.

(* ===================================================================== *)
(** * Outcomes of one drain iteration                                    *)
(* ===================================================================== *)


Lemma sleeps_notify_trace (upload : PendingUpload) (cbs : list Callback) :
  forall tr, sleeps (notify_trace upload cbs tr) = sleeps tr.
Proof.
  induction cbs as [| cb cbs IH]; intros tr; cbn [notify_trace]; [reflexivity |].
  rewrite IH. destruct (cb_throws cb); reflexivity.
Qed.

Lemma In_notify_trace (ev : Event) (upload : PendingUpload) (cbs : list Callback) :
  forall tr, List.In ev tr -> List.In ev (notify_trace upload cbs tr).
Proof.
  induction cbs as [| cb cbs IH]; intros tr Hin; cbn [notify_trace]; [exact Hin |].
  apply IH. destruct (cb_throws cb); cbn; auto.
Qed.

Lemma sleeps_notified (upload : PendingUpload) (w : World) :
  sleeps (trace (notified upload w)) = sleeps (trace w).
Proof. unfold notified. now rewrite trace_notified_from, sleeps_notify_trace. Qed.

Lemma In_notified (ev : Event) (upload : PendingUpload) (w : World) :
  List.In ev (trace w) -> List.In ev (trace (notified upload w)).
Proof.
  intros Hin. unfold notified. rewrite trace_notified_from.
  now apply In_notify_trace.
Qed.

Lemma oracle_marked (upload : PendingUpload) (w : World) :
  oracle (marked upload w) = oracle w.
Proof. unfold marked. now rewrite oracle_notified. Qed.

Lemma fetched_marked (upload : PendingUpload) (w : World) :
  fetched (marked upload w) = fetched w.
Proof. unfold marked. now rewrite fetched_notified. Qed.

Lemma drawn_marked (upload : PendingUpload) (w : World) :
  drawn (marked upload w) = drawn w.
Proof. unfold marked. now rewrite drawn_notified. Qed.

Lemma sleeps_marked (upload : PendingUpload) (w : World) :
  sleeps (trace (marked upload w)) = sleeps (trace w).
Proof. unfold marked. now rewrite sleeps_notified. Qed.

Lemma upload_delay_marked (upload : PendingUpload) (w : World) (i : nat) :
  upload_delay (marked upload w) i = upload_delay w i.
Proof. unfold upload_delay. now rewrite oracle_marked, drawn_marked. Qed.

Lemma store_after_failure (upload : PendingUpload) (err : JsValue) (w : World) :
  store (after_failure upload err w)
  = if retryCount upload + 1 >=? 5
    then delete (id upload) (<[id upload := as_failed upload err]> (store w))
    else <[id upload := as_failed upload err]> (store w).
Proof.
  unfold after_failure.
  change (retryCount (as_failed upload err)) with (retryCount upload + 1).
  destruct (retryCount upload + 1 >=? 5);
    cbn [del log set_store store]; now rewrite store_notified.
Qed.

Lemma store_after_success (upload : PendingUpload) (w : World) :
  store (after_success upload w) = delete (id upload) (store w).
Proof. unfold after_success. now rewrite store_notified. Qed.

Lemma store_marked (upload : PendingUpload) (w : World) :
  store (marked upload w) = <[id upload := with_status uploading upload]> (store w).
Proof. unfold marked. now rewrite store_notified. Qed.

Lemma fetched_after_failure (upload : PendingUpload) (err : JsValue) (w : World) :
  fetched (after_failure upload err w) = fetched w.
Proof.
  unfold after_failure. destruct (retryCount (as_failed upload err) >=? 5);
    cbn [del log set_store fetched]; now rewrite fetched_notified.
Qed.

Lemma sleeps_after_failure (upload : PendingUpload) (err : JsValue) (w : World) :
  sleeps (trace (after_failure upload err w)) = sleeps (trace w).
Proof.
  unfold after_failure. destruct (retryCount (as_failed upload err) >=? 5);
    cbn [del log set_store trace sleeps]; now rewrite sleeps_notified.
Qed.

Lemma In_put_after_failure (upload : PendingUpload) (err : JsValue) (w : World) :
  List.In (EvPut (as_failed upload err)) (trace (after_failure upload err w)).
Proof.
  unfold after_failure. destruct (retryCount (as_failed upload err) >=? 5);
    cbn [del log set_store trace]; [right |]; right; apply In_notified; left;
    reflexivity.
Qed.

Lemma set_trace_same (w : World) : set_trace (trace w) w = w.
Proof. destruct w; reflexivity. Qed.

Lemma unsubscribed_nil (l : list Callback) : unsubscribed [] l = l.
Proof. reflexivity. Qed.

(** When no registered callback unsubscribes, the loop calls every
    callback from [index] on and leaves the array as it is. *)
Lemma notified_from_passive (upload : PendingUpload) (fuel : nat) :
  forall (index : nat) (w : World),
  passive upload w ->
  (length (progressCallbacks w) <= index + fuel)%nat ->
  notified_from fuel index upload w
  = set_trace (notify_trace upload (drop index (progressCallbacks w)) (trace w)) w.
Proof.
  induction fuel as [| fuel IH]; intros index w Hpassive Hlen.
  - cbn [notified_from]. rewrite drop_ge by lia. cbn [notify_trace].
    now rewrite set_trace_same.
  - cbn [notified_from].
    destruct (progressCallbacks w !! index) as [callback |] eqn:Hat.
    + assert (Hin : List.In callback (progressCallbacks w)).
      { apply list_elem_of_In. eapply list_elem_of_lookup_2. exact Hat. }
      assert (Hcalled : called callback upload w
                = set_trace (if cb_throws callback
                             then EvConsoleError "notifyProgress"
                                    :: EvNotify callback upload :: trace w
                             else EvNotify callback upload :: trace w) w).
      { unfold called. rewrite (Hpassive callback Hin), unsubscribed_nil.
        destruct w; destruct (cb_throws callback); reflexivity. }
      rewrite Hcalled. rewrite IH.
      * cbn [set_trace progressCallbacks trace].
        rewrite (drop_S _ _ _ Hat). cbn [notify_trace]. reflexivity.
      * intros cb' Hin'. apply (Hpassive cb' Hin').
      * cbn [set_trace progressCallbacks]. lia.
    + apply lookup_ge_None in Hat. rewrite drop_ge by lia. cbn [notify_trace].
      now rewrite set_trace_same.
Qed.

Lemma notified_passive (upload : PendingUpload) (w : World) :
  passive upload w ->
  notified upload w
  = set_trace (notify_trace upload (progressCallbacks w) (trace w)) w.
Proof.
  intros Hpassive. unfold notified.
  rewrite notified_from_passive by (assumption || lia). reflexivity.
Qed.

Lemma passive_same (upload : PendingUpload) (w w' : World) :
  oracle w' = oracle w -> progressCallbacks w' = progressCallbacks w ->
  passive upload w -> passive upload w'.
Proof.
  intros Ho Hc Hpassive callback Hin. rewrite Ho. apply Hpassive.
  now rewrite <- Hc.
Qed.

(** C1 (amended).  When the attempt of a drain iteration fails (the
    sub-retries are exhausted, or the server answers with an error
    status), [processUpload] returns normally, and the record is first
    written back with status 'failed', the incremented [retryCount] and
    [error] set, and the subscribers are notified of that state.  Below
    the ceiling this is the final state of the record.  At the ceiling
    (incremented [retryCount >= 5]) the record is then deleted: the store
    ends without it, and the deletion is the last event, after the write
    of the 'failed' state and after the notifications.  The notifications
    are those of the loop of [notifyProgress] over the callbacks
    registered when the attempt has ended; when no callback unsubscribes
    during a notification, they go to every callback registered at the
    start, in registration order. *)
Theorem processUpload_failure (upload : PendingUpload) (c : Config) (err : JsValue) :
  let upload1 := with_status uploading upload in
  let attempt := run (transfer upload1) (on_world (marked upload) c) in
  attempt_error (fst attempt) = Some err ->
  let failedUpload := as_failed upload1 err in
  let reported :=
    EvConsoleError "processUpload"
      :: trace (notified failedUpload (put failedUpload (world (snd attempt)))) in
  let c3 := snd (run (processUpload upload) c) in
  fst (run (processUpload upload) c) = Ok tt /\
  status failedUpload = failed /\
  retryCount failedUpload = retryCount upload + 1 /\
  error failedUpload = Some (messageOr "알 수 없는 오류" err) /\
  (retryCount upload + 1 < 5 ->
     store (world c3) = <[id upload := failedUpload]> (store (world c)) /\
     trace (world c3) = reported) /\
  (5 <= retryCount upload + 1 ->
     store (world c3) = delete (id upload) (store (world c)) /\
     trace (world c3) = EvDelete (id upload) :: reported) /\
  (passive upload1 (world c) -> passive failedUpload (world c) ->
     reported =
       EvConsoleError "processUpload"
         :: notify_trace failedUpload (progressCallbacks (world c))
              (EvPut failedUpload :: trace (world (snd attempt)))).
Proof.
  intros upload1 attempt Herr failedUpload reported c3.
  subst c3. rewrite run_processUpload. cbv zeta. fold upload1. fold attempt.
  destruct (transfer_same_queue upload1 (on_world (marked upload) c))
    as (Hstore & _ & Hcbs & _).
  pose proof (transfer_oracle upload1 (on_world (marked upload) c)) as Horacle.
  fold attempt in Hstore, Hcbs, Horacle. subst reported.
  destruct attempt as [r c2] eqn:Hattempt. cbn [fst snd] in *.
  rewrite Herr. cbn [fst snd on_world world].
  cbn [on_world world] in Hstore, Hcbs, Horacle. unfold marked in Hstore.
  rewrite store_notified in Hstore. cbn [put store log set_store] in Hstore.
  fold upload1 in Hstore.
  split; [reflexivity |]. split; [reflexivity |]. split; [reflexivity |].
  split; [reflexivity |]. unfold after_failure. fold failedUpload.
  change (retryCount failedUpload) with (retryCount upload + 1).
  split; [| split].
  - intros Hlt.
    destruct (Z.geb_spec (retryCount upload + 1) 5) as [Hge | _]; [lia |].
    split; [| reflexivity].
    cbn [log store]. rewrite store_notified. cbn [put log set_store store].
    rewrite Hstore. apply insert_insert_eq.
  - intros Hge.
    destruct (Z.geb_spec (retryCount upload + 1) 5) as [_ | Hlt]; [| lia].
    split; [| reflexivity].
    cbn [del log set_store store]. rewrite store_notified.
    cbn [put log set_store store]. rewrite Hstore, insert_insert_eq.
    apply delete_insert_eq.
  - intros Hpassive1 Hpassive2.
    assert (Hmarked : progressCallbacks (marked upload (world c))
                      = progressCallbacks (world c)).
    { unfold marked. fold upload1. rewrite notified_passive.
      - reflexivity.
      - eapply passive_same; [| | exact Hpassive1]; reflexivity. }
    rewrite notified_passive.
    + cbn [set_trace trace put log set_store progressCallbacks].
      rewrite Hcbs, Hmarked. reflexivity.
    + eapply passive_same; [| | exact Hpassive2].
      * cbn [put log set_store oracle]. rewrite Horacle. unfold marked.
        now rewrite oracle_notified.
      * cbn [put log set_store progressCallbacks]. now rewrite Hcbs, Hmarked.
Qed.





(** C2 (amended).  In one drain iteration, when [fetch] rejects, the call
    is made 1 + 3 times with a pause before each retry, and only then is
    the record written back as failed, with [retryCount] one higher.  When
    the server answers with a status that is not [ok], there is one call
    and no pause: the record is written back as failed at once. *)
Theorem processUpload_retry_levels (upload : PendingUpload) (c : Config) :
  let upload1 := with_status uploading upload in
  let w := world c in
  let c3 := snd (run (processUpload upload) c) in
  (forall e0 e1 e2 e3 : JsValue,
      network (oracle w) (fetched w) = Thrown e0 ->
      network (oracle w) (fetched w + 1)%nat = Thrown e1 ->
      network (oracle w) (fetched w + 2)%nat = Thrown e2 ->
      network (oracle w) (fetched w + 3)%nat = Thrown e3 ->
      fetched (world c3) = (fetched w + 4)%nat /\
      sleeps (trace (world c3)) =
        sleeps (trace w) ++ [upload_delay w 0; upload_delay w 1; upload_delay w 2] /\
      List.In (EvPut (as_failed upload1 (toError e3))) (trace (world c3)) /\
      retryCount (as_failed upload1 (toError e3)) = retryCount upload + 1) /\
  (forall response : Response.t,
      network (oracle w) (fetched w) = Ok response ->
      Response.ok response = false ->
      let err := JsError ("업로드 실패: " +:+ pretty (Response.status response)) in
      fetched (world c3) = (fetched w + 1)%nat /\
      sleeps (trace (world c3)) = sleeps (trace w) /\
      List.In (EvPut (as_failed upload1 err)) (trace (world c3)) /\
      retryCount (as_failed upload1 err) = retryCount upload + 1).
Proof.
  intros upload1 w c3. subst c3 w. rewrite run_processUpload. cbv zeta.
  fold upload1. split.
  - intros e0 e1 e2 e3 H0 H1 H2 H3.
    destruct (transfer_all_rejected upload1 (on_world (marked upload) c)
                e0 e1 e2 e3) as (Hres & Hfetched & Hsleeps);
      try (cbn [on_world world]; rewrite oracle_marked, fetched_marked; assumption).
    cbn [on_world world] in Hfetched, Hsleeps.
    rewrite !upload_delay_marked, sleeps_marked in Hsleeps.
    rewrite fetched_marked in Hfetched.
    destruct (run (transfer upload1) (on_world (marked upload) c)) as [r c2].
    cbn [fst snd] in *. subst r. cbn [attempt_error on_world world].
    split; [| split; [| split; [apply In_put_after_failure | reflexivity]]].
    + rewrite fetched_after_failure. exact Hfetched.
    + rewrite sleeps_after_failure. exact Hsleeps.
  - intros response Hnet Hok.
    set (err := JsError ("업로드 실패: " +:+ pretty (Response.status response))).
    rewrite (transfer_first_response upload1 (on_world (marked upload) c) response)
      by (cbn [on_world world]; rewrite oracle_marked, fetched_marked; assumption).
    cbn [attempt_error]. rewrite Hok. fold err. cbn [snd on_world world].
    split; [| split; [| split; [apply In_put_after_failure | reflexivity]]].
    + rewrite fetched_after_failure. cbn [fetched_once log set_fetched fetched].
      rewrite fetched_marked. lia.
    + rewrite sleeps_after_failure. cbn [fetched_once log set_fetched trace sleeps].
      apply sleeps_marked.
Qed.

(* ===================================================================== *)
(** * Concrete runs                                                      *)
(* ===================================================================== *)

Lemma processUpload_failure_witness :
  let err := JsError "Failed to fetch" in
  let at_ceiling := Example.record pending 4 in
  let c4 := Example.config_of Example.unreachable at_ceiling in
  let fresh := Example.record pending 0 in
  let c0 := Example.config_of Example.unreachable fresh in
  attempt_error (fst (run (transfer (with_status uploading at_ceiling))
                        (on_world (marked at_ceiling) c4))) = Some err /\
  5 <= retryCount at_ceiling + 1 /\
  store (world (snd (run (processUpload at_ceiling) c4)))
    = delete "a" (store (world c4)) /\
  attempt_error (fst (run (transfer (with_status uploading fresh))
                        (on_world (marked fresh) c0))) = Some err /\
  retryCount fresh + 1 < 5 /\
  store (world (snd (run (processUpload fresh) c0)))
    = <["a" := as_failed (with_status uploading fresh) err]> (store (world c0)).
Proof.
  intros err at_ceiling c4 fresh c0.
  assert (H4 : attempt_error (fst (run (transfer (with_status uploading at_ceiling))
                                     (on_world (marked at_ceiling) c4))) = Some err)
    by reflexivity.
  assert (H0 : attempt_error (fst (run (transfer (with_status uploading fresh))
                                     (on_world (marked fresh) c0))) = Some err)
    by reflexivity.
  assert (Hge : 5 <= retryCount at_ceiling + 1) by (cbn; lia).
  assert (Hlt : retryCount fresh + 1 < 5) by (cbn; lia).
  destruct (processUpload_failure at_ceiling c4 err H4)
    as (_ & _ & _ & _ & _ & Hceiling & _).
  destruct (processUpload_failure fresh c0 err H0)
    as (_ & _ & _ & _ & Hbelow & _).
  split; [exact H4 |]. split; [exact Hge |].
  split; [exact (proj1 (Hceiling Hge)) |].
  split; [exact H0 |]. split; [exact Hlt |].
  exact (proj1 (Hbelow Hlt)).
Defined.

(** A record with [retryCount = 4] fails once more while the network is
    unreachable.  After 26 turns of the drain pass the store holds the
    record with status 'failed' and [retryCount = 5], the subscriber has
    been told so, and the deletion is still to come. *)
Lemma failed_at_ceiling_is_stored :
  let c := Example.config_of Example.unreachable (Example.record pending 4) in
  let at_ceiling := with_error (Some "Failed to fetch") (Example.record failed 5) in
  Example.stored_after (Example.drain_for 26) c = Some at_ceiling /\
  Example.notified_after (Example.drain_for 26) c
    = Some [(Example.observer, Example.record uploading 4);
            (Example.observer, at_ceiling)] /\
  Example.stored_after (Example.drain_for 29) c = None /\
  Example.notified_after (Example.drain_for 29) c
    = Example.notified_after (Example.drain_for 26) c.
Proof. vm_compute. repeat split. Qed.

Lemma processUpload_retry_levels_witness :
  let upload := Example.record pending 0 in
  let c := Example.config_of Example.http_500 upload in
  let c' := Example.config_of Example.unreachable upload in
  let err := JsError "Failed to fetch" in
  network (oracle (world c)) (fetched (world c)) = Ok (Response.mk false 500) /\
  Response.ok (Response.mk false 500) = false /\
  fetched (world (snd (run (processUpload upload) c))) = (fetched (world c) + 1)%nat /\
  network (oracle (world c')) (fetched (world c')) = Thrown err /\
  network (oracle (world c')) (fetched (world c') + 1)%nat = Thrown err /\
  network (oracle (world c')) (fetched (world c') + 2)%nat = Thrown err /\
  network (oracle (world c')) (fetched (world c') + 3)%nat = Thrown err /\
  fetched (world (snd (run (processUpload upload) c'))) = (fetched (world c') + 4)%nat.
Proof.
  intros upload c c' err.
  assert (Hnet : network (oracle (world c)) (fetched (world c))
                 = Ok (Response.mk false 500)) by reflexivity.
  assert (Hok : Response.ok (Response.mk false 500) = false) by reflexivity.
  assert (H0 : network (oracle (world c')) (fetched (world c')) = Thrown err)
    by reflexivity.
  assert (H1 : network (oracle (world c')) (fetched (world c') + 1)%nat = Thrown err)
    by reflexivity.
  assert (H2 : network (oracle (world c')) (fetched (world c') + 2)%nat = Thrown err)
    by reflexivity.
  assert (H3 : network (oracle (world c')) (fetched (world c') + 3)%nat = Thrown err)
    by reflexivity.
  destruct (processUpload_retry_levels upload c) as [_ Hstatus].
  destruct (Hstatus (Response.mk false 500) Hnet Hok) as (Hfetched & _).
  destruct (processUpload_retry_levels upload c') as [Hrejected _].
  destruct (Hrejected err err err err H0 H1 H2 H3) as (Hfetched' & _).
  split; [exact Hnet |]. split; [exact Hok |]. split; [exact Hfetched |].
  split; [exact H0 |]. split; [exact H1 |]. split; [exact H2 |].
  split; [exact H3 |]. exact Hfetched'.
Defined.

(** The server answers 500.  The drain pass makes one call and sleeps not
    once; the record is stored as failed with [retryCount = 1]. *)
Lemma http_error_is_not_retried :
  let c := Example.config_of Example.http_500 (Example.record pending 0) in
  let c' := snd (run processQueue c) in
  fetched (world c') = 1%nat /\
  sleeps (trace (world c')) = [] /\
  store (world c') !! "a"
    = Some (with_error (Some "업로드 실패: 500") (Example.record failed 1)).
Proof. vm_compute. repeat split. Qed.


(** Two subscribers; the first unsubscribes itself when it hears of the
    completion.  It is the only one to hear of it: the loop of
    [notifyProgress] finds the array one shorter and ends, and the second
    subscriber, still registered, is not called. *)
Lemma completion_skips_the_next_subscriber :
  let c := Example.config_once Example.http_200 (Example.record pending 0) in
  Example.notified_after (Example.drain_for 13) c
  = Some [(Example.once, Example.record uploading 0);
          (Example.observer, Example.record uploading 0);
          (Example.once, with_progress 100 (Example.record pending 0))] /\
  progressCallbacks (world (Example.after (Example.drain_for 13) c))
  = [Example.observer].
Proof. vm_compute. repeat split. Qed.


Lemma retryWithBackoff_invocations_witness :
  let cfg := finalConfig UPLOAD_RETRY_CONFIG in
  let operation := settle (Fetch Example.photo image) in
  let down := Example.config_of Example.unreachable (Example.record pending 0) in
  let up := Example.config_of Example.http_200 (Example.record pending 0) in
  0 <= maxRetries cfg /\
  (fetched (world (snd (run (retryWithBackoff operation UPLOAD_RETRY_CONFIG) down)))
   <= fetched (world down) + (Z.to_nat (maxRetries cfg) + 1))%nat /\
  fst (invocation operation cfg 3 down) = Thrown (JsError "Failed to fetch") /\
  fst (run (retryWithBackoff operation UPLOAD_RETRY_CONFIG) down)
    = Thrown (JsError "Failed to fetch") /\
  fst (invocation operation cfg 0 up) = Ok (Response.mk true 200) /\
  run (retryWithBackoff operation UPLOAD_RETRY_CONFIG) up
    = (Ok (Response.mk true 200), snd (invocation operation cfg 0 up)).
Proof.
  intros cfg operation down up.
  assert (H : 0 <= maxRetries cfg) by (cbn; lia).
  assert (Hlast : fst (invocation operation cfg 3 down)
                  = Thrown (JsError "Failed to fetch")) by reflexivity.
  assert (Hbefore : forall j, (j < 3)%nat ->
            exists e, fst (invocation operation cfg j down) = Thrown e).
  { intros [| [| [| j]]] Hj; [eexists; reflexivity .. | lia]. }
  assert (Hfirst : fst (invocation operation cfg 0 up) = Ok (Response.mk true 200))
    by reflexivity.
  assert (Hnone : forall j, (j < 0)%nat ->
            exists e, fst (invocation operation cfg j up) = Thrown e)
    by (intros j Hj; lia).
  destruct (retryWithBackoff_invocations operation UPLOAD_RETRY_CONFIG down H)
    as (_ & Hall & _ & Hcount).
  destruct (retryWithBackoff_invocations operation UPLOAD_RETRY_CONFIG up H)
    as (Hsuccess & _).
  split; [exact H |]. split; [apply Hcount |]. split; [exact Hlast |].
  split; [rewrite (Hall _ Hbefore Hlast); reflexivity |].
  split; [exact Hfirst |].
  exact (Hsuccess 0%nat _ (Nat.le_0_l _) Hnone Hfirst).
Defined.

(* ===================================================================== *)
(** * Starting a drain pass                                              *)
(* ===================================================================== *)

(** [processQueue] up to its first [await]: it returns at once when the
    flag is up or the browser is offline; otherwise it raises the flag and
    is suspended before [getDB()]. *)
Lemma begin_processQueue (c : Config) :
  begin processQueue c =
  if isProcessing (world c) then on_world (log (EvSettled (Ok tt))) c
  else if negb (onLine (world c)) then on_world (log (EvSettled (Ok tt))) c
  else mkConfig (set_draining (S (draining (world c)))
                   (set_isProcessing true (world c)))
                (pool c ++ [processQueue_try]).
Proof.
  unfold begin, processQueue. cbn [bind perform bindP run_sync is_await handle].
  destruct (isProcessing (world c)) eqn:Hflag.
  - cbn. destruct c; reflexivity.
  - cbn [bind perform bindP run_sync is_await handle world pool].
    destruct (onLine (world c)) eqn:Hon; cbn [negb].
    + cbn. reflexivity.
    + cbn. destruct c; reflexivity.
Qed.

Lemma begin_processQueue_store (c : Config) :
  store (world (begin processQueue c)) = store (world c).
Proof.
  rewrite begin_processQueue.
  destruct (isProcessing (world c)); [reflexivity |].
  destruct (negb (onLine (world c))); reflexivity.
Qed.

Lemma run_fork (p : M unit) (c : Config) :
  run (fork p) c = (Ok tt, begin p c).
Proof.
  unfold fork, begin. cbn [run]. destruct (run_sync p c) as [p' c']. reflexivity.
Qed.

(* ===================================================================== *)
(** * Manual retry                                                       *)
(* ===================================================================== *)

(** C8.  [retryUpload(id)] on an absent id rejects with the not-found
    error and leaves the configuration as it was: the store is unchanged
    and no drain is started.  On a stored record it writes the record back
    with status 'pending' and [error] cleared, [retryCount] as it was, and
    then calls [processQueue]; with the flag down and the browser online
    that call raises the flag and a drain pass is suspended in the pool. *)
Theorem retryUpload_spec (uploadId : string) (c : Config) :
  (store (world c) !! uploadId = None ->
   run (retryUpload uploadId) c
   = (Thrown (JsError ("업로드를 찾을 수 없습니다: " +:+ uploadId)), c)) /\
  (forall upload : PendingUpload,
      store (world c) !! uploadId = Some upload ->
      let upload' := with_error None (with_status pending upload) in
      let c' := snd (run (retryUpload uploadId) c) in
      fst (run (retryUpload uploadId) c) = Ok tt /\
      c' = begin processQueue (on_world (put upload') c) /\
      store (world c') = <[id upload := upload']> (store (world c)) /\
      status upload' = pending /\
      error upload' = None /\
      retryCount upload' = retryCount upload /\
      (isProcessing (world c) = false -> onLine (world c) = true ->
       isProcessing (world c') = true /\
       pool c' = pool c ++ [processQueue_try])).
Proof.
  split.
  - intros Hnone. unfold retryUpload.
    rewrite run_bind, run_perform. cbn [handle fst snd].
    rewrite run_bind, run_perform. cbn [handle fst snd world pool].
    rewrite Hnone. cbn. destruct c; reflexivity.
  - intros upload Hsome upload' c'.
    assert (Hrun : run (retryUpload uploadId) c
                   = (Ok tt, begin processQueue (on_world (put upload') c))).
    { unfold retryUpload.
      rewrite run_bind, run_perform. cbn [handle fst snd].
      rewrite run_bind, run_perform. cbn [handle fst snd world pool].
      rewrite Hsome. cbv zeta. fold upload'.
      rewrite run_bind, run_perform. cbn [handle fst snd world pool].
      rewrite run_fork. reflexivity. }
    subst c'. rewrite Hrun. cbn [fst snd].
    split; [reflexivity |]. split; [reflexivity |].
    split; [rewrite begin_processQueue_store; reflexivity |].
    split; [reflexivity |]. split; [reflexivity |]. split; [reflexivity |].
    intros Hflag Hon. rewrite begin_processQueue.
    cbn [on_world world pool put log set_store isProcessing onLine].
    rewrite Hflag, Hon. cbn. split; reflexivity.
Qed.

Lemma retryUpload_spec_witness :
  let c := Example.config_of Example.unreachable (Example.record failed 2) in
  store (world c) !! "a" = Some (Example.record failed 2) /\
  store (world c) !! "b" = None /\
  run (retryUpload "b") c
    = (Thrown (JsError ("업로드를 찾을 수 없습니다: " +:+ "b")), c) /\
  store (world (snd (run (retryUpload "a") c)))
    = <["a" := Example.record pending 2]> (store (world c)) /\
  isProcessing (world c) = false /\
  onLine (world c) = true /\
  pool (snd (run (retryUpload "a") c)) = pool c ++ [processQueue_try].
Proof.
  intros c.
  assert (Ha : store (world c) !! "a" = Some (Example.record failed 2)) by reflexivity.
  assert (Hb : store (world c) !! "b" = None) by reflexivity.
  assert (Hflag : isProcessing (world c) = false) by reflexivity.
  assert (Hon : onLine (world c) = true) by reflexivity.
  split; [exact Ha |]. split; [exact Hb |].
  destruct (retryUpload_spec "b" c) as [Habsent _].
  destruct (retryUpload_spec "a" c) as [_ Hpresent].
  split; [exact (Habsent Hb) |].
  destruct (Hpresent _ Ha) as (_ & _ & Hstore & _ & _ & _ & Hdrain).
  split; [exact Hstore |]. split; [exact Hflag |]. split; [exact Hon |].
  exact (proj2 (Hdrain Hflag Hon)).
Defined.

(* ===================================================================== *)
(** * Cancellation during a drain iteration                              *)
(* ===================================================================== *)

Lemma run_post_attempt (upload : PendingUpload) (r : Result Response.t) (c : Config) :
  run (post_attempt upload r) c =
  (Ok tt,
   on_world (match attempt_error r with
             | None => after_success upload
             | Some e => after_failure upload e
             end) c).
Proof.
  unfold post_attempt. rewrite run_try_catch.
  destruct r as [response | e]; cbn [attempt_error].
  - unfold processUpload_response. destruct (Response.ok response).
    + rewrite run_bind, run_perform. cbn [handle fst snd world pool].
      rewrite run_notifyProgress. reflexivity.
    + cbn [throw run]. apply run_processUpload_catch.
  - cbn [throw run]. apply run_processUpload_catch.
Qed.

Lemma processUpload_post_attempt (upload : PendingUpload) (c : Config) :
  run (processUpload upload) c =
  let (r, c2) := run (transfer (with_status uploading upload))
                     (on_world (marked upload) c) in
  run (post_attempt (with_status uploading upload) r) c2.
Proof.
  rewrite run_processUpload. cbv zeta.
  destruct (run (transfer (with_status uploading upload)) (on_world (marked upload) c))
    as [r c2].
  now rewrite run_post_attempt.
Qed.

(** C5 (amended).  [processUpload] is its attempt followed by
    [post_attempt].  That code never raises an error, also when the record
    has been deleted from the store in the meantime.  After a successful
    attempt the record stays absent.  After a failed attempt the status
    update is a [put]: it stores the record again, as 'failed' with the
    incremented [retryCount]; the record is absent afterwards only when
    that count has reached 5 and the iteration deletes it itself. *)
Theorem post_attempt_after_cancel (upload : PendingUpload)
    (r : Result Response.t) (c : Config) :
  store (world c) !! id upload = None ->
  let c' := snd (run (post_attempt upload r) c) in
  (forall (upload0 : PendingUpload) (c0 : Config),
      run (processUpload upload0) c0 =
      let (r0, c2) := run (transfer (with_status uploading upload0))
                          (on_world (marked upload0) c0) in
      run (post_attempt (with_status uploading upload0) r0) c2) /\
  fst (run (post_attempt upload r) c) = Ok tt /\
  match attempt_error r with
  | None => store (world c') !! id upload = None
  | Some err =>
      if retryCount upload + 1 <? 5
      then store (world c') !! id upload = Some (as_failed upload err)
      else store (world c') !! id upload = None
  end.
Proof.
  intros Habsent c'. subst c'. split; [exact processUpload_post_attempt |].
  rewrite run_post_attempt. cbn [fst snd on_world world].
  split; [reflexivity |].
  destruct (attempt_error r) as [err |].
  - rewrite store_after_failure.
    destruct (Z.ltb_spec (retryCount upload + 1) 5) as [Hlt | Hge].
    + destruct (Z.geb_spec (retryCount upload + 1) 5) as [Hge | _]; [lia |].
      apply lookup_insert_eq.
    + destruct (Z.geb_spec (retryCount upload + 1) 5) as [_ | Hlt]; [| lia].
      apply lookup_delete_eq.
  - rewrite store_after_success. apply lookup_delete_eq.
Qed.

Lemma post_attempt_after_cancel_witness :
  let upload := Example.record uploading 0 in
  let c := mkConfig (set_store ∅ (world (Example.config_of Example.http_500 upload))) [] in
  let r : Result Response.t := Ok (Response.mk false 500) in
  store (world c) !! id upload = None /\
  store (world (snd (run (post_attempt upload r) c))) !! "a"
    = Some (with_error (Some "업로드 실패: 500") (Example.record failed 1)).
Proof.
  intros upload c r.
  assert (H : store (world c) !! id upload = None) by reflexivity.
  split; [exact H |].
  destruct (post_attempt_after_cancel upload r c H) as (_ & _ & Hstore).
  exact Hstore.
Defined.

(** A drain pass waits for [fetch] when the record is cancelled: the
    store no longer holds it.  The server then answers 500, and the drain
    pass, resumed to its end, has stored the record again as 'failed'. *)
Lemma cancelled_record_is_stored_again :
  let c := Example.config_of Example.http_500 (Example.record pending 0) in
  Example.stored_after (Example.cancel_in_flight 0) c = None /\
  Example.stored_after (Example.cancel_in_flight 8) c
    = Some (with_error (Some "업로드 실패: 500") (Example.record failed 1)) /\
  (c' ← exec (Example.cancel_in_flight 8) c; Some (pool c')) = Some [].
Proof. vm_compute. repeat split. Qed.

(* ===================================================================== *)
(** * A drain pass, run without interruption                             *)
(* ===================================================================== *)

Lemma run_processUpload_ok (upload : PendingUpload) (c : Config) :
  fst (run (processUpload upload) c) = Ok tt.
Proof.
  rewrite run_processUpload. cbv zeta.
  destruct (run (transfer (with_status uploading upload)) (on_world (marked upload) c)).
  reflexivity.
Qed.

Lemma run_drain_loop (l : list PendingUpload) :
  forall c : Config,
    run (for_of l (fun upload =>
           try_catch (await (processUpload upload))
             (fun _ => perform (ConsoleError "processQueue: upload")))) c
    = (Ok tt, drain_all l c).
Proof.
  induction l as [| upload l IH]; intros c; [reflexivity |].
  cbn [for_of drain_all fold_left]. rewrite run_bind, run_try_catch, run_await.
  pose proof (run_processUpload_ok upload c) as Hok.
  destruct (run (processUpload upload) c) as [r c1]. cbn [fst snd] in *. subst r.
  apply IH.
Qed.

Lemma run_processQueue_try (c : Config) :
  run processQueue_try c =
  (Ok tt,
   on_world (fun w => set_isProcessing false (set_draining (Nat.pred (draining w)) w))
     (drain_all (by_status pending (store (world c))) c)).
Proof.
  unfold processQueue_try, try_finally. rewrite run_bindP, run_try_catch.
  rewrite run_bind, run_perform. cbn [handle fst snd].
  rewrite run_bind, run_perform. cbn [handle fst snd world pool].
  rewrite config_eta, run_drain_loop.
  rewrite run_bindP, run_bind, run_perform. cbn [handle fst snd].
  rewrite run_perform. reflexivity.
Qed.

Lemma run_processQueue (c : Config) :
  run processQueue c =
  if isProcessing (world c) then (Ok tt, c)
  else if negb (onLine (world c)) then (Ok tt, c)
  else
    let c1 := on_world (fun w => set_draining (S (draining w))
                                   (set_isProcessing true w)) c in
    (Ok tt,
     on_world (fun w => set_isProcessing false (set_draining (Nat.pred (draining w)) w))
       (drain_all (by_status pending (store (world c))) c1)).
Proof.
  unfold processQueue. rewrite run_bind, run_perform. cbn [handle fst snd].
  rewrite config_eta. destruct (isProcessing (world c)); [reflexivity |].
  rewrite run_bind, run_perform. cbn [handle fst snd]. rewrite config_eta.
  destruct (negb (onLine (world c))); [reflexivity |].
  rewrite run_bind, run_perform. cbn [handle fst snd].
  rewrite run_bind, run_perform. cbn [handle fst snd world pool].
  rewrite run_processQueue_try. reflexivity.
Qed.

Lemma puts_notify_trace (upload : PendingUpload) (cbs : list Callback) :
  forall tr, puts (notify_trace upload cbs tr) = puts tr.
Proof.
  induction cbs as [| cb cbs IH]; intros tr; cbn [notify_trace]; [reflexivity |].
  rewrite IH. destruct (cb_throws cb); reflexivity.
Qed.

Lemma puts_notified (upload : PendingUpload) (w : World) :
  puts (trace (notified upload w)) = puts (trace w).
Proof. unfold notified. now rewrite trace_notified_from, puts_notify_trace. Qed.

Lemma puts_marked (upload : PendingUpload) (w : World) :
  puts (trace (marked upload w)) = puts (trace w) ++ [with_status uploading upload].
Proof. unfold marked. now rewrite puts_notified. Qed.

Lemma puts_after_failure (upload : PendingUpload) (err : JsValue) (w : World) :
  puts (trace (after_failure upload err w))
  = puts (trace w) ++ [as_failed upload err].
Proof.
  unfold after_failure. destruct (retryCount (as_failed upload err) >=? 5);
    cbn [del log set_store trace puts]; now rewrite puts_notified.
Qed.

Lemma puts_after_success (upload : PendingUpload) (w : World) :
  puts (trace (after_success upload w)) = puts (trace w).
Proof. unfold after_success. now rewrite puts_notified. Qed.

(** A drain iteration reads and writes the store under the id of its
    record only. *)
Lemma processUpload_other_key (upload : PendingUpload) (c : Config) (k : string) :
  id upload <> k ->
  let c' := snd (run (processUpload upload) c) in
  store (world c') !! k = store (world c) !! k /\
  exists written,
    puts (trace (world c')) = puts (trace (world c)) ++ written /\
    Forall (fun u => id u <> k) written.
Proof.
  intros Hne c'. subst c'. rewrite run_processUpload. cbv zeta.
  destruct (transfer_same_queue (with_status uploading upload)
              (on_world (marked upload) c)) as (Hstore & _ & _ & _ & _ & Hputs & _).
  destruct (run (transfer (with_status uploading upload)) (on_world (marked upload) c))
    as [r c2].
  cbn [fst snd on_world world] in *.
  assert (Hputs2 : puts (trace (world c2))
                   = puts (trace (world c)) ++ [with_status uploading upload]).
  { rewrite Hputs. apply puts_marked. }
  assert (Hstore2 : store (world c2) !! k = store (world c) !! k).
  { rewrite Hstore, store_marked. now apply lookup_insert_ne. }
  destruct (attempt_error r) as [err |].
  - rewrite store_after_failure, puts_after_failure. cbn [id with_status].
    split.
    + destruct (retryCount (with_status uploading upload) + 1 >=? 5).
      * rewrite lookup_delete_ne by exact Hne. rewrite lookup_insert_ne by exact Hne.
        exact Hstore2.
      * rewrite lookup_insert_ne by exact Hne. exact Hstore2.
    + exists [with_status uploading upload;
              as_failed (with_status uploading upload) err].
      rewrite Hputs2, <- app_assoc.
      split; [reflexivity |]. repeat constructor; exact Hne.
  - rewrite store_after_success, puts_after_success. cbn [id with_status]. split.
    + rewrite lookup_delete_ne by exact Hne. exact Hstore2.
    + exists [with_status uploading upload].
      split; [exact Hputs2 |]. repeat constructor; exact Hne.
Qed.

Lemma drain_all_other_key (k : string) (l : list PendingUpload) :
  Forall (fun u => id u <> k) l ->
  forall c : Config,
    store (world (drain_all l c)) !! k = store (world c) !! k /\
    exists written,
      puts (trace (world (drain_all l c))) = puts (trace (world c)) ++ written /\
      Forall (fun u => id u <> k) written.
Proof.
  induction 1 as [| upload l Hne _ IH]; intros c.
  - split; [reflexivity |]. exists []. split; [now rewrite app_nil_r | constructor].
  - cbn [drain_all fold_left].
    destruct (processUpload_other_key upload c k Hne) as (Hs1 & w1 & Hp1 & Hw1).
    destruct (IH (snd (run (processUpload upload) c))) as (Hs2 & w2 & Hp2 & Hw2).
    unfold drain_all in *. split; [congruence |].
    exists (w1 ++ w2). split.
    + rewrite Hp2, Hp1, <- app_assoc. reflexivity.
    + apply Forall_app; split; assumption.
Qed.

(** The listing of a store holds the records of the store, each once. *)
Lemma records_Permutation (s : gmap string PendingUpload) :
  records s ≡ₚ (map_to_list s).*2.
Proof. unfold records. now rewrite merge_sort_Permutation. Qed.

Lemma by_status_In (value : UploadStatus) (s : gmap string PendingUpload)
    (u : PendingUpload) :
  List.In u (by_status value s) ->
  status u = value /\ exists key, s !! key = Some u.
Proof.
  unfold by_status. rewrite filter_In. intros [Hin Hst]. split.
  - destruct (status u), value; (reflexivity || discriminate).
  - apply list_elem_of_In in Hin. rewrite records_Permutation in Hin.
    apply list_elem_of_fmap in Hin.
    destruct Hin as ([key u'] & -> & Hin). exists key.
    now apply elem_of_map_to_list in Hin.
Qed.

(** C6 (amended).  A record stored with status 'uploading' is not among
    the records a drain pass lists, since the pass lists status 'pending'
    only; a drain pass leaves it in the store as it is and writes no
    record of its id, so it is not attempted; and [init] leaves the store
    as it is, so nothing turns the record back to 'pending' at startup. *)
Theorem uploading_record_not_drained (c : Config) (k : string) (r : PendingUpload) :
  keyed (store (world c)) ->
  store (world c) !! k = Some r ->
  status r = uploading ->
  let c' := snd (run processQueue c) in
  ~ List.In r (by_status pending (store (world c))) /\
  store (world c') !! k = Some r /\
  (exists written,
      puts (trace (world c')) = puts (trace (world c)) ++ written /\
      Forall (fun u => id u <> k) written) /\
  store (world (snd (run init c))) = store (world c).
Proof.
  intros Hkeyed Hr Hst c'.
  assert (Hothers : Forall (fun u => id u <> k) (by_status pending (store (world c)))).
  { apply List.Forall_forall. intros u Hin Heq.
    destruct (by_status_In _ _ _ Hin) as [Hpending [key Hkey]].
    rewrite (Hkeyed _ _ Hkey) in Heq. subst key.
    rewrite Hr in Hkey. injection Hkey as <-. congruence. }
  split; [| split; [| split]].
  - intros Hin. destruct (by_status_In _ _ _ Hin) as [Hpending _]. congruence.
  - subst c'. rewrite run_processQueue.
    destruct (isProcessing (world c)); [exact Hr |].
    destruct (negb (onLine (world c))); [exact Hr |].
    cbv zeta. cbn [snd on_world world store set_isProcessing set_draining].
    match goal with |- store (world (drain_all ?l ?c1)) !! _ = _ =>
      destruct (drain_all_other_key k l Hothers c1) as [Hs _]; rewrite Hs end.
    exact Hr.
  - subst c'. rewrite run_processQueue.
    destruct (isProcessing (world c)); [exists []; split; [now rewrite app_nil_r | constructor] |].
    destruct (negb (onLine (world c))); [exists []; split; [now rewrite app_nil_r | constructor] |].
    cbv zeta. cbn [snd on_world world trace set_isProcessing set_draining].
    match goal with |- context [drain_all ?l ?c1] =>
      destruct (drain_all_other_key k l Hothers c1) as [_ Hw] end.
    exact Hw.
  - unfold init. rewrite run_bind, run_perform. cbn [handle fst snd].
    destruct (onlineListener (world c)); [reflexivity |].
    rewrite run_perform. reflexivity.
Qed.

Lemma uploading_record_not_drained_witness :
  let c := Example.config_ab Example.http_200
             (Example.record uploading 0)
             (mkPendingUpload "b" Example.photo image pending 0 0 0 None) in
  store (world c) !! "a" = Some (Example.record uploading 0) /\
  status (Example.record uploading 0) = uploading /\
  store (world (snd (run processQueue c))) !! "a" = Some (Example.record uploading 0).
Proof.
  intros c.
  assert (Hkeyed : keyed (store (world c))).
  { intros k u. cbn [c Example.config_ab world store].
    rewrite lookup_insert. destruct (decide ("a" = k)) as [<- | Hne].
    - intros [= <-]. reflexivity.
    - rewrite lookup_insert. destruct (decide ("b" = k)) as [<- | Hne'].
      + intros [= <-]. reflexivity.
      + rewrite lookup_empty. discriminate. }
  assert (Ha : store (world c) !! "a" = Some (Example.record uploading 0))
    by reflexivity.
  split; [exact Ha |]. split; [reflexivity |].
  destruct (uploading_record_not_drained c "a" (Example.record uploading 0)
              Hkeyed Ha eq_refl) as (_ & Hstays & _).
  exact Hstays.
Defined.

(** The store holds one record, left 'uploading' by an interrupted
    session.  [init] and a full drain pass later, no [fetch] has been
    made, nothing has been written or notified, and the record is still
    'uploading'. *)
Lemma uploading_record_is_skipped :
  let c := Example.config_of Example.http_200 (Example.record uploading 0) in
  let acts := Invoke CallInit :: Example.drain_for 3 in
  Example.stored_after acts c = Some (Example.record uploading 0) /\
  Example.events_after acts c = Some [EvSettled (Ok tt); EvSettled (Ok tt)] /\
  (c' ← exec acts c; Some (fetched (world c'), pool c')) = Some (0%nat, []).
Proof. vm_compute. repeat split. Qed.

(* ===================================================================== *)
(** * The single-flight guard                                            *)
(* ===================================================================== *)

Lemma handle_quiet {X : Type} (e : Eff X) (w : World) :
  quiet e = true ->
  isProcessing (snd (handle e w)) = isProcessing w /\
  draining (snd (handle e w)) = draining w.
Proof.
  destruct e; cbn [quiet]; try discriminate; intros _; cbn [handle];
    try (split; reflexivity).
  destruct (store w !! id data); split; reflexivity.
Qed.

Lemma await_quiet {X : Type} (e : Eff X) : is_await e = true -> quiet e = true.
Proof. destruct e; cbn; congruence. Qed.

Lemma Typed_bindP {A B : Type} (p : Prog A) (f : A -> Prog B) s s1 s2 :
  Typed s p s1 -> (forall a, Typed s1 (f a) s2) -> Typed s (bindP p f) s2.
Proof.
  intros Hp. revert B f s2.
  induction Hp; intros B f s2 Hf; cbn [bindP].
  - apply Hf.
  - apply Typed_forget. now apply IHHp.
  - apply Typed_await; auto.
  - apply Typed_read; auto.
  - apply Typed_quiet; auto.
  - apply Typed_lock; auto.
  - apply Typed_enter; auto.
  - apply Typed_leave; auto.
  - apply Typed_unlock; auto.
  - apply Typed_fork; auto.
Qed.

Section Calm.
Context (s : Phase) (Hs : stable s).

Lemma Typed_perform_await {X : Type} (e : Eff X) :
  is_await e = true -> Typed s (perform e) s.
Proof. intros He. apply Typed_await; auto. intros x. apply Typed_ret. Qed.

Lemma Typed_settle_await {X : Type} (e : Eff (Result X)) :
  is_await e = true -> Typed s (settle e) s.
Proof. intros He. apply Typed_await; auto. intros x. apply Typed_ret. Qed.

Lemma Typed_await_call {A : Type} (p : M A) :
  Typed s p s -> Typed s (await p) s.
Proof.
  intros Hp. unfold await. eapply Typed_bindP; [exact Hp |].
  intros r. apply Typed_await; auto. intros x. apply Typed_ret.
Qed.
End Calm.

Lemma Typed_perform_quiet {X : Type} (e : Eff X) s :
  is_await e = false -> quiet e = true -> Typed s (perform e) s.
Proof. intros He Hq. apply Typed_quiet; auto. intros x. apply Typed_ret. Qed.

Lemma Typed_settle_quiet {X : Type} (e : Eff (Result X)) s :
  is_await e = false -> quiet e = true -> Typed s (settle e) s.
Proof. intros He Hq. apply Typed_quiet; auto. intros x. apply Typed_ret. Qed.

Lemma Typed_bind {A B : Type} (m : M A) (f : A -> M B) s :
  Typed s m s -> (forall a, Typed s (f a) s) -> Typed s (bind m f) s.
Proof.
  intros Hm Hf. unfold bind. eapply Typed_bindP; [exact Hm |].
  intros [a | e]; [apply Hf | apply Typed_ret].
Qed.

Lemma Typed_try_catch {A : Type} (body : M A) (handler : JsValue -> M A) s :
  Typed s body s -> (forall e, Typed s (handler e) s) ->
  Typed s (try_catch body handler) s.
Proof.
  intros Hm Hf. unfold try_catch. eapply Typed_bindP; [exact Hm |].
  intros [a | e]; [apply Typed_ret | apply Hf].
Qed.

Lemma Typed_for_of {A : Type} (l : list A) (body : A -> M unit) s :
  (forall x, Typed s (body x) s) -> Typed s (for_of l body) s.
Proof.
  intros Hbody. induction l as [| x l IH]; cbn [for_of].
  - apply Typed_ret.
  - apply Typed_bind; auto.
Qed.

Ltac typed :=
  repeat (
    first [ progress intros
          | assumption
          | apply Typed_ret
          | apply Typed_bind
          | apply Typed_try_catch
          | apply Typed_for_of
          | apply Typed_await_call; [assumption |]
          | apply Typed_perform_await; [assumption | reflexivity]
          | apply Typed_settle_await; [assumption | reflexivity]
          | apply Typed_perform_quiet; [reflexivity | reflexivity]
          | apply Typed_settle_quiet; [reflexivity | reflexivity] ]).

Lemma Typed_notify_from (upload : PendingUpload) s :
  forall fuel index, Typed s (notify_from fuel index upload) s.
Proof.
  induction fuel as [| fuel IH]; intros index; cbn [notify_from]; [apply Typed_ret |].
  typed. destruct (_ !! index); [| apply Typed_ret]. typed. apply IH.
Qed.

Lemma Typed_notifyProgress (upload : PendingUpload) s :
  Typed s (notifyProgress upload) s.
Proof. unfold notifyProgress. typed. apply Typed_notify_from. Qed.

Lemma Typed_retry_while {T : Type} (operation : M T) cfg s :
  stable s -> Typed s operation s ->
  forall fuel lastError attempt,
    Typed s (retry_while fuel operation cfg lastError attempt) s.
Proof.
  intros Hs Hop. induction fuel as [| fuel IH]; intros lastError attempt;
    cbn [retry_while]; destruct (attempt <=? maxRetries cfg);
    try (unfold throw_lastError, throw; apply Typed_ret).
  apply Typed_try_catch; [typed |]. intros error. cbv zeta.
  destruct (attempt + 1 >? maxRetries cfg);
    [unfold throw_lastError, throw; apply Typed_ret |].
  unfold sleep, calculateBackoffDelay. typed. apply IH.
Qed.

Lemma Typed_transfer (upload : PendingUpload) s :
  stable s -> Typed s (transfer upload) s.
Proof.
  intros Hs. unfold transfer, retryWithBackoff.
  apply Typed_retry_while; [assumption |]. unfold uploadFile. typed.
Qed.

Lemma Typed_processUpload_response (upload : PendingUpload) response s :
  stable s -> Typed s (processUpload_response upload response) s.
Proof.
  intros Hs. unfold processUpload_response.
  destruct (Response.ok response); [| apply Typed_ret].
  typed. apply Typed_notify_from.
Qed.

Lemma Typed_processUpload_catch (upload : PendingUpload) err s :
  stable s -> Typed s (processUpload_catch upload err) s.
Proof.
  intros Hs. unfold processUpload_catch. cbv zeta.
  apply Typed_bind; [typed |]. intros _.
  apply Typed_bind; [apply Typed_notifyProgress |]. intros _.
  apply Typed_bind; [typed |]. intros _.
  match goal with |- Typed _ (if ?b then _ else _) _ => destruct b end; typed.
Qed.

Lemma Typed_processUpload (upload : PendingUpload) s :
  stable s -> Typed s (processUpload upload) s.
Proof.
  intros Hs. unfold processUpload. cbv zeta.
  apply Typed_bind; [typed |]. intros _.
  apply Typed_bind; [typed |]. intros _.
  apply Typed_bind; [apply Typed_notifyProgress |]. intros _.
  apply Typed_try_catch.
  - apply Typed_bind.
    + apply Typed_await_call; [assumption |]. now apply Typed_transfer.
    + intros response. now apply Typed_processUpload_response.
  - intros err. now apply Typed_processUpload_catch.
Qed.

Lemma Typed_processQueue_try : Typed Holding processQueue_try Idle.
Proof.
  assert (Hs : stable Holding) by (right; reflexivity).
  unfold processQueue_try, try_finally.
  eapply Typed_bindP with (s1 := Holding).
  - apply Typed_try_catch; [| typed].
    apply Typed_bind; [typed |]. intros _.
    apply Typed_bind; [typed |]. intros pendingUploads.
    apply Typed_for_of. intros upload.
    apply Typed_try_catch; [| typed].
    apply Typed_await_call; [assumption |]. now apply Typed_processUpload.
  - intros r. cbn [bind perform bindP].
    apply Typed_leave, Typed_unlock, Typed_ret.
Qed.

Lemma Typed_processQueue : Typed Idle processQueue Idle.
Proof.
  unfold processQueue. cbn [bind perform bindP].
  apply Typed_read.
  - apply Typed_ret.
  - apply Typed_quiet; [reflexivity | reflexivity |]. intros online.
    destruct online; cbn [negb].
    + apply Typed_lock, Typed_enter, Typed_processQueue_try.
    + apply Typed_forget, Typed_ret.
Qed.

Lemma Typed_fork_processQueue : Typed Idle (fork processQueue) Idle.
Proof.
  unfold fork. apply Typed_fork; [apply Typed_processQueue | apply Typed_ret].
Qed.

Lemma Typed_api_body (call : ApiCall) : Typed Idle (api_body call) Idle.
Proof.
  assert (Hs : stable Idle) by (left; reflexivity).
  destruct call; cbn [api_body].
  - unfold init. typed. destruct a; typed.
  - unfold cleanup. typed. destruct a; typed.
  - unfold onProgress. typed.
  - unfold unsubscribe. typed.
  - unfold void, addToQueue. cbv zeta. typed.
    destruct a3; [apply Typed_fork_processQueue | typed].
  - apply Typed_processQueue.
  - unfold retryUpload. typed. destruct a0; [| apply Typed_ret].
    cbv zeta. typed. apply Typed_fork_processQueue.
  - unfold cancelUpload. typed.
  - unfold void, getPendingUploads. typed.
  - unfold void, getFailedUploads. typed.
  - unfold retryAllFailed, getFailedUploads. cbv zeta. typed.
    apply Typed_fork_processQueue.
  - unfold clearQueue. typed.
  - unfold void, getQueueStatus. typed.
Qed.

Lemma holders_app (l1 l2 : list Phase) :
  holders (l1 ++ l2) = (holders l1 + holders l2)%nat.
Proof. induction l1 as [| s l1 IH]; cbn [holders app]; lia. Qed.

Lemma holders_insert (l : list Phase) (i : nat) (s t : Phase) :
  l !! i = Some t ->
  (holders (<[i := s]> l) + own t = holders l + own s)%nat.
Proof.
  revert i. induction l as [| u l IH]; intros [| i] Hi; try discriminate.
  - injection Hi as ->. cbn. lia.
  - cbn in Hi. specialize (IH i Hi). cbn [holders]. 
    change (<[S i:=s]> (u :: l)) with (u :: <[i:=s]> l). cbn [holders]. lia.
Qed.

Lemma holders_delete (l : list Phase) (i : nat) (t : Phase) :
  l !! i = Some t ->
  (holders (delete i l) + own t = holders l)%nat.
Proof.
  revert i. induction l as [| u l IH]; intros [| i] Hi; try discriminate.
  - injection Hi as ->. cbn. lia.
  - cbn in Hi. specialize (IH i Hi). 
    change (delete (S i) (u :: l)) with (u :: delete i l). cbn [holders]. lia.
Qed.

Lemma Inv_same s c c' :
  pool c' = pool c ->
  isProcessing (world c') = isProcessing (world c) ->
  draining (world c') = draining (world c) ->
  Inv s c -> Inv s c'.
Proof.
  intros Hp Hf Hd (phases & Hall & Hcount). exists phases.
  rewrite Hp, Hf, Hd. split; assumption.
Qed.

Lemma Inv_forget c : Inv Seen c -> Inv Idle c.
Proof.
  intros (phases & Hall & Hf & Hh & Hd). exists phases. split; [assumption |].
  rewrite Hf, Hh, Hd. split; reflexivity.
Qed.

Lemma Inv_read c : Inv Idle c -> isProcessing (world c) = false -> Inv Seen c.
Proof.
  intros (phases & Hall & Hh & Hd) Hf. exists phases. split; [assumption |].
  rewrite Hf in Hh. cbn in Hh. rewrite Hd, Hh. repeat split; assumption.
Qed.

Lemma Inv_lock c :
  Inv Seen c -> Inv Locked (mkConfig (set_isProcessing true (world c)) (pool c)).
Proof.
  intros (phases & Hall & Hf & Hh & Hd). exists phases. split; [assumption |].
  cbn. repeat split; assumption.
Qed.

Lemma Inv_enter c :
  Inv Locked c ->
  Inv Holding (mkConfig (set_draining (S (draining (world c))) (world c)) (pool c)).
Proof.
  intros (phases & Hall & Hf & Hh & Hd). exists phases. split; [assumption |].
  cbn. rewrite Hd. repeat split; assumption.
Qed.

Lemma Inv_leave c :
  Inv Holding c ->
  Inv Leaving (mkConfig (set_draining (Nat.pred (draining (world c))) (world c)) (pool c)).
Proof.
  intros (phases & Hall & Hf & Hh & Hd). exists phases. split; [assumption |].
  cbn. rewrite Hd. repeat split; assumption.
Qed.

Lemma Inv_unlock c :
  Inv Leaving c -> Inv Idle (mkConfig (set_isProcessing false (world c)) (pool c)).
Proof.
  intros (phases & Hall & Hf & Hh & Hd). exists phases. split; [assumption |].
  cbn. rewrite Hh, Hd. split; reflexivity.
Qed.

Lemma Inv_park s1 (p : Prog (Result unit)) c :
  stable s1 -> Typed s1 p Idle -> Inv s1 c ->
  Inv Idle (mkConfig (world c) (pool c ++ [p])).
Proof.
  intros Hs Hp (phases & Hall & Hcount). exists (phases ++ [s1]). split.
  - cbn [pool]. apply Forall2_app; [assumption |]. constructor; [| constructor].
    split; assumption.
  - cbn [world]. rewrite holders_app. cbn [holders own].
    destruct Hs as [-> | ->].
    + destruct Hcount as [Hh Hd]. cbn. rewrite Hd, <- Hh. split; lia.
    + destruct Hcount as (Hf & Hh & Hd). cbn. rewrite Hf, Hh, Hd. split; reflexivity.
Qed.

Lemma park_returned (p : Prog (Result unit)) c :
  returned p -> pool (park p c) = pool c /\
                isProcessing (world (park p c)) = isProcessing (world c) /\
                draining (world (park p c)) = draining (world c).
Proof. destruct p; cbn; intros []; repeat split. Qed.

Lemma park_awaiting (p : Prog (Result unit)) c :
  awaiting p -> park p c = mkConfig (world c) (pool c ++ [p]).
Proof. destruct p; cbn; intros H; try contradiction; reflexivity. Qed.

(** Running a typed program up to its next [await] keeps the invariant,
    and leaves a typed program. *)
Lemma run_sync_typed {A : Type} (s : Phase) (p : Prog A) (s' : Phase) :
  Typed s p s' ->
  forall c, Inv s c ->
    (returned (fst (run_sync p c)) /\ Inv s' (snd (run_sync p c))) \/
    (exists s1, stable s1 /\ Typed s1 (fst (run_sync p c)) s' /\
                Inv s1 (snd (run_sync p c)) /\ awaiting (fst (run_sync p c))).
Proof.
  induction 1 as [A s a | A p s' _ IH | A X e k s s' He Hs Hk _
                 | A k s' _ IHt _ IHf | A X e k s s' He Hq _ IH
                 | A k s' _ IH | A k s' _ IH | A k s' _ IH | A k s' _ IH
                 | A child k s' _ IHc _ IHk]; intros c Hc.
  - left. cbn. split; [exact I | exact Hc].
  - apply IH. now apply Inv_forget.
  - right. exists s. cbn [run_sync]. rewrite He. cbn [fst snd].
    repeat split; try assumption. now apply Typed_await.
  - cbn [run_sync is_await handle]. destruct (isProcessing (world c)) eqn:Hf.
    + apply IHt. rewrite config_eta. exact Hc.
    + apply IHf. rewrite config_eta. now apply Inv_read.
  - cbn [run_sync]. rewrite He.
    destruct (handle_quiet e (world c) Hq) as [Hf Hd].
    destruct (handle e (world c)) as [x w']. cbn [snd] in Hf, Hd.
    apply IH. eapply Inv_same; [| | | exact Hc]; cbn; auto.
  - cbn [run_sync is_await handle]. apply IH. now apply Inv_lock.
  - cbn [run_sync is_await handle]. apply IH. now apply Inv_enter.
  - cbn [run_sync is_await handle]. apply IH. now apply Inv_leave.
  - cbn [run_sync is_await handle]. apply IH. now apply Inv_unlock.
  - cbn [run_sync]. specialize (IHc c Hc).
    destruct (run_sync child c) as [child' c1]. cbn [fst snd] in IHc.
    apply IHk. destruct IHc as [[Hret Hinv] | (s1 & Hs1 & Ht1 & Hinv & Haw)].
    + destruct (park_returned child' c1 Hret) as (Hp & Hf & Hd).
      eapply Inv_same; eassumption.
    + rewrite (park_awaiting child' c1 Haw). eapply Inv_park; eassumption.
Qed.

Lemma begin_Inv (p : M unit) c :
  Typed Idle p Idle -> Inv Idle c -> Inv Idle (begin p c).
Proof.
  intros Hp Hc. unfold begin.
  destruct (run_sync_typed Idle p Idle Hp c Hc)
    as [[Hret Hinv] | (s1 & Hs1 & Ht1 & Hinv & Haw)];
    destruct (run_sync p c) as [p' c']; cbn [fst snd] in *.
  - destruct (park_returned p' c' Hret) as (Hpool & Hf & Hd).
    eapply Inv_same; eassumption.
  - rewrite (park_awaiting p' c' Haw). eapply Inv_park; eassumption.
Qed.

Lemma Typed_await_inv {A X : Type} (e : Eff X) (k : X -> Prog A) s s' :
  Typed s (Vis e k) s' -> is_await e = true -> stable s ->
  forall x, Typed s (k x) s'.
Proof.
  intros H.
  change (match Vis e k with
          | Vis e0 k0 => is_await e0 = true -> stable s ->
                         forall x, Typed s (k0 x) s'
          | _ => True
          end).
  destruct H as [s a | p s' Hp | X0 e0 k0 s s' He0 Hs0 Hk | k0 s' Ht Hf
                | X0 e0 k0 s s' He0 Hq Hk | k0 s' Hk | k0 s' Hk | k0 s' Hk
                | k0 s' Hk | child k0 s' Hc Hk];
    try exact I; try (intros He; discriminate He); try (intros _ _; exact Hk).
  destruct p; try exact I. intros _ [Hs | Hs]; discriminate Hs.
Qed.

Lemma Typed_running_phase s : stable s -> Typed s running Idle -> s = Idle.
Proof.
  intros Hs H. unfold running in H. inversion H; subst; try reflexivity.
  destruct Hs; discriminate.
Qed.

Lemma run_sync_pool {A : Type} (p : Prog A) :
  forall c, exists extra, pool (snd (run_sync p c)) = pool c ++ extra.
Proof.
  induction p as [A a | A X e k IH | A child IHc k IHk]; intros c; cbn [run_sync].
  - exists []. cbn. now rewrite app_nil_r.
  - destruct (is_await e); [exists []; cbn; now rewrite app_nil_r |].
    destruct (handle e (world c)) as [x w']. apply (IH x (mkConfig w' (pool c))).
  - destruct (IHc c) as [extra1 H1].
    destruct (run_sync child c) as [child' c1]. cbn [snd] in H1.
    destruct (IHk (park child' c1)) as [extra2 H2]. rewrite H2.
    destruct child'; cbn [park on_world pool]; rewrite H1.
    + exists (extra1 ++ extra2). now rewrite app_assoc.
    + exists (extra1 ++ [Vis e k0] ++ extra2). now rewrite !app_assoc.
    + exists (extra1 ++ [Fork child'1 child'2] ++ extra2). now rewrite !app_assoc.
Qed.

Lemma Inv_Idle_intro (phases : list Phase) (c : Config) :
  Forall2 (fun s p => stable s /\ Typed s p Idle) phases (pool c) ->
  holders phases = Nat.b2n (isProcessing (world c)) ->
  draining (world c) = holders phases ->
  Inv Idle c.
Proof. intros H1 H2 H3. exists phases. repeat split; assumption. Qed.

Lemma turn_Inv (i : nat) (c c' : Config) :
  Inv Idle c -> turn i c = Some c' -> Inv Idle c'.
Proof.
  intros (phases & Hall & Hh & Hd) Hturn. unfold turn in Hturn.
  destruct (pool c !! i) as [p |] eqn:Hp; [| discriminate].
  destruct (Forall2_lookup_r _ _ _ _ _ Hall Hp) as (si & Hsi & Hstable & Htyped).
  assert (Hresume : Inv Idle (resume i p c)).
  { unfold resume.
    set (c0 := mkConfig (world c) (<[i := running]> (pool c))).
    assert (Hc0 : Inv si c0).
    { exists (<[i := Idle]> phases). split.
      - apply Forall2_insert; [assumption |]. split; [now left | apply Typed_ret].
      - pose proof (holders_insert phases i Idle si Hsi) as Hins. cbn [own] in Hins.
        cbn [c0 world]. destruct Hstable as [-> | ->]; cbn [own] in Hins.
        + split; lia.
        + destruct (isProcessing (world c)); cbn in Hh; [| cbn in Hins; lia].
          cbn in Hins. repeat split; lia. }
    assert (Hi : (i < length (pool c))%nat) by (eapply lookup_lt_Some; eassumption).
    destruct (run_sync_pool p c0) as [extra Hextra].
    assert (Hrun_i : pool (snd (run_sync p c0)) !! i = Some running).
    { rewrite Hextra. cbn [c0 pool]. rewrite lookup_app_l by (rewrite length_insert; lia).
      now apply list_lookup_insert_eq. }
    destruct (run_sync_typed si p Idle Htyped c0 Hc0)
      as [[Hret Hinv] | (s1 & Hs1 & Ht1 & Hinv & Haw)];
      destruct (run_sync p c0) as [p' c1]; cbn [fst snd] in *.
    - destruct p' as [r | |]; try contradiction.
      destruct Hinv as (phases1 & Hall1 & Hh1 & Hd1).
      destruct (Forall2_lookup_r _ _ _ _ _ Hall1 Hrun_i) as (t & Ht & Htst & Httyped).
      apply Typed_running_phase in Httyped; [| assumption]. subst t.
      pose proof (holders_delete phases1 i Idle Ht) as Hdel. cbn [own] in Hdel.
      apply (Inv_Idle_intro (delete i phases1)); cbn [pool world log isProcessing draining].
      + now apply Forall2_delete.
      + lia.
      + lia.
    - assert (Hnot : match p' with Ret _ => False | _ => True end)
        by (destruct p'; [contradiction | exact I | exact I]).
      assert (Hform : Inv Idle (mkConfig (world c1) (<[i := p']> (pool c1)))).
      { destruct Hinv as (phases1 & Hall1 & Hcount1).
        destruct (Forall2_lookup_r _ _ _ _ _ Hall1 Hrun_i) as (t & Ht & Htst & Httyped).
        apply Typed_running_phase in Httyped; [| assumption]. subst t.
        pose proof (holders_insert phases1 i s1 Idle Ht) as Hins. cbn [own] in Hins.
        apply (Inv_Idle_intro (<[i := s1]> phases1)); cbn [pool world].
        - apply Forall2_insert; [assumption |]. split; assumption.
        - destruct Hs1 as [-> | ->]; cbn [own] in Hins.
          + destruct Hcount1; lia.
          + destruct Hcount1 as (Hf1 & Hh1 & Hd1). rewrite Hf1. cbn. lia.
        - destruct Hs1 as [-> | ->]; cbn [own] in Hins.
          + destruct Hcount1; lia.
          + destruct Hcount1 as (Hf1 & Hh1 & Hd1). lia. }
      destruct p'; [contradiction | exact Hform | exact Hform]. }
  destruct p as [r | X e k | child k]; try (injection Hturn as <-; exact Hresume).
  destruct (is_await e) eqn:He; [| injection Hturn as <-; exact Hresume].
  destruct (handle_quiet e (world c) (await_quiet e He)) as [Hf' Hd'].
  destruct (handle e (world c)) as [x w'] eqn:Hhandle. cbn [snd] in Hf', Hd'.
  injection Hturn as <-.
  apply (Inv_Idle_intro phases); cbn [pool world].
  - rewrite <- (list_insert_id phases i si Hsi).
    apply Forall2_insert; [assumption |]. split; [assumption |].
    eapply Typed_await_inv; eassumption.
  - congruence.
  - congruence.
Qed.

Lemma initial_Inv (c : Config) : initial c -> Inv Idle c.
Proof.
  intros (Hpool & Hflag & Hdrain). apply (Inv_Idle_intro []).
  - rewrite Hpool. constructor.
  - now rewrite Hflag.
  - exact Hdrain.
Qed.

Lemma step_Inv (a : Action) (c c' : Config) :
  public a -> Inv Idle c -> step a c = Some c' -> Inv Idle c'.
Proof.
  intros Hpub Hc Hstep. destruct a as [p | i | |]; cbn [step] in Hstep.
  - destruct Hpub as [call ->]. injection Hstep as <-.
    apply begin_Inv; [apply Typed_api_body | exact Hc].
  - eapply turn_Inv; eassumption.
  - assert (Hc1 : Inv Idle (on_world (set_onLine true) c))
      by (eapply Inv_same; [| | | exact Hc]; reflexivity).
    destruct (onlineListener (world c)); injection Hstep as <-; [| exact Hc1].
    apply begin_Inv; [apply Typed_fork_processQueue | exact Hc1].
  - injection Hstep as <-. eapply Inv_same; [| | | exact Hc]; reflexivity.
Qed.

Lemma exec_Inv (acts : list Action) :
  Forall public acts ->
  forall c c', Inv Idle c -> exec acts c = Some c' -> Inv Idle c'.
Proof.
  induction 1 as [| a acts Ha _ IH]; intros c c' Hc Hexec; cbn [exec] in Hexec.
  - now injection Hexec as <-.
  - destruct (step a c) as [c1 |] eqn:Hstep; [| discriminate].
    eapply IH; [| exact Hexec]. eapply step_Inv; eassumption.
Qed.

Lemma run_sync_processQueue_busy (c : Config) :
  isProcessing (world c) = true ->
  run_sync processQueue c = (Ret (Ok tt), c).
Proof.
  intros Hflag. unfold processQueue.
  cbn [bind perform bindP run_sync is_await handle]. rewrite Hflag.
  cbn. destruct c; reflexivity.
Qed.

(** C3.  In every configuration the queue manager can reach through its
    public methods, the event loop and connectivity changes, the number of
    [processQueue] activations inside their [try] block is 1 when
    [isProcessing] is set and 0 otherwise: never more than one drain pass
    is under way.  While the flag is set, a call of [processQueue], from
    any call site, returns before its first [await] and leaves the
    configuration as it is: nothing is read, sent or written, and no task
    is added to the pool. *)
Theorem processQueue_single_flight (c0 : Config) (acts : list Action) (c : Config) :
  initial c0 ->
  Forall public acts ->
  exec acts c0 = Some c ->
  draining (world c) = Nat.b2n (isProcessing (world c)) /\
  (draining (world c) <= 1)%nat /\
  (isProcessing (world c) = true ->
   run_sync processQueue c = (Ret (Ok tt), c) /\
   begin processQueue c = on_world (log (EvSettled (Ok tt))) c).
Proof.
  intros Hinit Hpub Hexec.
  destruct (exec_Inv acts Hpub c0 c (initial_Inv c0 Hinit) Hexec)
    as (phases & _ & Hh & Hd).
  assert (Hcount : draining (world c) = Nat.b2n (isProcessing (world c)))
    by congruence.
  split; [exact Hcount |]. split.
  - rewrite Hcount. destruct (isProcessing (world c)); cbn; lia.
  - intros Hflag. split; [now apply run_sync_processQueue_busy |].
    rewrite begin_processQueue, Hflag. reflexivity.
Qed.

(** Where actions that can be taken lead. *)
Lemma exec_after (acts : list Action) (c : Config) :
  match exec acts c with Some _ => true | None => false end = true ->
  exec acts c = Some (Example.after acts c).
Proof.
  unfold Example.after. destruct (exec acts c); [reflexivity | discriminate].
Qed.

Lemma processQueue_single_flight_witness :
  let c0 := Example.config_of Example.http_200 (Example.record pending 0) in
  let c := Example.after Example.overlapping c0 in
  initial c0 /\
  exec Example.overlapping c0 = Some c /\
  isProcessing (world c) = true /\
  draining (world c) = 1%nat /\
  length (pool c) = 1%nat /\
  run_sync processQueue c = (Ret (Ok tt), c).
Proof.
  intros c0 c.
  assert (Hinit : initial c0) by (repeat split).
  assert (Hpub : Forall public Example.overlapping).
  { unfold Example.overlapping.
    repeat (constructor; [first [exact I | eexists; reflexivity] |]). constructor. }
  assert (Hexec : exec Example.overlapping c0 = Some c).
  { apply exec_after. vm_compute. reflexivity. }
  assert (Hflag : isProcessing (world c) = true) by (vm_compute; reflexivity).
  destruct (processQueue_single_flight c0 Example.overlapping c Hinit Hpub Hexec)
    as (Hcount & _ & Hbusy).
  split; [exact Hinit |]. split; [exact Hexec |]. split; [exact Hflag |].
  split; [rewrite Hcount, Hflag; reflexivity |].
  split; [vm_compute; reflexivity |].
  apply Hbusy. exact Hflag.
Defined.

(* ===================================================================== *)
(** * The other methods of [QueueManager]                                *)
(* ===================================================================== *)

(** ** [addToQueue] *)

Lemma run_addToQueue (file : File) (type : MediaType) (c : Config) :
  let w := world c in
  let upload := new_upload file type w in
  let w1 := set_ticks (S (ticks w)) (set_issued (S (issued w)) w) in
  run (addToQueue file type) c =
  match store w !! id upload with
  | Some _ =>
      (Thrown (JsError ("데이터 추가 실패: "
                        +:+ DOMException_toString ConstraintError
                              (messages (oracle w) ConstraintError))),
       mkConfig w1 (pool c))
  | None =>
      (Ok (id upload),
       if onLine w then begin processQueue (mkConfig (added upload w1) (pool c))
       else mkConfig (added upload w1) (pool c))
  end.
Proof.
  intros w upload w1.
  unfold addToQueue. rewrite run_bind, run_perform. cbn [handle fst snd].
  rewrite run_bind, run_perform. cbn [handle fst snd world pool].
  rewrite run_bind, run_perform. cbn [handle fst snd world pool]. cbv zeta.
  change (mkPendingUpload _ file type pending 0 0 _ None) with upload.
  change (set_ticks _ _) with w1.
  rewrite run_bind, run_settle. cbn [handle fst snd world pool].
  change (store w1) with (store w).
  destruct (store w !! id upload) eqn:Hk; cbn [fst snd]; [reflexivity |].
  change (log (EvAdd upload) _) with (added upload w1).
  rewrite run_bind, run_perform. cbn [handle fst snd world pool].
  rewrite run_bind. change (onLine (added upload w1)) with (onLine w).
  destruct (onLine w).
  - rewrite run_fork. reflexivity.
  - reflexivity.
Qed.

(** X1.  [addToQueue] stores a new record under the next uuid, with
    status 'pending', [progress] 0 and [retryCount] 0, and returns that
    id.  Offline it starts nothing; online with the flag down it starts a
    drain pass; online with the flag up the call of [processQueue] returns
    at once.  When the id is already stored, [add] rejects: [addToQueue]
    rejects, the store is as it was and [processQueue] is not called. *)
Theorem addToQueue_spec (file : File) (type : MediaType) (c : Config) :
  let w := world c in
  let upload := new_upload file type w in
  let c' := snd (run (addToQueue file type) c) in
  (store w !! id upload = None ->
   fst (run (addToQueue file type) c) = Ok (id upload) /\
   store (world c') = <[id upload := upload]> (store w) /\
   (onLine w = false ->
    pool c' = pool c /\ isProcessing (world c') = isProcessing w) /\
   (onLine w = true -> isProcessing w = false ->
    pool c' = pool c ++ [processQueue_try] /\ isProcessing (world c') = true) /\
   (onLine w = true -> isProcessing w = true ->
    pool c' = pool c /\ isProcessing (world c') = true)) /\
  (is_Some (store w !! id upload) ->
   (exists e, fst (run (addToQueue file type) c) = Thrown e) /\
   store (world c') = store w /\
   pool c' = pool c /\
   isProcessing (world c') = isProcessing w /\
   trace (world c') = trace w).
Proof.
  intros w upload c'. subst c'. rewrite run_addToQueue. fold w. fold upload.
  split.
  - intros Hfree. rewrite Hfree. cbn [fst snd].
    split; [reflexivity |].
    split.
    { destruct (onLine w); [rewrite begin_processQueue_store |]; reflexivity. }
    split.
    { intros Hon. rewrite Hon. split; reflexivity. }
    split.
    { intros Hon Hflag. rewrite Hon, begin_processQueue.
      cbn [world pool]. change (isProcessing (added _ _)) with (isProcessing w).
      change (onLine (added _ _)) with (onLine w). rewrite Hflag, Hon.
      split; reflexivity. }
    intros Hon Hflag. rewrite Hon, begin_processQueue.
    cbn [world pool]. change (isProcessing (added _ _)) with (isProcessing w).
    rewrite Hflag. split; [reflexivity | exact Hflag].
  - intros [old Hold]. rewrite Hold. cbn [fst snd world pool].
    split; [eexists; reflexivity |]. repeat split.
Qed.

Lemma addToQueue_spec_witness :
  let c := Example.config_of Example.http_200 (Example.record pending 0) in
  let fresh := new_upload Example.photo image (world c) in
  store (world c) !! id fresh = None /\
  onLine (world c) = true /\
  isProcessing (world c) = false /\
  fst (run (addToQueue Example.photo image) c) = Ok (id fresh) /\
  pool (snd (run (addToQueue Example.photo image) c)) = pool c ++ [processQueue_try] /\
  is_Some (store (world (snd (run (addToQueue Example.photo image) c))) !! id fresh).
Proof.
  intros c fresh.
  assert (Hfree : store (world c) !! id fresh = None) by reflexivity.
  assert (Hon : onLine (world c) = true) by reflexivity.
  assert (Hflag : isProcessing (world c) = false) by reflexivity.
  destruct (addToQueue_spec Example.photo image c) as [Hnew _].
  destruct (Hnew Hfree) as (Hid & Hstore & _ & Hdrain & _).
  split; [exact Hfree |]. split; [exact Hon |]. split; [exact Hflag |].
  split; [exact Hid |]. split; [exact (proj1 (Hdrain Hon Hflag)) |].
  rewrite Hstore. exists fresh. apply lookup_insert_eq.
Defined.

(** ** [cancelUpload] and [clearQueue] *)

(** X2.  On an open database, [cancelUpload] resolves whether or not the
    id is stored.  It removes the record of that id and touches no other;
    on an id that is not stored it leaves the store as it is, so
    cancelling twice is cancelling once. *)
Theorem cancelUpload_idempotent (uploadId : string) (c : Config) :
  let c1 := snd (run (cancelUpload uploadId) c) in
  let c2 := snd (run (cancelUpload uploadId) c1) in
  fst (run (cancelUpload uploadId) c) = Ok tt /\
  store (world c1) = delete uploadId (store (world c)) /\
  store (world c1) !! uploadId = None /\
  (forall k, k <> uploadId -> store (world c1) !! k = store (world c) !! k) /\
  (store (world c) !! uploadId = None -> store (world c1) = store (world c)) /\
  store (world c2) = store (world c1) /\
  pool c1 = pool c.
Proof.
  intros c1 c2. subst c2 c1. unfold cancelUpload.
  rewrite !run_bind, !run_perform. cbn [handle fst snd world pool].
  rewrite ?run_perform. cbn [handle fst snd world pool log set_store store].
  split; [reflexivity |]. split; [reflexivity |].
  split; [apply lookup_delete_eq |].
  split; [intros k Hk; now apply lookup_delete_ne |].
  split; [intros Habsent; now apply delete_id |].
  split; [apply delete_delete_eq | reflexivity].
Qed.

Lemma cancelUpload_idempotent_witness :
  let c := Example.config_of Example.http_200 (Example.record pending 0) in
  store (world c) !! "zz" = None /\
  store (world (snd (run (cancelUpload "zz") c))) = store (world c).
Proof.
  intros c.
  assert (Habsent : store (world c) !! "zz" = None) by reflexivity.
  split; [exact Habsent |].
  destruct (cancelUpload_idempotent "zz" c) as (_ & _ & _ & _ & Hid & _).
  exact (Hid Habsent).
Defined.

(** X3.  After [clearQueue] the store is empty: [getQueueStatus] reports
    zero records of every status and the three listings are empty. *)
Theorem clearQueue_empties (c : Config) :
  let c1 := snd (run clearQueue c) in
  fst (run clearQueue c) = Ok tt /\
  store (world c1) = ∅ /\
  fst (run getQueueStatus c1) = Ok (QueueStatus.mk 0 0 0 0) /\
  fst (run getPendingUploads c1) = Ok [] /\
  fst (run getFailedUploads c1) = Ok [] /\
  pool c1 = pool c.
Proof.
  intros c1. subst c1. unfold clearQueue.
  rewrite !run_bind, !run_perform. cbn [handle fst snd world pool].
  rewrite ?run_perform. cbn [handle fst snd world pool log set_store store].
  split; [reflexivity |]. split; [reflexivity |].
  unfold getQueueStatus, getPendingUploads, getFailedUploads.
  rewrite !run_bind, !run_perform. cbn [handle fst snd world pool].
  rewrite ?run_bind, ?run_perform. cbn [handle fst snd world pool log set_store store].
  unfold by_status, records. rewrite map_to_list_empty. repeat split.
Qed.

(** ** [notifyProgress] *)



Lemma Callback_eqb_refl (cb : Callback) : Callback_eqb cb cb = true.
Proof.
  unfold Callback_eqb. rewrite Nat.eqb_refl. now destruct (cb_throws cb).
Qed.



(** ** [onProgress] and the function it returns *)

Lemma remove_first_absent (cb : Callback) (l : list Callback) :
  registrations cb l = 0%nat -> remove_first cb l = l.
Proof.
  unfold registrations.
  induction l as [| a l IH]; cbn [remove_first List.filter]; [reflexivity |].
  destruct (Callback_eqb a cb); cbn [length]; [discriminate |].
  intros H. now rewrite IH.
Qed.

Lemma remove_first_registrations (cb : Callback) (l : list Callback) :
  registrations cb (remove_first cb l) = Nat.pred (registrations cb l).
Proof.
  unfold registrations.
  induction l as [| a l IH]; cbn [remove_first List.filter]; [reflexivity |].
  destruct (Callback_eqb a cb) eqn:Heq; cbn [length Nat.pred]; [reflexivity |].
  cbn [List.filter]. rewrite Heq. exact IH.
Qed.

Lemma remove_first_others (cb : Callback) (l : list Callback) :
  others cb (remove_first cb l) = others cb l.
Proof.
  unfold others.
  induction l as [| a l IH]; cbn [remove_first List.filter]; [reflexivity |].
  destruct (Callback_eqb a cb) eqn:Heq; cbn [negb]; [reflexivity |].
  cbn [List.filter]. rewrite Heq. cbn [negb]. now rewrite IH.
Qed.

Lemma remove_first_push (cb : Callback) (l : list Callback) :
  registrations cb l = 0%nat -> remove_first cb (l ++ [cb]) = l.
Proof.
  unfold registrations.
  induction l as [| a l IH]; cbn [remove_first List.filter app].
  - now rewrite Callback_eqb_refl.
  - destruct (Callback_eqb a cb); cbn [length]; [discriminate |].
    intros H. now rewrite IH.
Qed.

Lemma registrations_push (cb : Callback) (l : list Callback) :
  registrations cb (l ++ [cb]) = S (registrations cb l).
Proof.
  unfold registrations. rewrite List.filter_app, length_app. cbn [List.filter].
  rewrite Callback_eqb_refl. cbn [length]. lia.
Qed.

Lemma run_onProgress (cb : Callback) (c : Config) :
  run (onProgress cb) c
  = (Ok tt, on_world (set_progressCallbacks (progressCallbacks (world c) ++ [cb])) c).
Proof.
  unfold onProgress. rewrite run_bind, run_perform. cbn [handle fst snd].
  rewrite run_perform. cbn [handle fst snd world pool]. reflexivity.
Qed.

Lemma run_unsubscribe (cb : Callback) (c : Config) :
  run (unsubscribe cb) c
  = (Ok tt, on_world (set_progressCallbacks
                        (remove_first cb (progressCallbacks (world c)))) c).
Proof.
  unfold unsubscribe. rewrite run_bind, run_perform. cbn [handle fst snd].
  rewrite run_perform. cbn [handle fst snd world pool]. reflexivity.
Qed.

(** X5.  The function returned by [onProgress] removes one registration
    of the callback, the oldest, and leaves the other callbacks in their
    order; called when the callback is not registered (a second call, for
    instance) it changes nothing. *)
Theorem unsubscribe_spec (callback : Callback) (c : Config) :
  let l := progressCallbacks (world c) in
  let l1 := progressCallbacks (world (snd (run (unsubscribe callback) c))) in
  fst (run (unsubscribe callback) c) = Ok tt /\
  registrations callback l1 = Nat.pred (registrations callback l) /\
  others callback l1 = others callback l /\
  (registrations callback l = 0%nat -> l1 = l) /\
  (forall front back,
     l = front ++ callback :: back -> registrations callback front = 0%nat ->
     l1 = front ++ back).
Proof.
  intros l l1. subst l1. rewrite run_unsubscribe. cbn [fst snd on_world world].
  repeat change (progressCallbacks (set_progressCallbacks ?x _)) with x. fold l.
  split; [reflexivity |].
  split; [apply remove_first_registrations |].
  split; [apply remove_first_others |].
  split; [apply remove_first_absent |].
  intros front back Hl Hfront. rewrite Hl. clear Hl.
  unfold registrations in Hfront.
  induction front as [| a front IH]; cbn [app remove_first].
  - now rewrite Callback_eqb_refl.
  - cbn [List.filter] in Hfront.
    destruct (Callback_eqb a callback); [discriminate |]. now rewrite IH.
Qed.

Lemma unsubscribe_spec_witness :
  let c := Example.config_of Example.http_200 (Example.record pending 0) in
  let stranger := mkCallback 7 false in
  registrations stranger (progressCallbacks (world c)) = 0%nat /\
  progressCallbacks (world (snd (run (unsubscribe stranger) c)))
  = progressCallbacks (world c).
Proof.
  intros c stranger.
  assert (H0 : registrations stranger (progressCallbacks (world c)) = 0%nat)
    by reflexivity.
  split; [exact H0 |].
  destruct (unsubscribe_spec stranger c) as (_ & _ & _ & Hsame & _).
  exact (Hsame H0).
Defined.

(** X6.  Subscribing and then unsubscribing restores the list of
    callbacks when the callback was not registered before.  When it was,
    the round trip keeps the number of its registrations but removes the
    oldest one: the callback moves to the end of the notification order. *)
Theorem onProgress_unsubscribe (callback : Callback) (c : Config) :
  let l := progressCallbacks (world c) in
  let c1 := snd (run (onProgress callback) c) in
  let l2 := progressCallbacks (world (snd (run (unsubscribe callback) c1))) in
  registrations callback (progressCallbacks (world c1)) = S (registrations callback l) /\
  registrations callback l2 = registrations callback l /\
  others callback l2 = others callback l /\
  (registrations callback l = 0%nat -> l2 = l) /\
  (forall front back,
     l = front ++ callback :: back -> registrations callback front = 0%nat ->
     l2 = front ++ back ++ [callback]).
Proof.
  intros l c1 l2. subst l2 c1. rewrite run_onProgress. cbn [fst snd].
  rewrite run_unsubscribe. cbn [fst snd on_world world].
  repeat change (progressCallbacks (set_progressCallbacks ?x _)) with x. fold l.
  split; [apply registrations_push |].
  split; [rewrite remove_first_registrations, registrations_push; reflexivity |].
  split.
  { rewrite remove_first_others. unfold others. rewrite List.filter_app.
    cbn [List.filter]. rewrite Callback_eqb_refl. cbn [negb]. apply app_nil_r. }
  split; [apply remove_first_push |].
  intros front back Hl Hfront. rewrite Hl, <- app_assoc. clear Hl.
  unfold registrations in Hfront.
  induction front as [| a front IH]; cbn [app remove_first].
  - now rewrite Callback_eqb_refl.
  - cbn [List.filter] in Hfront.
    destruct (Callback_eqb a callback); [discriminate |].
    cbn [app] in IH. now rewrite IH.
Qed.

Lemma onProgress_unsubscribe_witness :
  let c := Example.config_of Example.http_200 (Example.record pending 0) in
  let c1 := snd (run (onProgress Example.observer) c) in
  progressCallbacks (world c) = [] ++ Example.observer :: [] /\
  registrations Example.observer [] = 0%nat /\
  progressCallbacks (world (snd (run (unsubscribe Example.observer) c1)))
  = [Example.observer].
Proof.
  intros c c1.
  assert (Hl : progressCallbacks (world c) = [] ++ Example.observer :: []) by reflexivity.
  assert (H0 : registrations Example.observer [] = 0%nat) by reflexivity.
  split; [exact Hl |]. split; [exact H0 |].
  destruct (onProgress_unsubscribe Example.observer c) as (_ & _ & _ & _ & Hmove).
  exact (Hmove [] [] Hl H0).
Defined.

(** ** [init], [cleanup] and the 'online' event *)

Lemma run_init (c : Config) :
  run init c = (Ok tt, on_world (set_onlineListener true) c).
Proof.
  unfold init. rewrite run_bind, run_perform. cbn [handle fst snd].
  destruct c as [w tasks]. cbn [world pool].
  destruct (onlineListener w) eqn:Hl.
  - cbn. destruct w; cbn in *; subst; reflexivity.
  - rewrite run_perform. reflexivity.
Qed.

Lemma run_cleanup (c : Config) :
  run cleanup c = (Ok tt, on_world (set_onlineListener false) c).
Proof.
  unfold cleanup. rewrite run_bind, run_perform. cbn [handle fst snd].
  destruct c as [w tasks]. cbn [world pool].
  destruct (onlineListener w) eqn:Hl.
  - rewrite run_perform. reflexivity.
  - cbn. destruct w; cbn in *; subst; reflexivity.
Qed.

Lemma begin_fork (p : M unit) (c : Config) :
  begin (fork p) c = on_world (log (EvSettled (Ok tt))) (begin p c).
Proof.
  unfold begin, fork. cbn [run_sync]. destruct (run_sync p c) as [p' c'].
  reflexivity.
Qed.

(** X7.  [init] registers the 'online' listener and is idempotent;
    [cleanup] removes it and is idempotent.  When the browser comes back
    online, a drain pass is started exactly when the listener is
    registered and no pass is running; without [init], or after
    [cleanup], the event starts nothing.  None of this touches the
    store. *)
Theorem online_listener_spec (c : Config) :
  let c1 := snd (run init c) in
  let c2 := snd (run cleanup c) in
  (onlineListener (world c1) = true /\ snd (run init c1) = c1 /\
   store (world c1) = store (world c) /\ pool c1 = pool c) /\
  (onlineListener (world c2) = false /\ snd (run cleanup c2) = c2 /\
   store (world c2) = store (world c) /\ pool c2 = pool c) /\
  (exists c', step Online c = Some c' /\
     onLine (world c') = true /\
     store (world c') = store (world c) /\
     (onlineListener (world c) = false ->
      pool c' = pool c /\ isProcessing (world c') = isProcessing (world c)) /\
     (onlineListener (world c) = true -> isProcessing (world c) = false ->
      pool c' = pool c ++ [processQueue_try] /\ isProcessing (world c') = true) /\
     (onlineListener (world c) = true -> isProcessing (world c) = true ->
      pool c' = pool c /\ isProcessing (world c') = true)).
Proof.
  intros c1 c2. subst c1 c2. rewrite run_init, run_cleanup. cbn [fst snd].
  split; [rewrite run_init; repeat split |].
  split; [rewrite run_cleanup; repeat split |].
  cbn [step]. destruct (onlineListener (world c)) eqn:Hl.
  - eexists. split; [reflexivity |]. unfold onlineListener_body.
    rewrite begin_fork, begin_processQueue. cbn [on_world world pool].
    change (isProcessing (set_onLine true (world c))) with (isProcessing (world c)).
    change (onLine (set_onLine true (world c))) with true. cbn [negb].
    destruct (isProcessing (world c)) eqn:Hflag; cbn;
      (split; [reflexivity |]); (split; [reflexivity |]);
      (split; [discriminate |]); split; intros; (discriminate || (split; congruence)).
  - eexists. split; [reflexivity |]. cbn.
    split; [reflexivity |]. split; [reflexivity |].
    split; [intros _; split; reflexivity |]. split; discriminate.
Qed.

Lemma online_listener_spec_witness :
  let c := snd (run init (Example.config_of Example.http_200 (Example.record pending 0))) in
  onlineListener (world c) = true /\
  isProcessing (world c) = false /\
  exists c', step Online c = Some c' /\ pool c' = pool c ++ [processQueue_try].
Proof.
  intros c.
  assert (Hl : onlineListener (world c) = true) by reflexivity.
  assert (Hflag : isProcessing (world c) = false) by reflexivity.
  split; [exact Hl |]. split; [exact Hflag |].
  destruct (online_listener_spec c) as (_ & _ & c' & Hstep & _ & _ & _ & Hstart & _).
  exists c'. split; [exact Hstep | exact (proj1 (Hstart Hl Hflag))].
Defined.

(** ** [processQueue] when there is nothing to do *)

(** X8.  [processQueue] called while a pass is running, or while the
    browser is offline, returns without error and without any effect: no
    request, no store access, no notification, the flag as it was. *)
Theorem processQueue_noop (c : Config) :
  isProcessing (world c) = true \/ onLine (world c) = false ->
  run processQueue c = (Ok tt, c).
Proof.
  intros H. rewrite run_processQueue.
  destruct (isProcessing (world c)); [reflexivity |].
  destruct H as [H | H]; [discriminate |]. now rewrite H.
Qed.

Lemma processQueue_noop_witness :
  let c := on_world (set_onLine false)
             (Example.config_of Example.http_200 (Example.record pending 0)) in
  (isProcessing (world c) = true \/ onLine (world c) = false) /\
  run processQueue c = (Ok tt, c).
Proof.
  intros c.
  assert (H : isProcessing (world c) = true \/ onLine (world c) = false)
    by (right; reflexivity).
  split; [exact H | exact (processQueue_noop c H)].
Defined.

(** ** [retryAllFailed] *)

Lemma update_all_other (f : PendingUpload -> PendingUpload) (k : string)
    (l : list PendingUpload) :
  forall s, Forall (fun u => id (f u) <> k) l -> update_all f l s !! k = s !! k.
Proof.
  induction l as [| a l IH]; intros s Hl; cbn [update_all fold_left]; [reflexivity |].
  inversion Hl as [| ? ? Ha Hl']; subst.
  fold (update_all f l (<[id (f a) := f a]> s)).
  rewrite IH by assumption. now apply lookup_insert_ne.
Qed.

Lemma update_all_member (f : PendingUpload -> PendingUpload) (l : list PendingUpload) :
  forall s u,
    NoDup (List.map (fun u => id (f u)) l) -> List.In u l ->
    update_all f l s !! id (f u) = Some (f u).
Proof.
  induction l as [| a l IH]; intros s u Hnd Hin; [destruct Hin |].
  cbn [List.map] in Hnd. apply NoDup_cons in Hnd as [Ha Hnd].
  cbn [update_all fold_left]. fold (update_all f l (<[id (f a) := f a]> s)).
  destruct Hin as [-> | Hin].
  - rewrite update_all_other; [apply lookup_insert_eq |].
    apply Forall_forall. intros v Hv Heq. apply Ha.
    rewrite <- Heq. apply list_elem_of_In. apply (in_map (fun u => id (f u)) l v).
    now apply list_elem_of_In.
  - now apply IH.
Qed.

Lemma In_by_status (value : UploadStatus) (s : gmap string PendingUpload)
    (key : string) (u : PendingUpload) :
  s !! key = Some u -> status u = value -> List.In u (by_status value s).
Proof.
  intros Hk Hst. unfold by_status. apply filter_In. split.
  - apply list_elem_of_In. rewrite records_Permutation.
    apply list_elem_of_fmap. exists (key, u).
    split; [reflexivity |]. now apply elem_of_map_to_list.
  - rewrite Hst. now destruct value.
Qed.

Lemma records_ids (s : gmap string PendingUpload) :
  keyed s -> List.map id (records s) ≡ₚ (map_to_list s).*1.
Proof.
  intros Hkeyed. unfold records.
  assert (H : Forall (fun p : string * PendingUpload => id p.2 = p.1)
                (merge_sort key_le (map_to_list s))).
  { apply Forall_forall. intros [k u] Hin.
    rewrite merge_sort_Permutation in Hin. apply elem_of_map_to_list in Hin.
    now apply Hkeyed. }
  rewrite <- (merge_sort_Permutation key_le (map_to_list s)) at 2.
  induction H as [| [k u] l Hku _ IH]; [reflexivity |].
  cbn in *. now rewrite Hku, IH.
Qed.

Lemma NoDup_map_filter {A B : Type} (g : A -> B) (P : A -> bool) (l : list A) :
  NoDup (List.map g l) -> NoDup (List.map g (List.filter P l)).
Proof.
  induction l as [| a l IH]; cbn [List.map List.filter]; [trivial |].
  intros Hnd. apply NoDup_cons in Hnd as [Ha Hnd].
  destruct (P a); cbn [List.map]; [| now apply IH].
  apply NoDup_cons. split; [| now apply IH].
  intros Hin. apply Ha. apply list_elem_of_In in Hin. apply list_elem_of_In.
  apply in_map_iff in Hin as (x & Hx & Hin). apply in_map_iff. exists x.
  split; [exact Hx |]. apply filter_In in Hin. tauto.
Qed.

Lemma by_status_NoDup (value : UploadStatus) (s : gmap string PendingUpload) :
  keyed s -> NoDup (List.map id (by_status value s)).
Proof.
  intros Hkeyed. unfold by_status. apply NoDup_map_filter.
  rewrite records_ids by assumption. apply NoDup_fst_map_to_list.
Qed.

Lemma Ascii_compare_trans_le (a b c : Ascii.ascii) :
  Ascii.compare a b <> Gt -> Ascii.compare b c <> Gt -> Ascii.compare a c <> Gt.
Proof.
  unfold Ascii.compare. rewrite !N.compare_le_iff. lia.
Qed.

Lemma String_compare_trans (s1 : string) :
  forall s2 s3 : string,
  String.compare s1 s2 <> Gt -> String.compare s2 s3 <> Gt ->
  String.compare s1 s3 <> Gt.
Proof.
  induction s1 as [| a s1 IH]; intros [| b s2] [| c s3]; cbn [String.compare];
    try congruence.
  destruct (Ascii.compare a b) eqn:Hab; [| | congruence].
  - apply Ascii.compare_eq_iff in Hab. subst b.
    destruct (Ascii.compare a c) eqn:Hac; [| congruence | congruence].
    apply IH.
  - intros _. destruct (Ascii.compare b c) eqn:Hbc; [| | congruence].
    + apply Ascii.compare_eq_iff in Hbc. subst c. rewrite Hab. congruence.
    + intros _. assert (H : Ascii.compare a c = Lt).
      { unfold Ascii.compare in *. rewrite N.compare_lt_iff in *. lia. }
      rewrite H. congruence.
Qed.

Lemma String_leb_trans (s1 s2 s3 : string) :
  String.leb s1 s2 = true -> String.leb s2 s3 = true -> String.leb s1 s3 = true.
Proof.
  unfold String.leb. intros H12 H23.
  pose proof (String_compare_trans s1 s2 s3) as H.
  destruct (String.compare s1 s2); try discriminate;
    destruct (String.compare s2 s3); try discriminate;
    destruct (String.compare s1 s3); try reflexivity;
    exfalso; apply H; congruence.
Qed.

Lemma key_le_trans : Transitive key_le.
Proof. intros a b c. unfold key_le. apply String_leb_trans. Qed.

Lemma key_le_total : Total key_le.
Proof. intros a b. unfold key_le. apply String.leb_total. Qed.

Lemma StronglySorted_List_filter {A : Type} (R : relation A) (P : A -> bool)
    (l : list A) :
  StronglySorted R l -> StronglySorted R (List.filter P l).
Proof.
  induction 1 as [| a l Hl IH Ha]; cbn [List.filter]; [constructor |].
  destruct (P a); [| exact IH]. constructor; [exact IH |].
  apply Forall_forall. intros x Hx. apply list_elem_of_In, filter_In in Hx as [Hx _].
  rewrite Forall_forall in Ha. apply Ha. now apply list_elem_of_In.
Qed.

(** The listing of a store is in ascending order of ids. *)
Lemma records_sorted (s : gmap string PendingUpload) :
  keyed s -> StronglySorted id_le (records s).
Proof.
  intros Hkeyed. unfold records.
  assert (H : Forall (fun p : string * PendingUpload => id p.2 = p.1)
                (merge_sort key_le (map_to_list s))).
  { apply Forall_forall. intros [k u] Hin.
    rewrite merge_sort_Permutation in Hin. apply elem_of_map_to_list in Hin.
    now apply Hkeyed. }
  pose proof (@StronglySorted_merge_sort _ key_le _ key_le_trans key_le_total
                (map_to_list s)) as Hs.
  induction Hs as [| [k u] l Hl IH Ha]; [constructor |].
  apply Forall_cons in H as [Hku H]. cbn [fmap list_fmap snd].
  constructor; [now apply IH |].
  apply Forall_fmap, Forall_forall. intros [k' u'] Hin.
  rewrite Forall_forall in Ha, H. specialize (Ha _ Hin). specialize (H _ Hin).
  unfold key_le, id_le in *. cbn in *. congruence.
Qed.

Lemma by_status_sorted (value : UploadStatus) (s : gmap string PendingUpload) :
  keyed s -> StronglySorted id_le (by_status value s).
Proof.
  intros Hkeyed. unfold by_status. apply StronglySorted_List_filter.
  now apply records_sorted.
Qed.

Lemma run_retry_loop (l : list PendingUpload) :
  forall (w : World) (tasks : list (Prog (Result unit))),
    run (for_of l (fun upload =>
           let upload := with_status pending upload in
           let upload := with_error None upload in
           perform GetDB ;; perform (DbUpdate upload) ;; ret tt))
        (mkConfig w tasks)
    = (Ok tt, mkConfig (fold_left (fun w u => put (as_pending u) w) l w) tasks).
Proof.
  induction l as [| u l IH]; intros w tasks; [reflexivity |].
  cbn [for_of fold_left]. cbv zeta.
  rewrite run_bind, run_bind, run_perform. cbn [handle fst snd world pool].
  rewrite run_bind, run_perform. cbn [handle fst snd world pool].
  cbn [ret run]. apply IH.
Qed.

Lemma store_put_all (l : list PendingUpload) :
  forall w, store (fold_left (fun w u => put (as_pending u) w) l w)
            = update_all as_pending l (store w).
Proof.
  induction l as [| u l IH]; intros w; [reflexivity |].
  cbn [fold_left update_all]. rewrite IH. reflexivity.
Qed.

Lemma puts_put_all (l : list PendingUpload) :
  forall w, puts (trace (fold_left (fun w u => put (as_pending u) w) l w))
            = puts (trace w) ++ List.map as_pending l.
Proof.
  induction l as [| u l IH]; intros w; cbn [fold_left List.map].
  - now rewrite app_nil_r.
  - rewrite IH. cbn. now rewrite <- app_assoc.
Qed.

Lemma flags_put_all (l : list PendingUpload) :
  forall w,
    let w' := fold_left (fun w u => put (as_pending u) w) l w in
    isProcessing w' = isProcessing w /\ onLine w' = onLine w.
Proof.
  induction l as [| u l IH]; intros w; cbn [fold_left]; [split; reflexivity |].
  apply (IH (put (as_pending u) w)).
Qed.

Lemma revive_store (s : gmap string PendingUpload) :
  keyed s -> update_all as_pending (by_status failed s) s = revived <$> s.
Proof.
  intros Hkeyed. apply map_eq. intros k. rewrite lookup_fmap.
  destruct (s !! k) as [u |] eqn:Hk; cbn [fmap option_fmap option_map].
  - pose proof (Hkeyed k u Hk) as Hid.
    destruct (status u) eqn:Hst.
    + rewrite update_all_other.
      * rewrite Hk. unfold revived. now rewrite Hst.
      * apply Forall_forall. intros v Hv Heq. apply list_elem_of_In in Hv.
        apply by_status_In in Hv as [Hfailed [k' Hk']].
        pose proof (Hkeyed k' v Hk') as Hid'. cbn in Heq.
        assert (k' = k) by congruence. subst k'. congruence.
    + rewrite update_all_other.
      * rewrite Hk. unfold revived. now rewrite Hst.
      * apply Forall_forall. intros v Hv Heq. apply list_elem_of_In in Hv.
        apply by_status_In in Hv as [Hfailed [k' Hk']].
        pose proof (Hkeyed k' v Hk') as Hid'. cbn in Heq.
        assert (k' = k) by congruence. subst k'. congruence.
    + replace k with (id (as_pending u)) by exact Hid.
      rewrite (update_all_member as_pending).
      * unfold revived. now rewrite Hst.
      * change (fun u0 => id (as_pending u0)) with id. now apply by_status_NoDup.
      * now apply (In_by_status failed s k).
  - rewrite update_all_other; [exact Hk |].
    apply Forall_forall. intros v Hv Heq. apply list_elem_of_In in Hv.
    apply by_status_In in Hv as [Hfailed [k' Hk']].
    pose proof (Hkeyed k' v Hk') as Hid'. cbn in Heq. congruence.
Qed.

Lemma no_failed_after_revive (s : gmap string PendingUpload) :
  by_status failed (revived <$> s) = [].
Proof.
  destruct (by_status failed (revived <$> s)) as [| u l] eqn:Hl; [reflexivity |].
  assert (Hin : List.In u (by_status failed (revived <$> s))) by (rewrite Hl; now left).
  apply by_status_In in Hin as [Hst [k Hk]].
  rewrite lookup_fmap in Hk. destruct (s !! k) as [u0 |]; [| discriminate].
  cbn in Hk. injection Hk as <-. unfold revived in Hst.
  destruct (status u0) eqn:Hst0; cbn in Hst; congruence.
Qed.

(** X9.  On an open database, [retryAllFailed] resolves.  Every record
    stored as 'failed' is written back once as 'pending' with its [error]
    cleared and its [retryCount] kept, in ascending order of the ids; no
    other record is touched; afterwards no record is 'failed'.  Then
    [processQueue] is called once: it starts a drain pass when the
    browser is online and none is running. *)
Theorem retryAllFailed_spec (c : Config) :
  keyed (store (world c)) ->
  let s := store (world c) in
  let c1 := snd (run retryAllFailed c) in
  fst (run retryAllFailed c) = Ok tt /\
  store (world c1) = revived <$> s /\
  (forall k u, s !! k = Some u -> status u = failed ->
     store (world c1) !! k = Some (as_pending u) /\
     retryCount (as_pending u) = retryCount u) /\
  (forall k u, s !! k = Some u -> status u <> failed ->
     store (world c1) !! k = Some u) /\
  by_status failed (store (world c1)) = [] /\
  puts (trace (world c1))
  = puts (trace (world c)) ++ List.map as_pending (by_status failed s) /\
  StronglySorted id_le (by_status failed s) /\
  (onLine (world c) = true -> isProcessing (world c) = false ->
   pool c1 = pool c ++ [processQueue_try] /\ isProcessing (world c1) = true) /\
  (onLine (world c) = false \/ isProcessing (world c) = true ->
   pool c1 = pool c /\ isProcessing (world c1) = isProcessing (world c)).
Proof.
  intros Hkeyed s c1.
  assert (Hrun : run retryAllFailed c
                 = (Ok tt, begin processQueue
                             (mkConfig (fold_left (fun w u => put (as_pending u) w)
                                          (by_status failed s) (world c)) (pool c)))).
  { unfold retryAllFailed. rewrite run_bind, run_await.
    unfold getFailedUploads. rewrite run_bind, run_perform. cbn [handle fst snd].
    rewrite run_perform. cbn [handle fst snd world pool].
    rewrite run_bind, config_eta.
    destruct c as [w tasks]. cbn [world pool] in *.
    rewrite run_retry_loop, run_fork. reflexivity. }
  subst c1. rewrite Hrun. cbn [fst snd]. clear Hrun.
  set (w1 := fold_left (fun w u => put (as_pending u) w) (by_status failed s) (world c)).
  assert (Hstore : store (world (begin processQueue (mkConfig w1 (pool c))))
                   = revived <$> s).
  { rewrite begin_processQueue_store. cbn [world]. unfold w1.
    rewrite store_put_all. now apply revive_store. }
  destruct (flags_put_all (by_status failed s) (world c)) as [Hflag Hon].
  fold w1 in Hflag, Hon.
  split; [reflexivity |].
  split; [exact Hstore |].
  split.
  { intros k u Hk Hst. rewrite Hstore, lookup_fmap, Hk. cbn.
    unfold revived. rewrite Hst. split; reflexivity. }
  split.
  { intros k u Hk Hst. rewrite Hstore, lookup_fmap, Hk. cbn.
    unfold revived. destruct (status u); congruence. }
  split; [rewrite Hstore; apply no_failed_after_revive |].
  rewrite begin_processQueue. cbn [world pool]. rewrite Hflag, Hon.
  split.
  { destruct (isProcessing (world c)); [cbn; apply puts_put_all |].
    destruct (negb (onLine (world c))); cbn; apply puts_put_all. }
  split; [now apply by_status_sorted |].
  split.
  - intros -> ->. cbn. split; reflexivity.
  - intros [Hoff | Hbusy].
    + rewrite Hoff. destruct (isProcessing (world c)); cbn; split; congruence.
    + rewrite Hbusy. cbn. split; congruence.
Qed.

Lemma retryAllFailed_spec_witness :
  let c := Example.config_of Example.unreachable (Example.record failed 4) in
  keyed (store (world c)) /\
  store (world (snd (run retryAllFailed c))) !! "a"
  = Some (Example.record pending 4).
Proof.
  intros c.
  assert (Hkeyed : keyed (store (world c))).
  { intros k u Hk. cbn in Hk. apply lookup_insert_Some in Hk as [[<- <-] | [_ Hk]].
    - reflexivity.
    - rewrite lookup_empty in Hk. discriminate. }
  split; [exact Hkeyed |].
  destruct (retryAllFailed_spec c Hkeyed) as (_ & _ & Hfailed & _).
  exact (proj1 (Hfailed "a" (Example.record failed 4) eq_refl eq_refl)).
Defined.

(** ** A whole drain pass *)

Lemma processUpload_own_key (upload : PendingUpload) (c : Config) :
  let c' := snd (run (processUpload upload) c) in
  store (world c') !! id upload = drained upload (attempt_in [] upload c) /\
  pool c' = pool c.
Proof.
  intros c'. subst c'. rewrite run_processUpload. cbv zeta.
  unfold drained, attempt_in. cbn [drain_all fold_left].
  destruct (transfer_same_queue (with_status uploading upload)
              (on_world (marked upload) c)) as (_ & _ & _ & _ & _ & _ & Hpool).
  destruct (run (transfer (with_status uploading upload)) (on_world (marked upload) c))
    as [r c2].
  cbn [fst snd on_world world pool] in *. split; [| exact Hpool].
  destruct (attempt_error r) as [err |].
  - rewrite store_after_failure. cbn [id with_status retryCount].
    destruct (retryCount upload + 1 >=? 5).
    + apply lookup_delete_eq.
    + apply lookup_insert_eq.
  - rewrite store_after_success. apply lookup_delete_eq.
Qed.

Lemma drain_all_pool (l : list PendingUpload) :
  forall c, pool (drain_all l c) = pool c.
Proof.
  induction l as [| u l IH]; intros c; [reflexivity |].
  cbn [drain_all fold_left]. fold (drain_all l (snd (run (processUpload u) c))).
  rewrite IH. apply processUpload_own_key.
Qed.

Lemma drain_all_app (l1 l2 : list PendingUpload) (c : Config) :
  drain_all (l1 ++ l2) c = drain_all l2 (drain_all l1 c).
Proof. unfold drain_all. apply fold_left_app. Qed.

(** The record at a position of the listing ends as the attempt made for
    it at that position decides. *)
Lemma drain_all_own_key (l1 l2 : list PendingUpload) (u : PendingUpload)
    (c : Config) :
  NoDup (List.map id (l1 ++ u :: l2)) ->
  store (world (drain_all (l1 ++ u :: l2) c)) !! id u
  = drained u (attempt_in l1 u c).
Proof.
  intros Hnd. rewrite drain_all_app.
  change (drain_all (u :: l2) (drain_all l1 c))
    with (drain_all l2 (snd (run (processUpload u) (drain_all l1 c)))).
  assert (Hothers : Forall (fun v => id v <> id u) l2).
  { rewrite map_app in Hnd. apply NoDup_app in Hnd as (_ & _ & Hnd).
    cbn [List.map] in Hnd. apply NoDup_cons in Hnd as [Hu _].
    apply Forall_forall. intros v Hv Heq. apply Hu. rewrite <- Heq.
    apply list_elem_of_In. apply in_map. now apply list_elem_of_In. }
  destruct (drain_all_other_key (id u) l2 Hothers
              (snd (run (processUpload u) (drain_all l1 c)))) as [Hsame _].
  rewrite Hsame.
  destruct (processUpload_own_key u (drain_all l1 c)) as [Hown _].
  exact Hown.
Qed.

(** X10.  A drain pass that runs without interruption, started online
    with the flag down on a store keyed by id, on an open database: it
    resolves and leaves the flag down.  It goes through the records that
    were 'pending' in ascending order of their ids, each of them once.
    What it leaves under the id of such a record is decided by the
    attempt made for that record when its turn came: nothing when the
    upload succeeded, nothing when it failed for the fifth time, and
    otherwise the record as 'failed' with the error of the attempt and
    its [retryCount] one higher.  Records of any other status, and absent
    keys, are as before; so no record is 'pending' at the end, and no
    task is left suspended. *)
Theorem drain_pass_outcome (c : Config) :
  keyed (store (world c)) ->
  onLine (world c) = true ->
  isProcessing (world c) = false ->
  let s := store (world c) in
  let c1 := snd (run processQueue c) in
  fst (run processQueue c) = Ok tt /\
  isProcessing (world c1) = false /\
  pool c1 = pool c /\
  StronglySorted id_le (by_status pending s) /\
  NoDup (List.map id (by_status pending s)) /\
  (forall k u, s !! k = Some u -> status u = pending ->
     List.In u (by_status pending s)) /\
  (forall before u later, by_status pending s = before ++ u :: later ->
     store (world c1) !! id u = drained u (attempt_in before u (entered c))) /\
  (forall k u, s !! k = Some u -> status u <> pending ->
     store (world c1) !! k = Some u) /\
  (forall k, s !! k = None -> store (world c1) !! k = None) /\
  by_status pending (store (world c1)) = [].
Proof.
  intros Hkeyed Hon Hflag s c1. subst c1.
  rewrite run_processQueue, Hflag, Hon. cbn [negb fst snd]. cbv zeta.
  fold (entered c). set (c0 := entered c).
  set (l := by_status pending (store (world c))).
  assert (Hs0 : store (world c0) = s) by reflexivity.
  assert (Hnd : NoDup (List.map id l)) by now apply by_status_NoDup.
  assert (Hpending : forall before u later, l = before ++ u :: later ->
            store (world (drain_all l c0)) !! id u
            = drained u (attempt_in before u c0)).
  { intros before u later Hl. rewrite Hl. apply drain_all_own_key.
    now rewrite <- Hl. }
  assert (Hother : forall k, (forall u, s !! k = Some u -> status u <> pending) ->
            store (world (drain_all l c0)) !! k = s !! k).
  { intros k Hk.
    destruct (drain_all_other_key k l) with (c := c0) as [Hsame _]; [| exact Hsame].
    apply Forall_forall. intros v Hv Heq. apply list_elem_of_In in Hv.
    apply by_status_In in Hv as [Hst [k' Hk']].
    pose proof (Hkeyed k' v Hk') as Hid.
    apply (Hk v); [| exact Hst].
    rewrite <- Heq, Hid. exact Hk'. }
  split; [reflexivity |].
  split; [reflexivity |].
  split; [cbn [on_world pool]; now rewrite drain_all_pool |].
  split; [now apply by_status_sorted |].
  split; [exact Hnd |].
  split; [intros k u Hk Hst; now apply (In_by_status pending s k) |].
  split; [exact Hpending |].
  split.
  { intros k u Hk Hst. cbn [on_world world]. 
    change (store (set_isProcessing _ _)) with (store (world (drain_all l c0))).
    rewrite Hother; [exact Hk |]. intros u' Hu'. congruence. }
  split.
  { intros k Hk. cbn [on_world world].
    change (store (set_isProcessing _ _)) with (store (world (drain_all l c0))).
    rewrite Hother; [exact Hk |]. intros u' Hu'. congruence. }
  cbn [on_world world].
  change (store (set_isProcessing _ _)) with (store (world (drain_all l c0))).
  destruct (by_status pending (store (world (drain_all l c0)))) as [| v tl] eqn:Hl;
    [reflexivity |].
  assert (Hin : List.In v (by_status pending (store (world (drain_all l c0)))))
    by (rewrite Hl; now left).
  apply by_status_In in Hin as [Hst [k Hk]].
  destruct (s !! k) as [u |] eqn:Hsk.
  - destruct (UploadStatus_eqb (status u) pending) eqn:Hu.
    + assert (Hup : status u = pending) by (destruct (status u); (reflexivity || discriminate)).
      assert (Hin : List.In u l) by now apply (In_by_status pending s k).
      apply in_split in Hin as (before & later & Hsplit).
      pose proof (Hpending before u later Hsplit) as Hend.
      rewrite (Hkeyed k u Hsk), Hk in Hend. unfold drained in Hend.
      destruct (attempt_error _) as [err |]; [| discriminate].
      destruct (retryCount u + 1 >=? 5); [discriminate |].
      injection Hend as ->. discriminate Hst.
    + rewrite Hother in Hk.
      * assert (v = u) by congruence. subst v. rewrite Hst in Hu. discriminate.
      * intros u' Hu'. assert (u' = u) by congruence. subst u'.
        intros Hp. rewrite Hp in Hu. discriminate.
  - rewrite Hother in Hk; [congruence |]. intros u' Hu'. congruence.
Qed.

(** Two records are 'pending'; the network is unreachable.  The pass
    takes "a" before "b": the attempt for "a" consumes the first four
    calls of [fetch], that for "b" the next four.  "a" had failed four
    times before and is deleted; "b" is stored as 'failed' with one
    retry. *)
Lemma drain_pass_outcome_witness :
  let a := Example.record pending 4 in
  let b := mkPendingUpload "b" Example.photo image pending 0 0 0 None in
  let c := Example.config_ab Example.unreachable a b in
  let c1 := snd (run processQueue c) in
  keyed (store (world c)) /\
  onLine (world c) = true /\
  isProcessing (world c) = false /\
  by_status pending (store (world c)) = [a; b] /\
  store (world c1) !! "a" = None /\
  store (world c1) !! "b"
  = Some (as_failed (with_status uploading b) (JsError "Failed to fetch")) /\
  fetched (world c1) = 8%nat.
Proof.
  intros a b c c1.
  assert (Hkeyed : keyed (store (world c))).
  { intros k u. cbn [c Example.config_ab world store].
    rewrite lookup_insert. destruct (decide ("a" = k)) as [<- | Hne].
    - intros [= <-]. reflexivity.
    - rewrite lookup_insert. destruct (decide ("b" = k)) as [<- | Hne'].
      + intros [= <-]. reflexivity.
      + rewrite lookup_empty. discriminate. }
  assert (Hon : onLine (world c) = true) by reflexivity.
  assert (Hflag : isProcessing (world c) = false) by reflexivity.
  assert (Hl : by_status pending (store (world c)) = [a; b])
    by (vm_compute; reflexivity).
  split; [exact Hkeyed |]. split; [exact Hon |]. split; [exact Hflag |].
  split; [exact Hl |].
  destruct (drain_pass_outcome c Hkeyed Hon Hflag)
    as (_ & _ & _ & _ & _ & _ & Hp & _).
  split; [| split].
  - etransitivity; [exact (Hp [] a [b] Hl) | vm_compute; reflexivity].
  - etransitivity; [exact (Hp [a] b [] Hl) | vm_compute; reflexivity].
  - vm_compute. reflexivity.
Defined.

(* ===================================================================== *)
(** * [retryWithResult] and [retryWithCondition]                         *)
(* ===================================================================== *)

Section RetryLoops.
Context {T : Type} (operation : M T) (cfg : RetryConfig) (c : Config).

(** Invocation [k] is the one after which the loop of [retryWithResult]
    stops: it succeeds, or it is number [n]. *)
Lemma result_while_ends (n : nat) :
  maxRetries cfg = Z.of_nat n ->
  forall (fuel a : nat) lastError (k : nat),
    (a + fuel = n + 1)%nat -> (a <= k <= n)%nat ->
    (forall j, (a <= j < k)%nat ->
               exists e, fst (invocation operation cfg j c) = Thrown e) ->
    (k = n \/ exists v, fst (invocation operation cfg k c) = Ok v) ->
    run (result_while fuel operation cfg lastError (Z.of_nat a))
        (before_invocation operation cfg a c)
    = (Ok (result_of k (fst (invocation operation cfg k c))),
       snd (invocation operation cfg k c)).
Proof.
  intros Hn. induction fuel as [| fuel IH]; intros a lastError k Hfuel Hak Hfail Hend.
  - lia.
  - cbn [result_while]. rewrite Hn.
    destruct (Z.leb_spec (Z.of_nat a) (Z.of_nat n)) as [_ | Hlt]; [| lia].
    rewrite run_try_catch, run_bind.
    change (run (await operation) (before_invocation operation cfg a c))
      with (invocation operation cfg a c).
    destruct (Nat.eq_dec k a) as [-> | Hne].
    + destruct (invocation operation cfg a c) as [[v | e] c1]; [reflexivity |].
      cbn [fst snd] in *. cbv zeta.
      destruct Hend as [-> | [v Hv]]; [| discriminate].
      destruct (Z.gtb_spec (Z.of_nat n + 1) (Z.of_nat n)) as [_ | Hle]; [| lia].
      reflexivity.
    + destruct (Hfail a ltac:(lia)) as [e He].
      destruct (invocation operation cfg a c) as [r c1] eqn:Hinv.
      cbn [fst] in He. subst r. cbv zeta.
      destruct (Z.gtb_spec (Z.of_nat a + 1) (Z.of_nat n)) as [Hgt | _]; [lia |].
      rewrite run_pause_then.
      specialize (IH (S a) (Some (toError e)) k ltac:(lia) ltac:(lia)).
      replace (Z.of_nat a + 1) with (Z.of_nat (S a)) by lia.
      cbn [before_invocation] in IH.
      change (run (await operation) (before_invocation operation cfg a c))
        with (invocation operation cfg a c) in IH.
      rewrite Hinv in IH. cbn [snd] in IH.
      apply IH; [| exact Hend].
      intros j Hj. apply Hfail. lia.
Qed.

(** There is a first invocation [k <= n] that succeeds or is number [n]. *)
Lemma last_invocation (n : nat) :
  exists k, (k <= n)%nat /\
    (forall j, (j < k)%nat -> exists e, fst (invocation operation cfg j c) = Thrown e) /\
    (k = n \/ exists v, fst (invocation operation cfg k c) = Ok v).
Proof.
  destruct (first_success_or_all_fail operation cfg c n)
    as [(k & v & Hk & Hok & Hbefore) | Hall].
  - exists k. split; [exact Hk |]. split; [exact Hbefore |]. right. now exists v.
  - exists n. split; [lia |]. split; [| now left]. intros j Hj. apply Hall. lia.
Qed.

(** The two loops side by side, from any state of their locals. *)
Lemma result_while_retry_while :
  forall (fuel : nat) lastError (attempt : Z) (c0 : Config),
    maxRetries cfg + 1 - attempt <= Z.of_nat fuel ->
    exists res,
      run (result_while fuel operation cfg lastError attempt) c0
      = (Ok res, snd (run (retry_while fuel operation cfg lastError attempt) c0)) /\
      attempt <= RetryResult.attempts res /\
      match fst (run (retry_while fuel operation cfg lastError attempt) c0) with
      | Ok v =>
          res = RetryResult.mk true (Some v) None (RetryResult.attempts res) /\
          attempt < RetryResult.attempts res <= maxRetries cfg + 1
      | Thrown e =>
          res = RetryResult.mk false None (RetryResult.error res)
                  (Z.max attempt (maxRetries cfg + 1)) /\
          e = default (JsError "Operation failed after retries") (RetryResult.error res) /\
          (RetryResult.error res = None -> lastError = None /\ maxRetries cfg < attempt)
      end.
Proof.
  induction fuel as [| fuel IH]; intros lastError attempt c0 Hfuel.
  - cbn [result_while retry_while].
    destruct (Z.leb_spec attempt (maxRetries cfg)) as [Hle | Hgt]; [lia |].
    eexists. split; [reflexivity |]. cbn. split; [lia |].
    split; [f_equal; lia |]. split; [reflexivity |]. intros ->. split; [reflexivity | lia].
  - cbn [result_while retry_while].
    destruct (Z.leb_spec attempt (maxRetries cfg)) as [Hle | Hgt].
    + rewrite !run_try_catch, run_bind.
      destruct (run (await operation) c0) as [[v | e] c1].
      * eexists. split; [reflexivity |]. cbn. split; [lia |]. split; [reflexivity | lia].
      * cbv zeta.
        destruct (Z.gtb_spec (attempt + 1) (maxRetries cfg)) as [Hlast | Hmore].
        -- eexists. split; [reflexivity |]. cbn. split; [lia |].
           split; [f_equal; lia |]. split; [reflexivity |]. discriminate.
        -- rewrite !run_pause_then.
           destruct (IH (Some (toError e)) (attempt + 1)
                       (snd (run (backoff_pause cfg (attempt + 1)) c1))
                       ltac:(lia)) as (res & Hrun & Hatt & Hres).
           exists res. split; [exact Hrun |]. split; [lia |].
           destruct (fst (run (retry_while fuel operation cfg (Some (toError e))
                                 (attempt + 1))
                            (snd (run (backoff_pause cfg (attempt + 1)) c1)))).
           ++ destruct Hres as [Hres Hb]. split; [exact Hres | lia].
           ++ destruct Hres as (Hres & He & Hnone).
              split; [rewrite Hres at 1; f_equal; lia |]. split; [exact He |].
              intros H. destruct (Hnone H) as [Hcontra _]. discriminate.
    + eexists. split; [reflexivity |]. cbn. split; [lia |].
      split; [f_equal; lia |]. split; [reflexivity |]. intros ->. split; [reflexivity | lia].
Qed.

Section Condition.
Variable accepts : JsValue -> Z -> bool.

Lemma condition_while_ends (n : nat) :
  maxRetries cfg = Z.of_nat n ->
  forall (fuel a : nat) lastError (k : nat),
    (a + fuel = n + 1)%nat -> (a <= k <= n)%nat ->
    (forall j, (a <= j < k)%nat -> goes_on operation cfg c accepts j) ->
    stops_at operation cfg c accepts n k ->
    run (condition_while fuel operation (fun e i => ret (accepts e i)) cfg lastError
           (Z.of_nat a))
        (before_invocation operation cfg a c)
    = (final_of (fst (invocation operation cfg k c)),
       snd (invocation operation cfg k c)).
Proof.
  intros Hn. induction fuel as [| fuel IH]; intros a lastError k Hfuel Hak Hfail Hend.
  - lia.
  - cbn [condition_while]. rewrite Hn.
    destruct (Z.leb_spec (Z.of_nat a) (Z.of_nat n)) as [_ | Hlt]; [| lia].
    rewrite run_try_catch.
    change (run (await operation) (before_invocation operation cfg a c))
      with (invocation operation cfg a c).
    destruct (Nat.eq_dec k a) as [-> | Hne].
    + unfold stops_at in Hend.
      destruct (invocation operation cfg a c) as [[v | e] c1]; [reflexivity |].
      cbn [fst snd final_of] in *. cbv zeta. rewrite run_bind. cbn [ret run].
      destruct Hend as [Hno | ->].
      * rewrite Hno. reflexivity.
      * destruct (Z.gtb_spec (Z.of_nat n + 1) (Z.of_nat n)) as [_ | Hle]; [| lia].
        rewrite orb_true_r. reflexivity.
    + destruct (Hfail a ltac:(lia)) as (e & He & Hyes).
      destruct (invocation operation cfg a c) as [r c1] eqn:Hinv.
      cbn [fst] in He. subst r. cbv zeta. rewrite run_bind. cbn [ret run].
      rewrite Hyes.
      destruct (Z.gtb_spec (Z.of_nat a + 1) (Z.of_nat n)) as [Hgt | _]; [lia |].
      cbn [negb orb]. rewrite run_pause_then.
      specialize (IH (S a) (Some (toError e)) k ltac:(lia) ltac:(lia)).
      replace (Z.of_nat a + 1) with (Z.of_nat (S a)) by lia.
      cbn [before_invocation] in IH.
      change (run (await operation) (before_invocation operation cfg a c))
        with (invocation operation cfg a c) in IH.
      rewrite Hinv in IH. cbn [snd] in IH.
      apply IH; [| exact Hend].
      intros j Hj. apply Hfail. lia.
Qed.

Lemma stopping_invocation (n : nat) :
  exists k, (k <= n)%nat /\ (forall j, (j < k)%nat -> goes_on operation cfg c accepts j) /\ stops_at operation cfg c accepts n k.
Proof.
  assert (H : forall m, (m <= n)%nat ->
            (exists k, (k < m)%nat /\ (forall j, (j < k)%nat -> goes_on operation cfg c accepts j) /\ stops_at operation cfg c accepts n k)
            \/ (forall j, (j < m)%nat -> goes_on operation cfg c accepts j)).
  { induction m as [| m IH]; intros Hm.
    - right. intros j Hj. lia.
    - destruct (IH ltac:(lia)) as [(k & Hk & Hbefore & Hstop) | Hall].
      + left. exists k. split; [lia |]. split; assumption.
      + unfold stops_at, goes_on in *.
        destruct (fst (invocation operation cfg m c)) as [v | e] eqn:Hm'.
        * left. exists m. split; [lia |]. split; [exact Hall |]. now rewrite Hm'.
        * destruct (accepts (toError e) (Z.of_nat m + 1)) eqn:Hacc.
          -- right. intros j Hj. destruct (Nat.eq_dec j m) as [-> | Hne].
             ++ exists e. split; assumption.
             ++ apply Hall. lia.
          -- left. exists m. split; [lia |]. split; [exact Hall |].
             rewrite Hm'. now left. }
  destruct (H n ltac:(lia)) as [(k & Hk & Hbefore & Hstop) | Hall].
  - exists k. split; [lia |]. split; assumption.
  - exists n. split; [lia |]. split; [exact Hall |].
    unfold stops_at. destruct (fst (invocation operation cfg n c)); [exact I | now right].
Qed.
End Condition.
End RetryLoops.

(** X11.  [retryWithResult] never rejects, and [attempts] counts the
    invocations made.  With [maxRetries = n >= 0]: if invocation [k <= n]
    (counted from 0) is the first to succeed, the result is
    [{success: true, data, attempts: k + 1}]; if all [n + 1] invocations
    fail, it is [{success: false, error, attempts: n + 1}] with the last
    error made an [Error]; in both cases the run ends in the configuration
    that invocation left, and one of the two always is the case. *)
Theorem retryWithResult_invocations {T : Type} (operation : M T)
    (config : PartialRetryConfig) (c : Config) :
  0 <= maxRetries (finalConfig config) ->
  let cfg := finalConfig config in
  let n := Z.to_nat (maxRetries cfg) in
  (forall (k : nat) (v : T),
      (k <= n)%nat ->
      (forall j, (j < k)%nat -> exists e, fst (invocation operation cfg j c) = Thrown e) ->
      fst (invocation operation cfg k c) = Ok v ->
      run (retryWithResult operation config) c
      = (Ok (RetryResult.mk true (Some v) None (Z.of_nat k + 1)),
         snd (invocation operation cfg k c))) /\
  (forall e : JsValue,
      (forall j, (j < n)%nat -> exists e', fst (invocation operation cfg j c) = Thrown e') ->
      fst (invocation operation cfg n c) = Thrown e ->
      run (retryWithResult operation config) c
      = (Ok (RetryResult.mk false None (Some (toError e)) (maxRetries cfg + 1)),
         snd (invocation operation cfg n c))) /\
  (exists k : nat,
      (k <= n)%nat /\
      run (retryWithResult operation config) c
      = (Ok (result_of k (fst (invocation operation cfg k c))),
         snd (invocation operation cfg k c))).
Proof.
  intros Hmax cfg n.
  assert (Hn : maxRetries cfg = Z.of_nat n) by (unfold n, cfg; lia).
  assert (Hfuel : Z.to_nat (maxRetries cfg + 1) = (n + 1)%nat) by (unfold n, cfg; lia).
  assert (Hends : forall k,
      (k <= n)%nat ->
      (forall j, (j < k)%nat -> exists e, fst (invocation operation cfg j c) = Thrown e) ->
      (k = n \/ exists v, fst (invocation operation cfg k c) = Ok v) ->
      run (retryWithResult operation config) c
      = (Ok (result_of k (fst (invocation operation cfg k c))),
         snd (invocation operation cfg k c))).
  { intros k Hk Hbefore Hend. unfold retryWithResult. fold cfg. rewrite Hfuel.
    apply (result_while_ends operation cfg c n Hn (n + 1) 0 None k);
      [lia | lia | | exact Hend].
    intros j Hj. apply Hbefore. lia. }
  split; [| split].
  - intros k v Hk Hbefore Hok.
    rewrite (Hends k Hk Hbefore (or_intror (ex_intro _ v Hok))), Hok. reflexivity.
  - intros e Hbefore Hlast.
    rewrite (Hends n (le_n n) Hbefore (or_introl eq_refl)), Hlast. cbn [result_of].
    rewrite Hn. reflexivity.
  - destruct (last_invocation operation cfg c n) as (k & Hk & Hbefore & Hend).
    exists k. split; [exact Hk |]. now apply Hends.
Qed.

Lemma retryWithResult_invocations_witness :
  let c := Example.config_of Example.unreachable (Example.record pending 0) in
  let op := settle (Fetch Example.photo image) in
  0 <= maxRetries (finalConfig UPLOAD_RETRY_CONFIG) /\
  fst (run (retryWithResult op UPLOAD_RETRY_CONFIG) c)
  = Ok (RetryResult.mk false None (Some (JsError "Failed to fetch")) 4).
Proof.
  intros c op.
  assert (Hmax : 0 <= maxRetries (finalConfig UPLOAD_RETRY_CONFIG)) by (cbn; lia).
  split; [exact Hmax |].
  destruct (retryWithResult_invocations op UPLOAD_RETRY_CONFIG c Hmax) as (_ & Hall & _).
  rewrite (Hall (JsError "Failed to fetch")); [reflexivity | | reflexivity].
  intros j Hj. exists (JsError "Failed to fetch").
  destruct j as [| [| [| j]]]; [reflexivity | reflexivity | reflexivity |].
  cbn in Hj. lia.
Defined.

(** X12.  [retryWithResult] does what [retryWithBackoff] does and reports
    it instead of throwing: run from the same configuration, the two end
    in the same configuration (the same invocations, the same pauses);
    where [retryWithBackoff] returns [v], the result is a success with
    [data = v] and between 1 and [maxRetries + 1] attempts; where it
    throws, the result is a failure carrying the error thrown, with
    [maxRetries + 1] attempts, the error being absent only when
    [maxRetries] is negative and nothing was invoked. *)
Theorem retryWithResult_agrees {T : Type} (operation : M T)
    (config : PartialRetryConfig) (c : Config) :
  let cfg := finalConfig config in
  exists res : RetryResult.t T,
    run (retryWithResult operation config) c
    = (Ok res, snd (run (retryWithBackoff operation config) c)) /\
    match fst (run (retryWithBackoff operation config) c) with
    | Ok v =>
        res = RetryResult.mk true (Some v) None (RetryResult.attempts res) /\
        1 <= RetryResult.attempts res <= maxRetries cfg + 1
    | Thrown e =>
        res = RetryResult.mk false None (RetryResult.error res)
                (Z.max 0 (maxRetries cfg + 1)) /\
        e = default (JsError "Operation failed after retries") (RetryResult.error res) /\
        (RetryResult.error res = None -> maxRetries cfg < 0)
    end.
Proof.
  intros cfg. unfold retryWithResult, retryWithBackoff. fold cfg.
  destruct (result_while_retry_while operation cfg
              (Z.to_nat (maxRetries cfg + 1)) None 0 c ltac:(lia))
    as (res & Hrun & _ & Hres).
  exists res. split; [exact Hrun |].
  destruct (fst (run (retry_while (Z.to_nat (maxRetries cfg + 1)) operation cfg None 0) c)).
  - destruct Hres as [Hres Hb]. split; [exact Hres | lia].
  - destruct Hres as (Hres & He & Hnone). split; [exact Hres |]. split; [exact He |].
    intros H. apply Hnone in H. lia.
Qed.

(** X13.  With a negative [maxRetries] none of the three functions
    invokes the operation or touches anything: [retryWithBackoff] rejects
    with 'Operation failed after retries', [retryWithCondition] with
    'Operation failed after conditional retries', and [retryWithResult]
    reports a failure without an error and with 0 attempts. *)
Theorem negative_maxRetries {T : Type} (operation : M T)
    (shouldRetry : JsValue -> Z -> M bool) (config : PartialRetryConfig) (c : Config) :
  maxRetries (finalConfig config) < 0 ->
  run (retryWithBackoff operation config) c
  = (Thrown (JsError "Operation failed after retries"), c) /\
  run (retryWithCondition operation shouldRetry config) c
  = (Thrown (JsError "Operation failed after conditional retries"), c) /\
  run (retryWithResult operation config) c
  = (Ok (RetryResult.mk false None None 0), c).
Proof.
  intros Hneg. unfold retryWithBackoff, retryWithCondition, retryWithResult.
  replace (Z.to_nat (maxRetries (finalConfig config) + 1)) with 0%nat by lia.
  cbn [retry_while condition_while result_while].
  destruct (Z.leb_spec 0 (maxRetries (finalConfig config))) as [Hle | _]; [lia |].
  repeat split.
Qed.

Lemma negative_maxRetries_witness :
  let config := mkPartialRetryConfig (Some (-1)) None None None in
  let c := Example.config_of Example.http_200 (Example.record pending 0) in
  maxRetries (finalConfig config) < 0 /\
  run (retryWithResult (settle (Fetch Example.photo image)) config) c
  = (Ok (RetryResult.mk false None None 0), c).
Proof.
  intros config c.
  assert (Hneg : maxRetries (finalConfig config) < 0) by (cbn; lia).
  split; [exact Hneg |].
  exact (proj2 (proj2 (negative_maxRetries (settle (Fetch Example.photo image))
                         (fun _ _ => ret true) config c Hneg))).
Defined.

Lemma condition_while_always {T : Type} (operation : M T) (cfg : RetryConfig) :
  forall (fuel : nat) lastError (attempt : Z) (c : Config),
    attempt <= maxRetries cfg \/ lastError <> None ->
    run (condition_while fuel operation (fun _ _ => ret true) cfg lastError attempt) c
    = run (retry_while fuel operation cfg lastError attempt) c.
Proof.
  induction fuel as [| fuel IH]; intros lastError attempt c Hok;
    cbn [condition_while retry_while];
    destruct (Z.leb_spec attempt (maxRetries cfg)) as [Hle | Hgt];
    try reflexivity;
    try (destruct Hok as [Hok | Hok]; [lia |];
         destruct lastError; [reflexivity | contradiction]).
  rewrite !run_try_catch.
  destruct (run (await operation) c) as [[v | e] c1]; [reflexivity |].
  cbv zeta. rewrite run_bind. cbn [ret run negb orb].
  destruct (attempt + 1 >? maxRetries cfg); [reflexivity |].
  rewrite !run_pause_then. apply IH. right. discriminate.
Qed.

(** X14.  [retryWithCondition] with a predicate as [shouldRetry] and
    [maxRetries = n >= 0].  The operation is invoked again as long as it
    fails with an error the predicate accepts and fewer than [n + 1]
    invocations were made.  The run ends with the first invocation
    [k <= n] that succeeds, or fails with an error the predicate refuses,
    or is number [n]: it returns that value or throws that error (made an
    [Error]) in the configuration that invocation left, without a pause
    after it.  There always is such an invocation.  With a predicate that
    accepts everything the function is [retryWithBackoff]. *)
Theorem retryWithCondition_spec {T : Type} (operation : M T)
    (accepts : JsValue -> Z -> bool) (config : PartialRetryConfig) (c : Config) :
  0 <= maxRetries (finalConfig config) ->
  let cfg := finalConfig config in
  let n := Z.to_nat (maxRetries cfg) in
  let shouldRetry := fun error attempt => ret (accepts error attempt) in
  (forall k : nat,
      (k <= n)%nat ->
      (forall j, (j < k)%nat -> goes_on operation cfg c accepts j) ->
      stops_at operation cfg c accepts n k ->
      run (retryWithCondition operation shouldRetry config) c
      = (final_of (fst (invocation operation cfg k c)),
         snd (invocation operation cfg k c))) /\
  (exists k : nat,
      (k <= n)%nat /\
      (forall j, (j < k)%nat -> goes_on operation cfg c accepts j) /\
      stops_at operation cfg c accepts n k) /\
  (forall (e : JsValue) (c1 : Config),
      run (await operation) c = (Thrown e, c1) ->
      accepts (toError e) 1 = false ->
      run (retryWithCondition operation shouldRetry config) c
      = (Thrown (toError e), c1)) /\
  run (retryWithCondition operation (fun _ _ => ret true) config) c
  = run (retryWithBackoff operation config) c.
Proof.
  intros Hmax cfg n shouldRetry.
  assert (Hn : maxRetries cfg = Z.of_nat n) by (unfold n, cfg; lia).
  assert (Hfuel : Z.to_nat (maxRetries cfg + 1) = (n + 1)%nat) by (unfold n, cfg; lia).
  assert (Hends : forall k : nat,
      (k <= n)%nat ->
      (forall j, (j < k)%nat -> goes_on operation cfg c accepts j) ->
      stops_at operation cfg c accepts n k ->
      run (retryWithCondition operation shouldRetry config) c
      = (final_of (fst (invocation operation cfg k c)),
         snd (invocation operation cfg k c))).
  { intros k Hk Hbefore Hstop. unfold retryWithCondition. fold cfg. rewrite Hfuel.
    apply (condition_while_ends operation cfg c accepts n Hn (n + 1) 0 None k);
      [lia | lia | | exact Hstop].
    intros j Hj. apply Hbefore. lia. }
  split; [exact Hends |].
  split; [apply stopping_invocation |].
  split.
  - intros e c1 Hrun Hno.
    rewrite (Hends 0%nat); [| lia | intros j Hj; lia |].
    + unfold invocation. cbn [before_invocation]. rewrite Hrun. reflexivity.
    + unfold stops_at, invocation. cbn [before_invocation]. rewrite Hrun.
      cbn [fst]. left. exact Hno.
  - unfold retryWithCondition, retryWithBackoff. fold cfg.
    apply condition_while_always. left. lia.
Qed.

Lemma retryWithCondition_spec_witness :
  let c := Example.config_of Example.unreachable (Example.record pending 0) in
  let op := settle (Fetch Example.photo image) in
  0 <= maxRetries (finalConfig UPLOAD_RETRY_CONFIG) /\
  run (await op) c
  = (Thrown (JsError "Failed to fetch"), on_world (fetched_once (Example.record pending 0)) c) /\
  fst (run (retryWithCondition op (fun _ _ => ret false) UPLOAD_RETRY_CONFIG) c)
  = Thrown (JsError "Failed to fetch").
Proof.
  intros c op.
  assert (Hmax : 0 <= maxRetries (finalConfig UPLOAD_RETRY_CONFIG)) by (cbn; lia).
  assert (Hrun : run (await op) c
                 = (Thrown (JsError "Failed to fetch"),
                    on_world (fetched_once (Example.record pending 0)) c))
    by reflexivity.
  split; [exact Hmax |]. split; [exact Hrun |].
  destruct (retryWithCondition_spec op (fun _ _ => false) UPLOAD_RETRY_CONFIG c Hmax)
    as (_ & _ & Hrefused & _).
  rewrite (Hrefused _ _ Hrun eq_refl). reflexivity.
Defined.

(* ===================================================================== *)
(** * [retryNetworkRequest] and [fetchWithRetry]                         *)
(* ===================================================================== *)

Lemma prefix_occurs (a : Ascii.ascii) (rest s : string) :
  String.prefix (String a rest) s = true -> occurs a s = true.
Proof.
  destruct s as [| b s]; cbn [String.prefix occurs]; [discriminate |].
  destruct (Ascii.ascii_dec a b) as [<- | Hne]; [| discriminate].
  intros _. now rewrite Ascii.eqb_refl.
Qed.

Lemma includes_occurs (a : Ascii.ascii) (rest s : string) :
  includes s (String a rest) = true -> occurs a s = true.
Proof.
  induction s as [| b s IH].
  - cbn. discriminate.
  - cbn [includes]. intros H. apply orb_true_iff in H as [H | H].
    + now apply prefix_occurs in H.
    + cbn [occurs]. rewrite (IH H). apply orb_true_r.
Qed.

Lemma occurs_app (a : Ascii.ascii) (s1 s2 : string) :
  occurs a (s1 +:+ s2) = occurs a s1 || occurs a s2.
Proof.
  induction s1 as [| b s1 IH]; [reflexivity |].
  change (String b s1 +:+ s2) with (String b (s1 +:+ s2)).
  cbn [occurs]. rewrite IH. now rewrite orb_assoc.
Qed.

Lemma numeric_occurs (a : Ascii.ascii) (s : string) :
  numeric s = true -> occurs a s = true -> occurs a "0123456789-" = true.
Proof.
  induction s as [| b s IH]; cbn [numeric occurs]; [discriminate |].
  intros Hnum Hocc. apply andb_true_iff in Hnum as [Hb Hs].
  apply orb_true_iff in Hocc as [Hab | Hocc]; [| now apply IH].
  apply Ascii.eqb_eq in Hab. now subst b.
Qed.

Lemma numeric_pretty_N_go (x : N) :
  forall s, numeric s = true -> numeric (pretty_N_go x s) = true.
Proof.
  induction (N.lt_wf_0 x) as [x _ IH]; intros s Hs.
  assert (x = 0 \/ 0 < x)%N as [-> | Hpos] by lia.
  - now rewrite pretty_N_go_0.
  - rewrite pretty_N_go_step by exact Hpos. apply IH.
    + now apply N.div_lt.
    + cbn [numeric]. rewrite Hs, andb_true_r.
      unfold pretty_N_char.
      destruct (x `mod` 10)%N as [| p]; [reflexivity |].
      do 4 (try destruct p as [p | p |]); reflexivity.
Qed.

Lemma numeric_pretty_N (x : N) : numeric (pretty x) = true.
Proof.
  unfold pretty, pretty_N. destruct (decide (x = 0%N)); [reflexivity |].
  now apply numeric_pretty_N_go.
Qed.

Lemma numeric_pretty_Z (z : Z) : numeric (pretty z) = true.
Proof.
  destruct z as [| p | p]; unfold pretty, pretty_Z.
  - reflexivity.
  - apply numeric_pretty_N.
  - change (numeric ("-" +:+ pretty (N.pos p)) = true).
    generalize (numeric_pretty_N (N.pos p)).
    generalize (pretty (N.pos p)). intros s Hs. cbn. exact Hs.
Qed.

(** The message of the error [fetchWithRetry] throws on a 5xx response
    holds none of the three words [retryNetworkRequest] looks for. *)
Lemma server_error_message (z : Z) :
  let m := "Server error: " +:+ pretty z in
  includes m "network" = false /\ includes m "fetch" = false /\
  includes m "timeout" = false.
Proof.
  intros m.
  assert (H : forall a rest,
            occurs a "Server error: 0123456789-" = false ->
            includes m (String a rest) = false).
  { intros a rest Ha. destruct (includes m (String a rest)) eqn:Hinc; [| reflexivity].
    apply includes_occurs in Hinc. unfold m in Hinc. rewrite occurs_app in Hinc.
    apply orb_true_iff in Hinc as [Hinc | Hinc].
    - change "Server error: 0123456789-" with ("Server error: " +:+ "0123456789-") in Ha.
      rewrite occurs_app, Hinc in Ha. discriminate.
    - apply (numeric_occurs a _ (numeric_pretty_Z z)) in Hinc.
      change "Server error: 0123456789-" with ("Server error: " +:+ "0123456789-") in Ha.
      rewrite occurs_app, Hinc, orb_true_r in Ha. discriminate. }
  split; [| split]; apply H; reflexivity.
Qed.

(** X15.  [fetchWithRetry] and the first response, with
    [maxRetries >= 0].  A response with a status below 500 is returned as
    it is, whether [ok] or not.  A response with status 500 or above is
    not retried: the error 'Server error: <status>' made of it is an
    [Error] whose message holds none of 'network', 'fetch', 'timeout', so
    [shouldRetry] refuses it and the function rejects with it after that
    one request, without a pause. *)
Theorem fetchWithRetry_first_response (name : JsValue -> string)
    (fetch : M Response.t) (retryConfig : option PartialRetryConfig)
    (c c1 : Config) (response : Response.t) :
  0 <= maxRetries (finalConfig (default EMPTY_CONFIG retryConfig)) ->
  run fetch c = (Ok response, c1) ->
  let server_error :=
    JsError ("Server error: " +:+ pretty (Response.status response)) in
  (Response.status response < 500 ->
   run (fetchWithRetry name fetch retryConfig) c = (Ok response, c1)) /\
  (500 <= Response.status response ->
   name server_error <> "NetworkError" ->
   name server_error <> "TimeoutError" ->
   run (fetchWithRetry name fetch retryConfig) c = (Thrown server_error, c1)).
Proof.
  intros Hmax Hrun server_error.
  unfold fetchWithRetry, retryNetworkRequest, retryWithCondition.
  set (cfg := finalConfig (default EMPTY_CONFIG retryConfig)) in *.
  destruct (Z.to_nat (maxRetries cfg + 1)) as [| fuel] eqn:Hfuel; [lia |].
  cbn [condition_while].
  destruct (Z.leb_spec 0 (maxRetries cfg)) as [_ | Hlt]; [| lia].
  rewrite run_try_catch, run_await. unfold fetch_checked.
  rewrite run_bind, run_await, Hrun.
  split.
  - intros Hlow. destruct (Z.geb_spec (Response.status response) 500); [lia |].
    reflexivity.
  - intros Hhigh Hn1 Hn2.
    destruct (Z.geb_spec (Response.status response) 500); [| lia].
    cbn [throw run toError]. cbv zeta. rewrite run_bind. cbn [ret run].
    fold server_error.
    assert (Hno : is_network_error name server_error (0 + 1) = false).
    { unfold is_network_error, server_error. cbn [message].
      destruct (server_error_message (Response.status response)) as (-> & -> & ->).
      cbn [orb]. fold server_error.
      apply String.eqb_neq in Hn1, Hn2. now rewrite Hn1, Hn2. }
    rewrite Hno. reflexivity.
Qed.

Lemma fetchWithRetry_first_response_witness :
  let c := Example.config_of Example.http_500 (Example.record pending 0) in
  let fetch := settle (Fetch Example.photo image) in
  let name := fun _ : JsValue => "Error" in
  0 <= maxRetries (finalConfig (default EMPTY_CONFIG None)) /\
  run fetch c = (Ok (Response.mk false 500),
                 on_world (fetched_once (Example.record pending 0)) c) /\
  run (fetchWithRetry name fetch None) c
  = (Thrown (JsError "Server error: 500"),
     on_world (fetched_once (Example.record pending 0)) c).
Proof.
  intros c fetch name.
  assert (Hmax : 0 <= maxRetries (finalConfig (default EMPTY_CONFIG None)))
    by (cbn; lia).
  assert (Hrun : run fetch c = (Ok (Response.mk false 500),
                                on_world (fetched_once (Example.record pending 0)) c))
    by reflexivity.
  split; [exact Hmax |]. split; [exact Hrun |].
  apply (fetchWithRetry_first_response name fetch None c _ _ Hmax Hrun).
  - cbn. lia.
  - discriminate.
  - discriminate.
Defined.

Lemma condition_while_fetch_rejected (name : JsValue -> string) (f : File)
    (t : MediaType) (cfg : RetryConfig) (fuel : nat) lastError (attempt : Z)
    (c : Config) (e : JsValue) :
  attempt <= maxRetries cfg ->
  network (oracle (world c)) (fetched (world c)) = Thrown e ->
  is_network_error name (toError e) (attempt + 1) = true ->
  let c0 := mkConfig (log (EvFetch f t) (set_fetched (S (fetched (world c))) (world c)))
              (pool c) in
  run (condition_while (S fuel) (fetch_checked (settle (Fetch f t)))
         (fun e i => ret (is_network_error name e i)) cfg lastError attempt) c
  = if attempt + 1 >? maxRetries cfg then (Thrown (toError e), c0)
    else run (condition_while fuel (fetch_checked (settle (Fetch f t)))
                (fun e i => ret (is_network_error name e i)) cfg
                (Some (toError e)) (attempt + 1))
             (on_world (paused cfg (attempt + 1)) c0).
Proof.
  intros Hle He Hnet c0. cbn [condition_while].
  destruct (Z.leb_spec attempt (maxRetries cfg)) as [_ | Hgt]; [| lia].
  rewrite run_try_catch, run_await. unfold fetch_checked at 1.
  rewrite run_bind, run_await, run_settle. cbn [handle fst snd world pool].
  rewrite He. cbv zeta. rewrite run_bind. cbn [ret run]. rewrite Hnet.
  cbn [negb orb]. fold c0.
  destruct (attempt + 1 >? maxRetries cfg); [reflexivity |].
  rewrite run_pause_then, run_backoff_pause. reflexivity.
Qed.

Lemma condition_while_network_down (name : JsValue -> string) (f : File)
    (t : MediaType) (cfg : RetryConfig) :
  forall (fuel : nat) lastError (attempt : Z) (c : Config),
    attempt + Z.of_nat (S fuel) = maxRetries cfg + 1 ->
    (forall j, (j <= fuel)%nat ->
       exists e, network (oracle (world c)) (fetched (world c) + j) = Thrown e /\
                 forall i, is_network_error name (toError e) i = true) ->
    let r := run (condition_while (S fuel) (fetch_checked (settle (Fetch f t)))
                    (fun e i => ret (is_network_error name e i)) cfg lastError attempt) c in
    fetched (world (snd r)) = (fetched (world c) + S fuel)%nat /\
    length (sleeps (trace (world (snd r))))
    = (length (sleeps (trace (world c))) + fuel)%nat /\
    exists e, network (oracle (world c)) (fetched (world c) + fuel) = Thrown e /\
              fst r = Thrown (toError e).
Proof.
  induction fuel as [| fuel IH]; intros lastError attempt c Hfuel Hdown r; subst r;
    destruct (Hdown 0%nat ltac:(lia)) as (e & He & Hnet);
    rewrite Nat.add_0_r in He;
    rewrite (condition_while_fetch_rejected name f t cfg _ lastError attempt c e
               ltac:(lia) He (Hnet _)).
  - destruct (Z.gtb_spec (attempt + 1) (maxRetries cfg)) as [_ | Hle]; [| lia].
    cbn. split; [lia |]. split; [lia |].
    exists e. split; [rewrite Nat.add_0_r; exact He | reflexivity].
  - destruct (Z.gtb_spec (attempt + 1) (maxRetries cfg)) as [Hgt | _]; [lia |].
    set (c1 := on_world (paused cfg (attempt + 1))
                 (mkConfig (log (EvFetch f t) (set_fetched (S (fetched (world c))) (world c)))
                    (pool c))).
    assert (Horacle : oracle (world c1) = oracle (world c)) by reflexivity.
    assert (Hfetched : fetched (world c1) = S (fetched (world c))) by reflexivity.
    assert (Hsleeps : length (sleeps (trace (world c1)))
                      = S (length (sleeps (trace (world c))))).
    { cbn. rewrite length_app. cbn. lia. }
    destruct (IH (Some (toError e)) (attempt + 1) c1 ltac:(lia)) as (H1 & H2 & e' & H3 & H4).
    { intros j Hj. rewrite Horacle, Hfetched.
      replace (S (fetched (world c)) + j)%nat with (fetched (world c) + S j)%nat by lia.
      apply Hdown. lia. }
    split; [rewrite H1, Hfetched; lia |].
    split; [rewrite H2, Hsleeps; lia |].
    exists e'. split; [| exact H4].
    rewrite Horacle, Hfetched in H3.
    replace (fetched (world c) + S fuel)%nat with (S (fetched (world c)) + fuel)%nat by lia.
    exact H3.
Qed.

(** X16.  [fetchWithRetry] does retry a request that cannot be made.
    With [maxRetries = n >= 0], when each of the next [n + 1] calls of
    [fetch] rejects with an error [retryNetworkRequest] takes for a
    network error (its message holds 'network', 'fetch' or 'timeout', as
    a browser's 'Failed to fetch' does), [fetch] is called [n + 1] times
    with [n] pauses in between, and the function rejects with the error of
    the last call. *)
Theorem fetchWithRetry_network_down (name : JsValue -> string) (f : File)
    (t : MediaType) (retryConfig : option PartialRetryConfig) (c : Config) :
  0 <= maxRetries (finalConfig (default EMPTY_CONFIG retryConfig)) ->
  let n := Z.to_nat (maxRetries (finalConfig (default EMPTY_CONFIG retryConfig))) in
  (forall j, (j <= n)%nat ->
     exists e, network (oracle (world c)) (fetched (world c) + j) = Thrown e /\
               forall i, is_network_error name (toError e) i = true) ->
  let r := run (fetchWithRetry name (settle (Fetch f t)) retryConfig) c in
  fetched (world (snd r)) = (fetched (world c) + (n + 1))%nat /\
  length (sleeps (trace (world (snd r)))) = (length (sleeps (trace (world c))) + n)%nat /\
  exists e, network (oracle (world c)) (fetched (world c) + n) = Thrown e /\
            fst r = Thrown (toError e).
Proof.
  intros Hmax n Hdown r. subst r.
  unfold fetchWithRetry, retryNetworkRequest, retryWithCondition.
  set (cfg := finalConfig (default EMPTY_CONFIG retryConfig)) in *.
  replace (Z.to_nat (maxRetries cfg + 1)) with (S n) by (unfold n; lia).
  replace (n + 1)%nat with (S n) by lia.
  apply condition_while_network_down; [unfold n; lia | exact Hdown].
Qed.

Lemma fetchWithRetry_network_down_witness :
  let c := Example.config_of Example.unreachable (Example.record pending 0) in
  let name := fun _ : JsValue => "TypeError" in
  let r := run (fetchWithRetry name (settle (Fetch Example.photo image)) None) c in
  0 <= maxRetries (finalConfig (default EMPTY_CONFIG None)) /\
  fetched (world (snd r)) = 4%nat /\
  length (sleeps (trace (world (snd r)))) = 3%nat.
Proof.
  intros c name r.
  assert (Hmax : 0 <= maxRetries (finalConfig (default EMPTY_CONFIG None)))
    by (cbn; lia).
  split; [exact Hmax |].
  destruct (fetchWithRetry_network_down name Example.photo image None c Hmax)
    as (Hfetched & Hsleeps & _).
  - intros j Hj. exists (JsError "Failed to fetch"). split; reflexivity.
  - split; [exact Hfetched | exact Hsleeps].
Defined.

(* ===================================================================== *)
(** * [indexedDB.ts]: the wrapper                                        *)
(* ===================================================================== *)

Lemma getStore_not_connected {V : Type} (this : nat) (storeName : string)
    (env : Env V) :
  IndexedDBWrapper.db this env = false ->
  IndexedDBWrapper.getStore this storeName env
  = Thrown IndexedDBWrapper.NOT_CONNECTED.
Proof.
  intros H. unfold IndexedDBWrapper.getStore, IndexedDBWrapper.ensureConnected.
  now rewrite H.
Qed.

Lemma getStore_open {V : Type} (this : nat) (storeName : string)
    (store : ObjectStore V) (env : Env V) :
  open_on this storeName store env ->
  IndexedDBWrapper.getStore this storeName env = Ok store.
Proof.
  intros (Hdb & d & Hd & Hs).
  unfold IndexedDBWrapper.getStore, IndexedDBWrapper.ensureConnected.
  rewrite Hdb, Hd. cbn. now rewrite Hs.
Qed.

Lemma db_new {V : Type} (env : Env V) :
  IndexedDBWrapper.db (fst (IndexedDBWrapper.new env)) (snd (IndexedDBWrapper.new env))
  = false.
Proof.
  unfold IndexedDBWrapper.db, IndexedDBWrapper.new. cbn [fst snd wrappers].
  rewrite lookup_app_r by lia. now rewrite Nat.sub_diag.
Qed.

Lemma db_set_db {V : Type} (this : nat) (b : bool) (env : Env V) :
  (this < length (wrappers env))%nat ->
  IndexedDBWrapper.db this (set_db this b env) = b.
Proof.
  intros Hlt. unfold IndexedDBWrapper.db, set_db. cbn [wrappers].
  now rewrite list_lookup_insert_eq.
Qed.

Lemma db_close {V : Type} (this : nat) (env : Env V) :
  IndexedDBWrapper.db this (IndexedDBWrapper.close this env) = false.
Proof.
  unfold IndexedDBWrapper.close.
  destruct (IndexedDBWrapper.db this env) eqn:Hdb; [| exact Hdb].
  apply db_set_db. unfold IndexedDBWrapper.db in Hdb.
  destruct (wrappers env !! this) eqn:Hl; [| discriminate].
  now apply lookup_lt_Some in Hl.
Qed.

(** X17.  On a wrapper that holds no connection (one just constructed,
    or one that was closed) every data method rejects with the error
    '데이터베이스가 연결되지 않았습니다. connect()를 먼저 호출하세요.' and
    changes nothing. *)
Theorem wrapper_not_connected {V : Type} (field : string -> V -> option IDBKey)
    (this : nat) (env : Env V) :
  IndexedDBWrapper.db (fst (IndexedDBWrapper.new env)) (snd (IndexedDBWrapper.new env))
  = false /\
  IndexedDBWrapper.db this (IndexedDBWrapper.close this env) = false /\
  (IndexedDBWrapper.db this env = false ->
   forall (storeName indexName key : string) (data : V) (value : IDBKey),
     let rejected {X : Type} : Result X * Env V :=
       (Thrown IndexedDBWrapper.NOT_CONNECTED, env) in
     IndexedDBWrapper.add field this storeName data env = rejected /\
     IndexedDBWrapper.get this storeName key env = rejected /\
     IndexedDBWrapper.update field this storeName data env = rejected /\
     IndexedDBWrapper.delete this storeName key env = rejected /\
     IndexedDBWrapper.getAll this storeName env = rejected /\
     IndexedDBWrapper.getByIndex field this storeName indexName value env = rejected /\
     IndexedDBWrapper.clear this storeName env = rejected /\
     IndexedDBWrapper.count this storeName env = rejected).
Proof.
  split; [apply db_new |]. split; [apply db_close |].
  intros Hdb storeName indexName key data value rejected. subst rejected.
  unfold IndexedDBWrapper.add, IndexedDBWrapper.get, IndexedDBWrapper.update,
    IndexedDBWrapper.delete, IndexedDBWrapper.getAll, IndexedDBWrapper.getByIndex,
    IndexedDBWrapper.clear, IndexedDBWrapper.count.
  rewrite (getStore_not_connected this storeName env Hdb).
  repeat split.
Qed.

Lemma wrapper_not_connected_witness :
  let env : Env PendingUpload :=
    mkEnv true None Example.browser_messages None [false] None in
  IndexedDBWrapper.db 0 env = false /\
  IndexedDBWrapper.getAll 0 STORES.PENDING_UPLOADS env
  = (Thrown IndexedDBWrapper.NOT_CONNECTED, env).
Proof.
  intros env.
  assert (Hdb : IndexedDBWrapper.db 0 env = false) by reflexivity.
  split; [exact Hdb |].
  destruct (wrapper_not_connected upload_field 0 env) as (_ & _ & H).
  destruct (H Hdb STORES.PENDING_UPLOADS "status" "a" (Example.record pending 0)
              (KeyString "pending")) as (_ & _ & _ & _ & Hall & _).
  exact Hall.
Defined.

Lemma onupgradeneeded_fresh {V : Type} :
  onupgradeneeded (V := V) ∅
  = <[STORES.SETTINGS := mkObjectStore "key" [] ∅]>
      (<[STORES.DRAFTS := mkObjectStore "id"
           [("updatedAt", "updatedAt"); ("createdAt", "createdAt")] ∅]>
         (<[STORES.PENDING_UPLOADS := mkObjectStore "id"
              [("status", "status"); ("createdAt", "createdAt")] ∅]>
            (<[STORES.CACHED_MEDIA := mkObjectStore "id"
                 [("type", "type"); ("uploadedAt", "uploadedAt");
                  ("cachedAt", "cachedAt")] ∅]> ∅))).
Proof.
  unfold onupgradeneeded, SCHEMA. cbn [fold_left].
  rewrite lookup_empty.
  rewrite lookup_insert_ne by discriminate. rewrite lookup_empty.
  rewrite !lookup_insert_ne by discriminate. rewrite lookup_empty.
  rewrite !lookup_insert_ne by discriminate. rewrite lookup_empty.
  reflexivity.
Qed.

(** X18.  [connect].  On a connected wrapper it resolves and changes
    nothing, so it is idempotent.  On a wrapper that is not connected it
    settles as [initDB] does.  In a browser that has IndexedDB, when the
    request to open the database succeeds, it resolves and leaves the
    wrapper connected: the first connection creates the database with
    exactly four empty stores, 'cachedMedia', 'pendingUploads' and
    'drafts' keyed by 'id', 'settings' keyed by 'key', and a database
    that exists is opened as it is.  When the request fails, [connect]
    rejects with 'IndexedDB 초기화 실패: ' followed by the error of the
    request, and changes nothing.  Without IndexedDB [connect] rejects
    and changes nothing.  [close] is idempotent. *)
Theorem connect_spec {V : Type} (this : nat) (env : Env V) :
  (this < length (wrappers env))%nat ->
  let env1 := snd (IndexedDBWrapper.connect this env) in
  (IndexedDBWrapper.db this env = true ->
   IndexedDBWrapper.connect this env = (Ok tt, env)) /\
  (IndexedDBWrapper.db this env = false ->
   supported env = true -> openError env = None ->
   fst (IndexedDBWrapper.connect this env) = Ok tt /\
   IndexedDBWrapper.db this env1 = true /\
   IndexedDBWrapper.connect this env1 = (Ok tt, env1) /\
   (forall d, database env = Some d -> database env1 = Some d) /\
   (database env = None ->
    exists d, database env1 = Some d /\
      (forall storeName store, d !! storeName = Some store ->
         objects store = ∅ /\
         (storeName = STORES.CACHED_MEDIA \/ storeName = STORES.PENDING_UPLOADS \/
          storeName = STORES.DRAFTS \/ storeName = STORES.SETTINGS)) /\
      keyPath <$> d !! STORES.CACHED_MEDIA = Some "id" /\
      keyPath <$> d !! STORES.PENDING_UPLOADS = Some "id" /\
      keyPath <$> d !! STORES.DRAFTS = Some "id" /\
      keyPath <$> d !! STORES.SETTINGS = Some "key")) /\
  (IndexedDBWrapper.db this env = false ->
   supported env = true ->
   forall error, openError env = Some error ->
   IndexedDBWrapper.connect this env
   = (Thrown (JsError ("IndexedDB 초기화 실패: " +:+ error)), env)) /\
  (supported env = false -> IndexedDBWrapper.db this env = false ->
   IndexedDBWrapper.connect this env
   = (Thrown (JsError "IndexedDB를 지원하지 않는 브라우저입니다."), env)) /\
  IndexedDBWrapper.close this (IndexedDBWrapper.close this env)
  = IndexedDBWrapper.close this env.
Proof.
  intros Hthis env1. subst env1. split; [| split; [| split; [| split]]].
  - intros Hdb. unfold IndexedDBWrapper.connect. now rewrite Hdb.
  - intros Hdb Hsup Hopen. unfold IndexedDBWrapper.connect. rewrite Hdb.
    unfold initDB. rewrite Hsup, Hopen. cbn [fst snd].
    assert (Hdb1 : IndexedDBWrapper.db this
              (set_db this true
                 (set_database (Some match database env with
                                     | Some d => d
                                     | None => onupgradeneeded ∅
                                     end) env)) = true)
      by (apply db_set_db; exact Hthis).
    split; [reflexivity |]. split; [exact Hdb1 |].
    split; [now rewrite Hdb1 |].
    split; [intros d Hd; cbn; now rewrite Hd |].
    intros Hnone. rewrite Hnone. eexists. split; [reflexivity |].
    rewrite onupgradeneeded_fresh.
    split; [| repeat split].
    intros storeName store Hs.
    repeat (apply lookup_insert_Some in Hs as [[<- <-] | [_ Hs]]; [split; [reflexivity | tauto] |]).
    rewrite lookup_empty in Hs. discriminate.
  - intros Hdb Hsup error Hopen.
    unfold IndexedDBWrapper.connect, initDB. now rewrite Hdb, Hsup, Hopen.
  - intros Hsup Hdb. unfold IndexedDBWrapper.connect, initDB. now rewrite Hdb, Hsup.
  - unfold IndexedDBWrapper.close at 1. now rewrite db_close.
Qed.

Lemma connect_spec_witness :
  let env : Env PendingUpload :=
    mkEnv true None Example.browser_messages None [false] None in
  let blocked : Env PendingUpload :=
    mkEnv true (Some "UnknownError: Internal error opening backing store.")
      Example.browser_messages None [false] None in
  (0 < length (wrappers env))%nat /\
  IndexedDBWrapper.db 0 env = false /\
  supported env = true /\
  openError env = None /\
  IndexedDBWrapper.db 0 (snd (IndexedDBWrapper.connect 0 env)) = true /\
  IndexedDBWrapper.connect 0 blocked
  = (Thrown (JsError ("IndexedDB 초기화 실패: "
                      +:+ "UnknownError: Internal error opening backing store.")),
     blocked).
Proof.
  intros env blocked.
  assert (Hthis : (0 < length (wrappers env))%nat) by (cbn; lia).
  assert (Hdb : IndexedDBWrapper.db 0 env = false) by reflexivity.
  assert (Hsup : supported env = true) by reflexivity.
  assert (Hopen : openError env = None) by reflexivity.
  split; [exact Hthis |]. split; [exact Hdb |]. split; [exact Hsup |].
  split; [exact Hopen |].
  destruct (connect_spec 0 env Hthis) as (_ & Hok & _).
  split; [exact (proj1 (proj2 (Hok Hdb Hsup Hopen))) |].
  destruct (connect_spec 0 blocked Hthis) as (_ & _ & Hfail & _).
  exact (Hfail eq_refl eq_refl _ eq_refl).
Defined.

(** ** [getDB] *)

Lemma getDB_begin_fresh {V : Type} (env : Env V) :
  defaultInstance env = None ->
  getDB_begin env
  = (Some (length (wrappers env)),
     mkEnv (supported env) (openError env) (exceptionMessage env) (database env)
       (wrappers env ++ [false]) (Some (length (wrappers env)))).
Proof. intros H. unfold getDB_begin. now rewrite H. Qed.

(** X19.  [getDB], run without interruption.  The first call in a
    browser that has IndexedDB, when the database can be opened,
    constructs the default instance, connects it and resolves with it;
    every later call resolves with that same instance and changes
    nothing.  When the first call fails (no IndexedDB, or the request to
    open the database fails) the instance stays in [defaultInstance]
    unconnected: the first call rejects, but every later call resolves,
    with a wrapper on which every data method rejects as not connected. *)
Theorem getDB_singleton {V : Type} (env : Env V) :
  (forall this, defaultInstance env = Some this -> getDB env = (Ok (Some this), env)) /\
  (defaultInstance env = None ->
   let this := length (wrappers env) in
   let env1 := snd (getDB env) in
   defaultInstance env1 = Some this /\
   getDB env1 = (Ok (Some this), env1) /\
   (supported env = true -> openError env = None ->
    fst (getDB env) = Ok (Some this) /\ IndexedDBWrapper.db this env1 = true) /\
   (supported env = true -> forall error, openError env = Some error ->
    fst (getDB env) = Thrown (JsError ("IndexedDB 초기화 실패: " +:+ error)) /\
    IndexedDBWrapper.db this env1 = false /\
    forall storeName,
      IndexedDBWrapper.getAll this storeName env1
      = (Thrown IndexedDBWrapper.NOT_CONNECTED, env1)) /\
   (supported env = false ->
    fst (getDB env) = Thrown (JsError "IndexedDB를 지원하지 않는 브라우저입니다.") /\
    IndexedDBWrapper.db this env1 = false /\
    forall storeName,
      IndexedDBWrapper.getAll this storeName env1
      = (Thrown IndexedDBWrapper.NOT_CONNECTED, env1))).
Proof.
  split.
  - intros this H. unfold getDB, getDB_begin. rewrite H. cbn. now rewrite H.
  - intros Hnone this env1. subst env1. unfold getDB.
    rewrite (getDB_begin_fresh env Hnone). fold this.
    unfold getDB_resume, initDB. cbn [supported openError].
    assert (Hnew : IndexedDBWrapper.db this
              (mkEnv (supported env) (openError env) (exceptionMessage env)
                 (database env) (wrappers env ++ [false]) (Some this))
              = false).
    { unfold IndexedDBWrapper.db. cbn [wrappers]. unfold this.
      rewrite lookup_app_r by lia. now rewrite Nat.sub_diag. }
    destruct (supported env) eqn:Hsup; [destruct (openError env) as [error |] eqn:Hopen |];
      cbn [fst snd].
    + split; [reflexivity |].
      split; [unfold getDB_begin; reflexivity |].
      split; [discriminate |].
      split; [| discriminate]. intros _ error' [= <-]. split; [reflexivity |].
      split; [exact Hnew |]. intros storeName.
      unfold IndexedDBWrapper.getAll. now rewrite (getStore_not_connected _ _ _ Hnew).
    + split; [reflexivity |].
      split; [unfold getDB_begin; reflexivity |].
      split; [| split; [| discriminate]].
      * intros _ _. split; [reflexivity |].
        apply db_set_db. cbn [set_database wrappers]. rewrite length_app. cbn. lia.
      * intros _ error' [=].
    + split; [reflexivity |].
      split; [unfold getDB_begin; reflexivity |].
      split; [discriminate |]. split; [discriminate |].
      intros _. split; [reflexivity |].
      split; [exact Hnew |]. intros storeName.
      unfold IndexedDBWrapper.getAll. now rewrite (getStore_not_connected _ _ _ Hnew).
Qed.

Lemma getDB_singleton_witness :
  let env : Env PendingUpload :=
    mkEnv true None Example.browser_messages None [] None in
  defaultInstance env = None /\
  supported env = true /\
  openError env = None /\
  fst (getDB env) = Ok (Some 0%nat) /\
  getDB (snd (getDB env)) = (Ok (Some 0%nat), snd (getDB env)).
Proof.
  intros env.
  assert (Hnone : defaultInstance env = None) by reflexivity.
  assert (Hsup : supported env = true) by reflexivity.
  assert (Hopen : openError env = None) by reflexivity.
  split; [exact Hnone |]. split; [exact Hsup |]. split; [exact Hopen |].
  destruct (getDB_singleton env) as (_ & Hfirst).
  destruct (Hfirst Hnone) as (_ & Hagain & Hok & _).
  split; [exact (proj1 (Hok Hsup Hopen)) | exact Hagain].
Defined.

(** X20.  Two calls of [getDB] that overlap.  While the first call waits
    for its [connect()], [defaultInstance] is already set: a second call
    started then resolves at once with the same instance, which is not
    connected yet, so that every data method called on it before the
    first call resumes rejects as not connected.  Once the first call has
    resumed, the instance is connected when the database could be
    opened; when the request to open it failed, the first call rejects
    and the instance stays as it was. *)
Theorem getDB_overlap {V : Type} (field : string -> V -> option IDBKey) (env : Env V) :
  defaultInstance env = None ->
  supported env = true ->
  exists (this : nat) (env1 env2 : Env V),
    getDB_begin env = (Some this, env1) /\
    getDB_begin env1 = (None, env1) /\
    defaultInstance env1 = Some this /\
    IndexedDBWrapper.db this env1 = false /\
    (forall (storeName indexName key : string) (data : V) (value : IDBKey),
       IndexedDBWrapper.add field this storeName data env1
       = (Thrown IndexedDBWrapper.NOT_CONNECTED, env1) /\
       IndexedDBWrapper.get this storeName key env1
       = (Thrown IndexedDBWrapper.NOT_CONNECTED, env1) /\
       IndexedDBWrapper.update field this storeName data env1
       = (Thrown IndexedDBWrapper.NOT_CONNECTED, env1) /\
       IndexedDBWrapper.getAll this storeName env1
       = (Thrown IndexedDBWrapper.NOT_CONNECTED, env1) /\
       IndexedDBWrapper.getByIndex field this storeName indexName value env1
       = (Thrown IndexedDBWrapper.NOT_CONNECTED, env1)) /\
    (openError env = None ->
     getDB_resume this env1 = (Ok (Some this), env2) /\
     IndexedDBWrapper.db this env2 = true) /\
    (forall error, openError env = Some error ->
     getDB_resume this env1
     = (Thrown (JsError ("IndexedDB 초기화 실패: " +:+ error)), env1)).
Proof.
  intros Hnone Hsup.
  set (this := length (wrappers env)).
  set (env1 := mkEnv (supported env) (openError env) (exceptionMessage env)
                 (database env) (wrappers env ++ [false]) (Some this)).
  assert (Hnew : IndexedDBWrapper.db this env1 = false).
  { unfold IndexedDBWrapper.db. cbn [wrappers env1]. unfold this.
    rewrite lookup_app_r by lia. now rewrite Nat.sub_diag. }
  exists this, env1.
  exists (set_db this true
            (set_database (Some match database env1 with
                                | Some d => d
                                | None => onupgradeneeded ∅
                                end) env1)).
  split; [now apply getDB_begin_fresh |].
  split; [reflexivity |]. split; [reflexivity |]. split; [exact Hnew |].
  split.
  { intros storeName indexName key data value.
    unfold IndexedDBWrapper.add, IndexedDBWrapper.get, IndexedDBWrapper.update,
      IndexedDBWrapper.getAll, IndexedDBWrapper.getByIndex.
    rewrite (getStore_not_connected this storeName env1 Hnew). repeat split. }
  split.
  - intros Hopen. unfold getDB_resume, initDB. cbn [supported openError env1].
    rewrite Hsup, Hopen.
    split; [reflexivity |].
    apply db_set_db. cbn [set_database wrappers env1]. rewrite length_app. cbn.
    unfold this. lia.
  - intros error Hopen. unfold getDB_resume, initDB. cbn [supported openError env1].
    now rewrite Hsup, Hopen.
Qed.

Lemma getDB_overlap_witness :
  let env : Env PendingUpload :=
    mkEnv true None Example.browser_messages None [] None in
  defaultInstance env = None /\
  supported env = true /\
  exists (this : nat) (env1 : Env PendingUpload),
    getDB_begin env = (Some this, env1) /\
    getDB_begin env1 = (None, env1) /\
    IndexedDBWrapper.getAll this STORES.PENDING_UPLOADS env1
    = (Thrown IndexedDBWrapper.NOT_CONNECTED, env1).
Proof.
  intros env.
  assert (Hnone : defaultInstance env = None) by reflexivity.
  assert (Hsup : supported env = true) by reflexivity.
  split; [exact Hnone |]. split; [exact Hsup |].
  destruct (getDB_overlap upload_field env Hnone Hsup)
    as (this & env1 & env2 & H1 & H2 & _ & _ & Hops & _).
  exists this, env1. split; [exact H1 |]. split; [exact H2 |].
  destruct (Hops STORES.PENDING_UPLOADS "status" "a" (Example.record pending 0)
              (KeyString "pending")) as (_ & _ & _ & Hall & _).
  exact Hall.
Defined.

(** ** The data methods on an open store *)

Lemma set_objects_open {V : Type} (this : nat) (storeName : string)
    (store : ObjectStore V) (r : gmap IDBKey V) (env : Env V) :
  open_on this storeName store env ->
  open_on this storeName (mkObjectStore (keyPath store) (indexNames store) r)
    (set_objects storeName r env).
Proof.
  intros (Hdb & d & Hd & Hs). split; [exact Hdb |].
  unfold set_objects, set_database. cbn [database]. rewrite Hd. cbn.
  eexists. split; [reflexivity |]. rewrite lookup_alter_eq, Hs. reflexivity.
Qed.

Lemma set_objects_same {V : Type} (this : nat) (storeName : string)
    (store : ObjectStore V) (env : Env V) :
  open_on this storeName store env ->
  set_objects storeName (objects store) env = env.
Proof.
  intros (_ & d & Hd & Hs). unfold set_objects, set_database.
  destruct env as [sup oe em db ws di].
  cbn [database supported openError exceptionMessage wrappers defaultInstance] in *.
  subst db. cbn. f_equal. f_equal.
  apply map_eq. intros name. destruct (decide (name = storeName)) as [-> | Hne].
  - rewrite lookup_alter_eq, Hs. cbn. now destruct store.
  - now rewrite lookup_alter_ne.
Qed.

Lemma set_objects_other {V : Type} (storeName other : string)
    (r : gmap IDBKey V) (env : Env V) :
  other <> storeName ->
  store_objects other (set_objects storeName r env) = store_objects other env.
Proof.
  intros Hne. unfold store_objects, set_objects, set_database. cbn [database].
  destruct (database env) as [d |]; [| reflexivity].
  cbn. now rewrite lookup_alter_ne.
Qed.

Lemma store_objects_open {V : Type} (this : nat) (storeName : string)
    (store : ObjectStore V) (env : Env V) :
  open_on this storeName store env -> store_objects storeName env = Some (objects store).
Proof.
  intros (_ & d & Hd & Hs). unfold store_objects. rewrite Hd. cbn. now rewrite Hs.
Qed.

Lemma get_open {V : Type} (this : nat) (storeName : string)
    (store : ObjectStore V) (key : string) (env : Env V) :
  open_on this storeName store env ->
  IndexedDBWrapper.get this storeName key env = (Ok (objects store !! KeyString key), env).
Proof.
  intros Hopen. unfold IndexedDBWrapper.get. now rewrite (getStore_open _ _ _ _ Hopen).
Qed.

Lemma count_open {V : Type} (this : nat) (storeName : string)
    (store : ObjectStore V) (env : Env V) :
  open_on this storeName store env ->
  IndexedDBWrapper.count this storeName env = (Ok (size (objects store)), env).
Proof.
  intros Hopen. unfold IndexedDBWrapper.count. now rewrite (getStore_open _ _ _ _ Hopen).
Qed.

Lemma listing_Permutation {V : Type} (r : gmap IDBKey V) :
  listing r ≡ₚ (map_to_list r).*2.
Proof. unfold listing. now rewrite merge_sort_Permutation. Qed.

Lemma getAll_open {V : Type} (this : nat) (storeName : string)
    (store : ObjectStore V) (env : Env V) :
  open_on this storeName store env ->
  IndexedDBWrapper.getAll this storeName env = (Ok (listing (objects store)), env).
Proof.
  intros Hopen. unfold IndexedDBWrapper.getAll. now rewrite (getStore_open _ _ _ _ Hopen).
Qed.

(** X21.  [add] on a connected wrapper and a store of the database.
    For a value whose key is not stored yet it resolves with the key and
    stores the value: [get] of that key returns it, the count grows by
    one, the other keys and the other stores are as before.  For a value
    whose key is stored it rejects with '데이터 추가 실패: ' followed by
    [String(request.error)], which is the name 'ConstraintError' followed
    by what the message of the browser adds to it, and changes nothing.  For a value that has no key at the key path of
    the store (an object without 'key' given to 'settings', say) it
    rejects with the [DataError] thrown by the store and changes
    nothing. *)
Theorem add_spec {V : Type} (field : string -> V -> option IDBKey)
    (this : nat) (storeName : string) (store : ObjectStore V) (data : V)
    (env : Env V) :
  open_on this storeName store env ->
  let r := IndexedDBWrapper.add field this storeName data env in
  (forall key : string,
     field (keyPath store) data = Some (KeyString key) ->
     objects store !! KeyString key = None ->
     fst r = Ok (KeyString key) /\
     IndexedDBWrapper.get this storeName key (snd r) = (Ok (Some data), snd r) /\
     IndexedDBWrapper.count this storeName (snd r)
     = (Ok (S (size (objects store))), snd r) /\
     (forall key', key' <> key ->
        fst (IndexedDBWrapper.get this storeName key' (snd r))
        = fst (IndexedDBWrapper.get this storeName key' env)) /\
     (forall other, other <> storeName ->
        store_objects other (snd r) = store_objects other env)) /\
  (forall key : IDBKey,
     field (keyPath store) data = Some key ->
     is_Some (objects store !! key) ->
     r = (Thrown (JsError ("데이터 추가 실패: "
                           +:+ DOMException_toString ConstraintError
                                 (exceptionMessage env ConstraintError))), env) /\
     exists rest,
       DOMException_toString ConstraintError (exceptionMessage env ConstraintError)
       = "ConstraintError" +:+ rest) /\
  (field (keyPath store) data = None ->
   r = (Thrown (JsError "DataError"), env)).
Proof.
  intros Hopen r. subst r. unfold IndexedDBWrapper.add.
  rewrite (getStore_open _ _ _ _ Hopen).
  split; [| split].
  - intros key Hkey Hfree. rewrite Hkey, Hfree. cbn [fst snd].
    pose proof (set_objects_open this storeName store
                  (<[KeyString key := data]> (objects store)) env Hopen) as Hopen1.
    split; [reflexivity |].
    split; [rewrite (get_open _ _ _ _ _ Hopen1); cbn; now rewrite lookup_insert_eq |].
    split; [rewrite (count_open _ _ _ _ Hopen1); cbn; now rewrite map_size_insert_None |].
    split.
    + intros key' Hne. rewrite (get_open _ _ _ _ _ Hopen1), (get_open _ _ _ _ _ Hopen).
      cbn. rewrite lookup_insert_ne; [reflexivity | congruence].
    + intros other Hne. now apply set_objects_other.
  - intros key Hkey [old Hold]. rewrite Hkey, Hold. split; [reflexivity |].
    unfold DOMException_toString.
    destruct (exceptionMessage env ConstraintError); eexists; reflexivity.
  - intros Hkey. now rewrite Hkey.
Qed.

Lemma add_spec_witness :
  let store := mkObjectStore "key" [] (∅ : gmap IDBKey PendingUpload) in
  let env :=
    mkEnv true None Example.browser_messages
      (Some (<[STORES.SETTINGS := store]> ∅)) [true] (Some 0%nat) in
  let a := Example.record pending 0 in
  let uploads := pendingUploads_store (<["a" := a]> ∅) in
  let env' :=
    mkEnv true None Example.browser_messages
      (Some (<[STORES.PENDING_UPLOADS := uploads]> ∅)) [true] (Some 0%nat) in
  open_on 0 STORES.SETTINGS store env /\
  upload_field (keyPath store) a = None /\
  IndexedDBWrapper.add upload_field 0 STORES.SETTINGS a env
  = (Thrown (JsError "DataError"), env) /\
  open_on 0 STORES.PENDING_UPLOADS uploads env' /\
  upload_field (keyPath uploads) a = Some (KeyString "a") /\
  is_Some (objects uploads !! KeyString "a") /\
  IndexedDBWrapper.add upload_field 0 STORES.PENDING_UPLOADS a env'
  = (Thrown (JsError "데이터 추가 실패: ConstraintError: Key already exists in the object store."),
     env').
Proof.
  intros store env a uploads env'.
  assert (Hopen : open_on 0 STORES.SETTINGS store env).
  { split; [reflexivity |]. eexists. split; reflexivity. }
  assert (Hkey : upload_field (keyPath store) a = None) by reflexivity.
  assert (Hopen' : open_on 0 STORES.PENDING_UPLOADS uploads env').
  { split; [reflexivity |]. eexists. split; reflexivity. }
  assert (Hkey' : upload_field (keyPath uploads) a = Some (KeyString "a"))
    by reflexivity.
  assert (Hstored : is_Some (objects uploads !! KeyString "a")).
  { exists a. cbn [uploads pendingUploads_store objects].
    rewrite lookup_kmap by exact KeyString_inj. apply lookup_insert_eq. }
  split; [exact Hopen |]. split; [exact Hkey |].
  destruct (add_spec upload_field 0 STORES.SETTINGS store a env Hopen)
    as (_ & _ & Hnone).
  split; [exact (Hnone Hkey) |].
  split; [exact Hopen' |]. split; [exact Hkey' |]. split; [exact Hstored |].
  destruct (add_spec upload_field 0 STORES.PENDING_UPLOADS uploads a env' Hopen')
    as (_ & Hdup & _).
  exact (proj1 (Hdup _ Hkey' Hstored)).
Defined.

(** X22.  [update] and [delete] on a connected wrapper and a store of the
    database.  [update] stores the value under its key whether or not the
    key was stored (afterwards [get] returns the value, the other keys are
    as before, the count grows by one exactly when the key was new).
    [delete] never rejects; afterwards [get] of the key finds nothing, the
    other keys are as before, and deleting a key that is not stored
    changes nothing at all. *)
Theorem update_delete_spec {V : Type} (field : string -> V -> option IDBKey)
    (this : nat) (storeName : string) (store : ObjectStore V) (env : Env V) :
  open_on this storeName store env ->
  (forall (data : V) (key : string),
     field (keyPath store) data = Some (KeyString key) ->
     let r := IndexedDBWrapper.update field this storeName data env in
     fst r = Ok (KeyString key) /\
     IndexedDBWrapper.get this storeName key (snd r) = (Ok (Some data), snd r) /\
     (forall key', key' <> key ->
        fst (IndexedDBWrapper.get this storeName key' (snd r))
        = fst (IndexedDBWrapper.get this storeName key' env)) /\
     fst (IndexedDBWrapper.count this storeName (snd r))
     = Ok (match objects store !! KeyString key with
           | Some _ => size (objects store)
           | None => S (size (objects store))
           end)) /\
  (forall key : string,
     let r := IndexedDBWrapper.delete this storeName key env in
     fst r = Ok tt /\
     IndexedDBWrapper.get this storeName key (snd r) = (Ok None, snd r) /\
     (forall key', key' <> key ->
        fst (IndexedDBWrapper.get this storeName key' (snd r))
        = fst (IndexedDBWrapper.get this storeName key' env)) /\
     (objects store !! KeyString key = None -> snd r = env)).
Proof.
  intros Hopen. split.
  - intros data key Hkey r. subst r. unfold IndexedDBWrapper.update.
    rewrite (getStore_open _ _ _ _ Hopen), Hkey. cbn [fst snd].
    pose proof (set_objects_open this storeName store
                  (<[KeyString key := data]> (objects store)) env Hopen) as Hopen1.
    split; [reflexivity |].
    split; [rewrite (get_open _ _ _ _ _ Hopen1); cbn; now rewrite lookup_insert_eq |].
    split.
    + intros key' Hne. rewrite (get_open _ _ _ _ _ Hopen1), (get_open _ _ _ _ _ Hopen).
      cbn. rewrite lookup_insert_ne; [reflexivity | congruence].
    + rewrite (count_open _ _ _ _ Hopen1). cbn.
      destruct (objects store !! KeyString key) as [old |] eqn:Hold.
      * now rewrite map_size_insert_Some.
      * now rewrite map_size_insert_None.
  - intros key r. subst r. unfold IndexedDBWrapper.delete.
    rewrite (getStore_open _ _ _ _ Hopen). cbn [fst snd].
    pose proof (set_objects_open this storeName store
                  (base.delete (KeyString key) (objects store)) env Hopen) as Hopen1.
    split; [reflexivity |].
    split; [rewrite (get_open _ _ _ _ _ Hopen1); cbn; now rewrite lookup_delete_eq |].
    split.
    + intros key' Hne. rewrite (get_open _ _ _ _ _ Hopen1), (get_open _ _ _ _ _ Hopen).
      cbn. rewrite lookup_delete_ne; [reflexivity | congruence].
    + intros Habsent. rewrite delete_id by exact Habsent.
      now apply (set_objects_same this).
Qed.

Lemma update_delete_spec_witness :
  let store := mkObjectStore "id" [("status", "status"); ("createdAt", "createdAt")]
                 (∅ : gmap IDBKey PendingUpload) in
  let env := mkEnv true None Example.browser_messages (Some (<[STORES.PENDING_UPLOADS := store]> ∅)) [true] (Some 0%nat) in
  let u := Example.record pending 0 in
  open_on 0 STORES.PENDING_UPLOADS store env /\
  upload_field (keyPath store) u = Some (KeyString "a") /\
  fst (IndexedDBWrapper.update upload_field 0 STORES.PENDING_UPLOADS u env)
  = Ok (KeyString "a") /\
  snd (IndexedDBWrapper.delete 0 STORES.PENDING_UPLOADS "a" env) = env.
Proof.
  intros store env u.
  assert (Hopen : open_on 0 STORES.PENDING_UPLOADS store env).
  { split; [reflexivity |]. eexists. split; reflexivity. }
  assert (Hkey : upload_field (keyPath store) u = Some (KeyString "a")) by reflexivity.
  split; [exact Hopen |]. split; [exact Hkey |].
  destruct (update_delete_spec upload_field 0 STORES.PENDING_UPLOADS store env Hopen)
    as (Hupdate & Hdelete).
  split.
  - exact (proj1 (Hupdate u "a" Hkey)).
  - destruct (Hdelete "a") as (_ & _ & _ & Hsame). apply Hsame. reflexivity.
Defined.

(** X23.  [getAll], [count] and [clear] on a connected wrapper and a
    store of the database.  [getAll] returns the stored values and
    nothing else, as many as there are keys, and [count] is the length of
    what [getAll] returns.
    After [clear], [getAll] returns the empty array and [count] 0, while
    the other stores are as before. *)
Theorem getAll_count_clear {V : Type} (this : nat) (storeName : string)
    (store : ObjectStore V) (env : Env V) :
  open_on this storeName store env ->
  let env1 := snd (IndexedDBWrapper.clear this storeName env) in
  (exists l,
     IndexedDBWrapper.getAll this storeName env = (Ok l, env) /\
     IndexedDBWrapper.count this storeName env = (Ok (length l), env) /\
     length l = size (objects store) /\
     (forall v, v ∈ l <-> exists key, objects store !! key = Some v)) /\
  fst (IndexedDBWrapper.clear this storeName env) = Ok tt /\
  IndexedDBWrapper.getAll this storeName env1 = (Ok [], env1) /\
  IndexedDBWrapper.count this storeName env1 = (Ok 0%nat, env1) /\
  (forall other, other <> storeName ->
     store_objects other env1 = store_objects other env).
Proof.
  intros Hopen env1. subst env1. split.
  - exists (listing (objects store)).
    split; [now apply getAll_open |].
    split; [rewrite (count_open _ _ _ _ Hopen), listing_Permutation, length_fmap,
              length_map_to_list; reflexivity |].
    split; [now rewrite listing_Permutation, length_fmap, length_map_to_list |].
    intros v. rewrite listing_Permutation, list_elem_of_fmap. split.
    + intros ([key v'] & -> & Hin). exists key. now apply elem_of_map_to_list.
    + intros [key Hkey]. exists (key, v). split; [reflexivity |].
      now apply elem_of_map_to_list.
  - unfold IndexedDBWrapper.clear. rewrite (getStore_open _ _ _ _ Hopen). cbn [fst snd].
    pose proof (set_objects_open this storeName store ∅ env Hopen) as Hopen1.
    split; [reflexivity |].
    split; [rewrite (getAll_open _ _ _ _ Hopen1); reflexivity |].
    split; [rewrite (count_open _ _ _ _ Hopen1); cbn; now rewrite map_size_empty |].
    intros other Hne. now apply set_objects_other.
Qed.

Lemma getAll_count_clear_witness :
  let store := mkObjectStore "id" [("status", "status"); ("createdAt", "createdAt")]
                 (<[KeyString "a" := Example.record pending 0]> ∅) in
  let env := mkEnv true None Example.browser_messages (Some (<[STORES.PENDING_UPLOADS := store]> ∅)) [true] (Some 0%nat) in
  open_on 0 STORES.PENDING_UPLOADS store env /\
  fst (IndexedDBWrapper.count 0 STORES.PENDING_UPLOADS
         (snd (IndexedDBWrapper.clear 0 STORES.PENDING_UPLOADS env))) = Ok 0%nat.
Proof.
  intros store env.
  assert (Hopen : open_on 0 STORES.PENDING_UPLOADS store env).
  { split; [reflexivity |]. eexists. split; reflexivity. }
  split; [exact Hopen |].
  destruct (getAll_count_clear 0 STORES.PENDING_UPLOADS store env Hopen)
    as (_ & _ & _ & Hcount & _).
  now rewrite Hcount.
Defined.

(** X24.  [getByIndex], and the names the database does not know.  On a
    connected wrapper, a store of the database and one of its indexes,
    [getByIndex] returns the stored values that have the given value at
    the key path of the index, and nothing else; with a name that is not
    an index of that store it rejects with the [NotFoundError] thrown by
    the store and changes nothing.  With a store name the database does
    not have, every data method rejects with the [NotFoundError] thrown
    by the transaction and changes nothing. *)
Theorem getByIndex_spec {V : Type} (field : string -> V -> option IDBKey)
    (this : nat) (storeName : string) (env : Env V) :
  IndexedDBWrapper.db this env = true ->
  (forall (store : ObjectStore V) (indexName path : string) (value : IDBKey),
     open_on this storeName store env ->
     List.find (fun i => String.eqb (fst i) indexName) (indexNames store)
     = Some (indexName, path) ->
     exists l,
       IndexedDBWrapper.getByIndex field this storeName indexName value env = (Ok l, env) /\
       forall v, v ∈ l <->
                 (exists key, objects store !! key = Some v) /\ field path v = Some value) /\
  (forall (store : ObjectStore V) (indexName : string) (value : IDBKey),
     open_on this storeName store env ->
     (forall i, i ∈ indexNames store -> fst i <> indexName) ->
     IndexedDBWrapper.getByIndex field this storeName indexName value env
     = (Thrown (JsError "NotFoundError"), env)) /\
  (store_objects storeName env = None ->
   forall (indexName key : string) (data : V) (value : IDBKey),
     let rejected {X : Type} : Result X * Env V :=
       (Thrown (JsError "NotFoundError"), env) in
     IndexedDBWrapper.add field this storeName data env = rejected /\
     IndexedDBWrapper.get this storeName key env = rejected /\
     IndexedDBWrapper.update field this storeName data env = rejected /\
     IndexedDBWrapper.delete this storeName key env = rejected /\
     IndexedDBWrapper.getAll this storeName env = rejected /\
     IndexedDBWrapper.getByIndex field this storeName indexName value env = rejected /\
     IndexedDBWrapper.clear this storeName env = rejected /\
     IndexedDBWrapper.count this storeName env = rejected).
Proof.
  intros Hdb. split; [| split].
  - intros store indexName path value Hopen Hfind.
    unfold IndexedDBWrapper.getByIndex.
    rewrite (getStore_open _ _ _ _ Hopen), Hfind.
    eexists. split; [reflexivity |].
    intros v. rewrite list_elem_of_In, filter_In, <- list_elem_of_In.
    rewrite bool_decide_eq_true, listing_Permutation, list_elem_of_fmap. split.
    + intros [([key v'] & -> & Hin) Hval]. split; [| exact Hval].
      exists key. now apply elem_of_map_to_list.
    + intros [[key Hkey] Hval]. split; [| exact Hval].
      exists (key, v). split; [reflexivity |]. now apply elem_of_map_to_list.
  - intros store indexName value Hopen Hnone.
    unfold IndexedDBWrapper.getByIndex. rewrite (getStore_open _ _ _ _ Hopen).
    destruct (List.find (fun i => String.eqb (fst i) indexName) (indexNames store))
      as [[name path] |] eqn:Hfind; [| reflexivity].
    apply find_some in Hfind as [Hin Heq]. apply String.eqb_eq in Heq.
    apply list_elem_of_In in Hin. destruct (Hnone _ Hin Heq).
  - intros Hnone indexName key data value rejected. subst rejected.
    assert (Hstore : IndexedDBWrapper.getStore this storeName env
                     = Thrown (thrown_dom NotFoundError)).
    { unfold IndexedDBWrapper.getStore, IndexedDBWrapper.ensureConnected.
      rewrite Hdb. cbn [negb]. unfold store_objects in Hnone.
      destruct (database env) as [d |]; cbn in *; [| reflexivity].
      destruct (d !! storeName); [discriminate | reflexivity]. }
    unfold IndexedDBWrapper.add, IndexedDBWrapper.get, IndexedDBWrapper.update,
      IndexedDBWrapper.delete, IndexedDBWrapper.getAll, IndexedDBWrapper.getByIndex,
      IndexedDBWrapper.clear, IndexedDBWrapper.count.
    rewrite Hstore. repeat split.
Qed.

Lemma getByIndex_spec_witness :
  let store := mkObjectStore "id" [("status", "status"); ("createdAt", "createdAt")]
                 (<[KeyString "a" := Example.record pending 0]> ∅) in
  let env := mkEnv true None Example.browser_messages (Some (<[STORES.PENDING_UPLOADS := store]> ∅)) [true] (Some 0%nat) in
  IndexedDBWrapper.db 0 env = true /\
  open_on 0 STORES.PENDING_UPLOADS store env /\
  (forall i, i ∈ indexNames store -> fst i <> "type") /\
  IndexedDBWrapper.getByIndex upload_field 0 STORES.PENDING_UPLOADS "type"
    (KeyString "image") env
  = (Thrown (JsError "NotFoundError"), env).
Proof.
  intros store env.
  assert (Hdb : IndexedDBWrapper.db 0 env = true) by reflexivity.
  assert (Hopen : open_on 0 STORES.PENDING_UPLOADS store env).
  { split; [reflexivity |]. eexists. split; reflexivity. }
  assert (Hnone : forall i, i ∈ indexNames store -> fst i <> "type").
  { intros i Hi. cbn in Hi.
    apply elem_of_cons in Hi as [-> | Hi]; [discriminate |].
    apply elem_of_cons in Hi as [-> | Hi]; [discriminate |].
    inversion Hi. }
  split; [exact Hdb |]. split; [exact Hopen |]. split; [exact Hnone |].
  destruct (getByIndex_spec upload_field 0 STORES.PENDING_UPLOADS env Hdb)
    as (_ & Hunknown & _).
  exact (Hunknown store "type" (KeyString "image") Hopen Hnone).
Defined.

(** ** The queue manager's view of the database *)

Lemma Permutation_List_filter {A : Type} (P : A -> bool) (l l' : list A) :
  l ≡ₚ l' -> List.filter P l ≡ₚ List.filter P l'.
Proof.
  induction 1 as [| x l l' _ IH | x y l | l l' l'' _ IH1 _ IH2]; cbn [List.filter].
  - reflexivity.
  - destruct (P x); [now constructor | exact IH].
  - destruct (P x), (P y); try reflexivity. apply perm_swap.
  - now transitivity (List.filter P l').
Qed.

Lemma records_kmap (s : gmap string PendingUpload) :
  listing (kmap (M2 := gmap IDBKey) KeyString s) ≡ₚ records s.
Proof.
  rewrite listing_Permutation, records_Permutation. rewrite map_to_list_kmap.
  rewrite <- list_fmap_compose.
  match goal with |- ?a ≡ₚ ?b => replace a with b; [reflexivity |] end.
  - apply list_fmap_ext. now intros i [k v] _.
  - exact KeyString_inj.
Qed.

Lemma same_store_set (w w' : World) (this : nat) (env : Env PendingUpload)
    (s : gmap string PendingUpload) :
  same_store w this env ->
  store w' = s ->
  oracle w' = oracle w ->
  same_store w' this
    (set_objects STORES.PENDING_UPLOADS (kmap (M2 := gmap IDBKey) KeyString s) env).
Proof.
  intros [Hopen Hmsg] <- Horacle. split.
  - apply (set_objects_open this STORES.PENDING_UPLOADS _
             (kmap (M2 := gmap IDBKey) KeyString (store w')) env Hopen).
  - rewrite Horacle. exact Hmsg.
Qed.

(** X25.  What the queue manager assumes of the database is what the
    wrapper does.  When the world of the queue manager and the state of
    the database module show the same 'pendingUploads' store through a
    connected wrapper, each database effect of the queue manager answers
    as the wrapper method it stands for ([add], [get], [update],
    [delete], [clear], [getAll], and [getByIndex] on 'status'), up to the
    order of the arrays, and the two stores are the same again
    afterwards. *)
Theorem handle_refines_wrapper (w : World) (this : nat) (env : Env PendingUpload) :
  same_store w this env ->
  (forall data,
     let r := IndexedDBWrapper.add upload_field this STORES.PENDING_UPLOADS data env in
     fst r = as_key (fst (handle (DbAdd data) w)) /\
     same_store (snd (handle (DbAdd data) w)) this (snd r)) /\
  (forall key,
     IndexedDBWrapper.get this STORES.PENDING_UPLOADS key env
     = (Ok (fst (handle (DbGet key) w)), env)) /\
  (forall data,
     let r := IndexedDBWrapper.update upload_field this STORES.PENDING_UPLOADS data env in
     fst r = Ok (KeyString (fst (handle (DbUpdate data) w))) /\
     same_store (snd (handle (DbUpdate data) w)) this (snd r)) /\
  (forall key,
     let r := IndexedDBWrapper.delete this STORES.PENDING_UPLOADS key env in
     fst r = Ok (fst (handle (DbDelete key) w)) /\
     same_store (snd (handle (DbDelete key) w)) this (snd r)) /\
  (let r := IndexedDBWrapper.clear this STORES.PENDING_UPLOADS env in
   fst r = Ok (fst (handle DbClear w)) /\
   same_store (snd (handle DbClear w)) this (snd r)) /\
  (exists l,
     IndexedDBWrapper.getAll this STORES.PENDING_UPLOADS env = (Ok l, env) /\
     l ≡ₚ fst (handle DbGetAll w)) /\
  (forall value,
     exists l,
       IndexedDBWrapper.getByIndex upload_field this STORES.PENDING_UPLOADS "status"
         (KeyString (status_name value)) env = (Ok l, env) /\
       l ≡ₚ fst (handle (DbGetByIndex value) w)).
Proof.
  intros Hsame. pose proof Hsame as [Hopen Hmsg].
  pose proof (getStore_open _ _ _ _ Hopen) as Hstore.
  split; [| split; [| split; [| split; [| split; [| split]]]]].
  - intros data r. subst r. unfold IndexedDBWrapper.add. rewrite Hstore.
    cbn [pendingUploads_store keyPath objects upload_field String.eqb handle].
    change (upload_field "id" data) with (Some (KeyString (id data))). cbv iota.
    rewrite (lookup_kmap (M2 := gmap IDBKey) KeyString).
    destruct (store w !! id data) as [old |] eqn:Hold; cbn [fst snd as_key].
    + split; [now rewrite Hmsg | exact Hsame].
    + split; [reflexivity |].
      rewrite <- (kmap_insert (M2 := gmap IDBKey) KeyString).
      apply (same_store_set w); [exact Hsame | reflexivity | reflexivity].
  - intros key. rewrite (get_open _ _ _ _ _ Hopen). cbn. now rewrite (lookup_kmap (M2 := gmap IDBKey) KeyString).
  - intros data r. subst r. unfold IndexedDBWrapper.update. rewrite Hstore.
    cbn [pendingUploads_store keyPath objects handle].
    change (upload_field "id" data) with (Some (KeyString (id data))). cbv iota.
    cbn [fst snd]. split; [reflexivity |].
    rewrite <- (kmap_insert (M2 := gmap IDBKey) KeyString).
    apply (same_store_set w); [exact Hsame | reflexivity | reflexivity].
  - intros key r. subst r. unfold IndexedDBWrapper.delete. rewrite Hstore.
    cbn [pendingUploads_store objects handle fst snd]. split; [reflexivity |].
    rewrite <- (kmap_delete (M2 := gmap IDBKey) KeyString).
    apply (same_store_set w); [exact Hsame | reflexivity | reflexivity].
  - unfold IndexedDBWrapper.clear. rewrite Hstore. cbn [handle fst snd].
    split; [reflexivity |].
    rewrite <- (kmap_empty (M2 := gmap IDBKey) KeyString).
    apply (same_store_set w); [exact Hsame | reflexivity | reflexivity].
  - eexists. split; [apply (getAll_open _ _ _ _ Hopen) |].
    cbn [handle fst pendingUploads_store objects]. apply records_kmap.
  - intros value. unfold IndexedDBWrapper.getByIndex. rewrite Hstore.
    cbn [pendingUploads_store indexNames objects List.find fst String.eqb].
    change (String.eqb "status" "status") with true. cbv iota.
    eexists. split; [reflexivity |].
    cbn [handle fst]. unfold by_status.
    etransitivity; [apply Permutation_List_filter, records_kmap |].
    erewrite filter_ext; [reflexivity |].
    intros u. unfold upload_field. cbn.
    destruct (status u), value; reflexivity.
Qed.

Lemma handle_refines_wrapper_witness :
  let w := world (Example.config_of Example.http_200 (Example.record pending 0)) in
  let env := mkEnv true None Example.browser_messages (Some (<[STORES.PENDING_UPLOADS := pendingUploads_store (store w)]> ∅))
               [true] (Some 0%nat) in
  same_store w 0 env /\
  IndexedDBWrapper.get 0 STORES.PENDING_UPLOADS "a" env
  = (Ok (Some (Example.record pending 0)), env).
Proof.
  intros w env.
  assert (Hsame : same_store w 0 env).
  { split; [| reflexivity]. split; [reflexivity |]. eexists. split; reflexivity. }
  split; [exact Hsame |].
  destruct (handle_refines_wrapper w 0 env Hsame) as (_ & Hget & _).
  exact (Hget "a").
Defined.

(* ===================================================================== *)
(** * [media-validator.ts] and [uploadOffline]                           *)
(* ===================================================================== *)

Lemma array_includes_In (array : list string) (s : string) :
  array_includes array s = true <-> List.In s array.
Proof.
  unfold array_includes. rewrite existsb_exists. split.
  - intros (x & Hin & Heq). apply String.eqb_eq in Heq. now subst x.
  - intros Hin. exists s. split; [exact Hin | apply String.eqb_refl].
Qed.

Lemma array_includes_not_In (array : list string) (s : string) :
  array_includes array s = false <-> ~ List.In s array.
Proof.
  rewrite <- array_includes_In. now destruct (array_includes array s).
Qed.

Lemma detectMediaType_Some (mime : File -> string) (file : File) (t : MediaType) :
  detectMediaType mime file = Some t -> List.In (mime file) (supported_types t).
Proof.
  unfold detectMediaType.
  destruct (array_includes SUPPORTED_IMAGE_TYPES (mime file)) eqn:Hi.
  - intros [= <-]. now apply array_includes_In.
  - destruct (array_includes SUPPORTED_VIDEO_TYPES (mime file)) eqn:Hv; [| discriminate].
    intros [= <-]. now apply array_includes_In.
Qed.

Lemma validateFile_typed (mime : File -> string) (file : File) (t : MediaType) :
  let r := validateFile mime (Some file) (Some t) in
  (List.In (mime file) (supported_types t) -> file_size file <= max_size t ->
   r = FileValidationResult.mk true None None) /\
  (List.In (mime file) (supported_types t) -> max_size t < file_size file ->
   FileValidationResult.valid r = false /\
   FileValidationResult.errorCode r = Some ErrorCode.VAL_001) /\
  (~ List.In (mime file) (supported_types t) ->
   FileValidationResult.valid r = false /\
   FileValidationResult.errorCode r = Some ErrorCode.VAL_002).
Proof.
  intros r. subst r. unfold validateFile, validateFileType, validateFileSize.
  cbv zeta. fold (supported_types t). fold (max_size t).
  destruct (array_includes (supported_types t) (mime file)) eqn:Hinc; cbn [negb].
  - apply array_includes_In in Hinc.
    cbn [FileValidationResult.valid negb].
    destruct (Z.gtb_spec (file_size file) (max_size t)) as [Hgt | Hle];
      cbn [FileValidationResult.valid FileValidationResult.errorCode negb].
    + split; [intros; lia |]. split; [intros; split; reflexivity | intros H; now destruct H].
    + split; [reflexivity |]. split; [intros; lia | intros H; now destruct H].
  - apply array_includes_not_In in Hinc.
    cbn [FileValidationResult.valid FileValidationResult.errorCode negb].
    split; [intros H; now destruct Hinc |].
    split; [intros H; now destruct Hinc | intros; split; reflexivity].
Qed.

(** X26.  What [validateFile] accepts.  With the media type detected
    from the file, a file is valid exactly when its MIME type is one of
    the four image types and it has at most 10 MiB, or its MIME type is
    one of the two video types and it has at most 100 MiB (a file of
    exactly the limit is accepted).  With a media type given, the MIME
    type must be one of that media type and the limit is that of that
    media type.  A valid result carries no error; a file of no supported
    type gets 'VAL_002', a file of a supported type above the limit
    'VAL_001', no file at all 'VAL_003'. *)
Theorem validateFile_spec (mime : File -> string) (file : File) :
  (forall t : MediaType,
     let r := validateFile mime (Some file) (Some t) in
     (FileValidationResult.valid r = true <->
      List.In (mime file) (supported_types t) /\ file_size file <= max_size t) /\
     (FileValidationResult.valid r = true -> r = FileValidationResult.mk true None None) /\
     (FileValidationResult.errorCode r = Some ErrorCode.VAL_002 <->
      ~ List.In (mime file) (supported_types t)) /\
     (FileValidationResult.errorCode r = Some ErrorCode.VAL_001 <->
      List.In (mime file) (supported_types t) /\ max_size t < file_size file)) /\
  (let r := validateFile mime (Some file) None in
   (FileValidationResult.valid r = true <->
    (List.In (mime file) SUPPORTED_IMAGE_TYPES /\ file_size file <= 10485760) \/
    (List.In (mime file) SUPPORTED_VIDEO_TYPES /\ file_size file <= 104857600)) /\
   (FileValidationResult.valid r = true -> r = FileValidationResult.mk true None None) /\
   (FileValidationResult.errorCode r = Some ErrorCode.VAL_002 <->
    ~ List.In (mime file) (SUPPORTED_IMAGE_TYPES ++ SUPPORTED_VIDEO_TYPES)) /\
   (FileValidationResult.valid r = true ->
    exists t, detectMediaType mime file = Some t /\
              r = validateFile mime (Some file) (Some t))) /\
  (forall mediaType,
     validateFile mime None mediaType
     = FileValidationResult.mk false (Some "파일이 선택되지 않았습니다.")
         (Some ErrorCode.VAL_003)).
Proof.
  assert (Htyped : forall t : MediaType,
     let r := validateFile mime (Some file) (Some t) in
     (FileValidationResult.valid r = true <->
      List.In (mime file) (supported_types t) /\ file_size file <= max_size t) /\
     (FileValidationResult.valid r = true -> r = FileValidationResult.mk true None None) /\
     (FileValidationResult.errorCode r = Some ErrorCode.VAL_002 <->
      ~ List.In (mime file) (supported_types t)) /\
     (FileValidationResult.errorCode r = Some ErrorCode.VAL_001 <->
      List.In (mime file) (supported_types t) /\ max_size t < file_size file)).
  { intros t r. subst r.
    destruct (validateFile_typed mime file t) as (Hok & Hbig & Hbad).
    destruct (in_dec String.string_dec (mime file) (supported_types t)) as [Hin | Hnin].
    - destruct (Z_le_gt_dec (file_size file) (max_size t)) as [Hle | Hgt].
      + rewrite (Hok Hin Hle). cbn.
        split; [split; [intros _; split; assumption | reflexivity] |].
        split; [reflexivity |].
        split; [split; [discriminate | intros H; now destruct H] |].
        split; [discriminate | intros [_ H]; lia].
      + destruct (Hbig Hin ltac:(lia)) as [Hv Hc]. rewrite Hv, Hc.
        split; [split; [discriminate | intros [_ H]; lia] |].
        split; [discriminate |].
        split; [split; [discriminate | intros H; now destruct H] |].
        split; [intros _; split; [exact Hin | lia] | reflexivity].
    - destruct (Hbad Hnin) as [Hv Hc]. rewrite Hv, Hc.
      split; [split; [discriminate | intros [H _]; now destruct Hnin] |].
      split; [discriminate |].
      split; [split; [intros _; exact Hnin | reflexivity] |].
      split; [discriminate | intros [H _]; now destruct Hnin]. }
  split; [exact Htyped |]. split; [| reflexivity].
  intros r. subst r.
  destruct (detectMediaType mime file) as [t |] eqn:Hdetect.
  - assert (Heq : validateFile mime (Some file) None = validateFile mime (Some file) (Some t)).
    { unfold validateFile. now rewrite Hdetect. }
    rewrite Heq. destruct (Htyped t) as (Hvalid & Hclean & Hcode & _).
    pose proof (detectMediaType_Some mime file t Hdetect) as Hin.
    assert (Honly : forall t', List.In (mime file) (supported_types t') -> t' = t).
    { intros t' Hin'. destruct t, t'; try reflexivity; exfalso;
        cbn in Hin, Hin'; intuition congruence. }
    split; [| split; [exact Hclean | split]].
    + rewrite Hvalid. split.
      * intros [_ Hle]. destruct t; [left | right]; (split; [exact Hin | exact Hle]).
      * intros [[Hi Hle] | [Hv Hle]].
        -- rewrite <- (Honly image Hi). split; [exact Hi | exact Hle].
        -- rewrite <- (Honly video Hv). split; [exact Hv | exact Hle].
    + rewrite Hcode. split; [intros H; now destruct H |].
      intros H. destruct H. apply in_or_app. destruct t; [now left | now right].
    + intros _. exists t. split; reflexivity.
  - assert (Heq : validateFile mime (Some file) None
                  = FileValidationResult.mk false (Some "지원하지 않는 파일 형식입니다.")
                      (Some ErrorCode.VAL_002)).
    { unfold validateFile. now rewrite Hdetect. }
    rewrite Heq. cbn [FileValidationResult.valid FileValidationResult.errorCode].
    unfold detectMediaType in Hdetect.
    destruct (array_includes SUPPORTED_IMAGE_TYPES (mime file)) eqn:Hi; [discriminate |].
    destruct (array_includes SUPPORTED_VIDEO_TYPES (mime file)) eqn:Hv; [discriminate |].
    apply array_includes_not_In in Hi, Hv.
    split; [split; [discriminate | intros [[H _] | [H _]]; contradiction] |].
    split; [discriminate |].
    split; [| discriminate].
    split; [| reflexivity]. intros _ H. apply in_app_or in H. tauto.
Qed.

Lemma detected_prefix (mime : File -> string) (file : File) (t : MediaType) :
  detectMediaType mime file = Some t ->
  (if String.prefix "image/" (mime file) then image else video) = t.
Proof.
  intros Hdetect. pose proof (detectMediaType_Some mime file t Hdetect) as Hin.
  unfold detectMediaType in Hdetect.
  destruct (array_includes SUPPORTED_IMAGE_TYPES (mime file)) eqn:Hi.
  - injection Hdetect as <-. cbn in Hin.
    destruct Hin as [<- | [<- | [<- | [<- | []]]]]; reflexivity.
  - destruct (array_includes SUPPORTED_VIDEO_TYPES (mime file)); [| discriminate].
    injection Hdetect as <-. cbn in Hin.
    destruct Hin as [<- | [<- | []]]; reflexivity.
Qed.

Lemma validateFile_valid_detected (mime : File -> string) (file : File) :
  FileValidationResult.valid (validateFile mime (Some file) None) = true ->
  exists t, detectMediaType mime file = Some t.
Proof.
  unfold validateFile. destruct (detectMediaType mime file) as [t |].
  - intros _. now exists t.
  - cbn. discriminate.
Qed.

(** X27.  [uploadOffline] queues the file under the media type it reads
    off the MIME type: 'image' when that starts with 'image/', 'video'
    for anything else.  For a file that [validateFile] has accepted, as
    in [upload], this is the media type the validator detected.  When the
    new id is free the call resolves with [{success: true, queueId}],
    [queueId] being the id of the record now stored as 'pending' with that
    type; when [addToQueue] rejects, so does [uploadOffline], and nothing
    is stored. *)
Theorem uploadOffline_spec (mime : File -> string) (file : File) (c : Config) :
  let w := world c in
  let mediaType := if String.prefix "image/" (mime file) then image else video in
  let upload := new_upload file mediaType w in
  let r := run (uploadOffline mime file) c in
  (FileValidationResult.valid (validateFile mime (Some file) None) = true ->
   detectMediaType mime file = Some mediaType) /\
  (store w !! id upload = None ->
   fst r = Ok (UploadResult.mk true None None (Some (id upload))) /\
   store (world (snd r)) = <[id upload := upload]> (store w) /\
   status upload = pending /\ type upload = mediaType) /\
  (is_Some (store w !! id upload) ->
   (exists e, fst r = Thrown e) /\ store (world (snd r)) = store w).
Proof.
  intros w mediaType upload r. subst r. split; [| split].
  - intros Hvalid.
    destruct (validateFile_valid_detected mime file Hvalid) as (t & Hdetect).
    rewrite Hdetect. f_equal. symmetry. now apply detected_prefix.
  - intros Hfree. unfold uploadOffline. cbv zeta. fold mediaType.
    rewrite run_bind, run_await, run_addToQueue. fold w. fold upload.
    rewrite Hfree.
    split; [reflexivity |]. split; [| split; reflexivity].
    cbn [snd ret run].
    destruct (onLine w); [rewrite begin_processQueue_store |]; reflexivity.
  - intros [old Hold]. unfold uploadOffline. cbv zeta. fold mediaType.
    rewrite run_bind, run_await, run_addToQueue. fold w. fold upload.
    rewrite Hold. cbn [fst snd world].
    split; [eexists; reflexivity | reflexivity].
Qed.

Lemma uploadOffline_spec_witness :
  let c := Example.config_of Example.http_200 (Example.record pending 0) in
  let mime := fun _ : File => "image/png" in
  let upload := new_upload Example.photo image (world c) in
  FileValidationResult.valid (validateFile mime (Some Example.photo) None) = true /\
  store (world c) !! id upload = None /\
  detectMediaType mime Example.photo = Some image /\
  fst (run (uploadOffline mime Example.photo) c)
  = Ok (UploadResult.mk true None None (Some (id upload))).
Proof.
  intros c mime upload.
  assert (Hvalid : FileValidationResult.valid
                     (validateFile mime (Some Example.photo) None) = true)
    by reflexivity.
  assert (Hfree : store (world c) !! id upload = None) by reflexivity.
  split; [exact Hvalid |]. split; [exact Hfree |].
  destruct (uploadOffline_spec mime Example.photo c) as (Hdetect & Hnew & _).
  split; [exact (Hdetect Hvalid) | exact (proj1 (Hnew Hfree))].
Defined.
